(** * AugmentPipe: the differentiable augmentation pipeline

    A shallow embedding of [core/differentiable_augmentation/augment.py]
    ([AugmentPipe.__init__] and [AugmentPipe.forward]) and of the wrapper
    [core/differentiable_augmentation/diff_augm.py].

    Conventions of the embedding:
    - a floating point scalar is a real number ([R]); rounding, infinities
      and NaN are outside the model;
    - a tensor is a shape together with its elements in row-major order;
    - [torch.rand] and [torch.randn] read from an explicit generator state
      that is threaded through the computation;
    - the fused kernels of [torch_utils.ops] and of [torch.nn.functional]
      ([pad], [upsample2d], [affine_grid], [grid_sample], [downsample2d],
      [conv2d]) and [torch.erfinv] are not part of the repository: they are
      fields of a record [kernels]; every launch is recorded in a ghost
      trace; [torch.erfinv] is a real number strictly between -1 and 1
      only ([erfinv_finite]), which excludes the values 0 and 1 of
      [debug_percentile] where its value is used;
    - a Python exception is a value of [exn]. *)

From Stdlib Require Import Reals Lra Lia List ZArith Bool.
Import ListNotations.

Local Open Scope R_scope.

(* ------------------------------------------------------------------ *)
(** * Scalars *)

Module Scalar.

(** [a < b] on tensor elements, as a boolean. *)
Definition ltb (a b : R) : bool := if Rlt_dec a b then true else false.

(** [a >= b]. *)
Definition geb (a b : R) : bool := negb (ltb a b).

(** [torch.floor]. *)
Definition floor (x : R) : R := IZR (Int_part x).

(** [torch.ceil] followed by [.to(torch.int32)]. *)
Definition ceil_int (x : R) : Z := (- Int_part (- x))%Z.

(** [torch.round]: to the nearest integer, ties to even. *)
Definition round (x : R) : R :=
  let f := Int_part x in
  let d := x - IZR f in
  if ltb d (1/2) then IZR f
  else if ltb (1/2) d then IZR (f + 1)
  else if Z.even f then IZR f else IZR (f + 1).

(** [torch.exp2]. *)
Definition exp2 (x : R) : R := Rpower 2 x.

(** [x.clamp(lo, hi)]. *)
Definition clamp (x lo hi : R) : R := Rmin (Rmax x lo) hi.

End Scalar.

(* ------------------------------------------------------------------ *)
(** * Small dense matrices *)

Module Mat.

(** A matrix is the list of its rows. *)
Definition mat := list (list R).

Definition dot (u v : list R) : R :=
  fold_right Rplus 0 (map (fun ab => fst ab * snd ab) (combine u v)).

Definition col (j : nat) (m : mat) : list R := map (fun r => nth j r 0) m.

Definition ncols (m : mat) : nat := length (hd [] m).

(** [a @ b] for two matrices. *)
Definition mul (a b : mat) : mat :=
  map (fun r => map (fun j => dot r (col j b)) (seq 0 (ncols b))) a.

(** [m.t()]. *)
Definition transpose (m : mat) : mat :=
  map (fun j => col j m) (seq 0 (ncols m)).

Definition add (a b : mat) : mat :=
  map (fun rs => map (fun xy => fst xy + snd xy) (combine (fst rs) (snd rs)))
      (combine a b).

Definition sub (a b : mat) : mat :=
  map (fun rs => map (fun xy => fst xy - snd xy) (combine (fst rs) (snd rs)))
      (combine a b).

(** Multiplication of every entry by a scalar. *)
Definition scal (s : R) (a : mat) : mat := map (map (Rmult s)) a.

(** [torch.eye(3)] and [torch.eye(4)]. *)
Definition I_3 : mat := [[1; 0; 0]; [0; 1; 0]; [0; 0; 1]].
Definition I_4 : mat :=
  [[1; 0; 0; 0]; [0; 1; 0; 0]; [0; 0; 1; 0]; [0; 0; 0; 1]].

(** [u.ger(v)], the outer product. *)
Definition ger (u v : list R) : mat := map (fun a => map (Rmult a) v) u.

(** A 3 by 3 matrix, entry by entry. *)
Definition is3x3 (m : mat) : Prop :=
  exists a b c d e f g h i, m = [[a; b; c]; [d; e; f]; [g; h; i]].

End Mat.

(* ------------------------------------------------------------------ *)
(** * Tensors *)

Module Tensor.

(** A tensor: its shape and its elements in row-major order. *)
Record tensor := mk { shape : list nat; data : list R }.

(** Number of elements of a shape. *)
Definition numel (s : list nat) : nat := fold_right Nat.mul 1%nat s.

(** The elements of a rank-4 tensor from a function of the four indices. *)
Definition tabulate4 (n c h w : nat) (f : nat -> nat -> nat -> nat -> R)
  : list R :=
  flat_map (fun i =>
    flat_map (fun j =>
      flat_map (fun y => map (fun x => f i j y x) (seq 0 w)) (seq 0 h))
      (seq 0 c)) (seq 0 n).

(** Element [i, j, y, x] of row-major data of shape [_, c, h, w]. *)
Definition at4 (c h w : nat) (d : list R) (i j y x : nat) : R :=
  nth (((i * c + j) * h + y) * w + x) d 0.

Definition tabulate3 (n c m : nat) (f : nat -> nat -> nat -> R) : list R :=
  flat_map (fun i =>
    flat_map (fun j => map (fun k => f i j k) (seq 0 m)) (seq 0 c))
    (seq 0 n).

Definition at3 (c m : nat) (d : list R) (i j k : nat) : R :=
  nth ((i * c + j) * m + k) d 0.

(** [torch.zeros_like], [torch.ones_like], [torch.full_like] on a vector of
    per-element parameters. *)
Definition zeros_like (v : list R) : list R := map (fun _ => 0) v.
Definition ones_like (v : list R) : list R := map (fun _ => 1) v.
Definition full_like {A B} (v : list A) (x : B) : list B := map (fun _ => x) v.

(** [torch.where(u < thr, a, b)], element by element. *)
Definition where_lt {A} (u : list R) (thr : R) (a b : list A) : list A :=
  map (fun e => if Scalar.ltb (fst e) thr then fst (snd e) else snd (snd e))
      (combine u (combine a b)).

(** [v.max()] over all the elements; [None] on an empty tensor. *)
Definition max_values (v : list R) : option R :=
  match v with
  | [] => None
  | x :: r => Some (fold_left Rmax r x)
  end.

End Tensor.

(* ------------------------------------------------------------------ *)
(** * Exceptions, the random generator and the monad of [forward] *)

Module Eff.

Import Tensor.

Inductive exn : Type :=
| AssertionError
| ValueError
| ZeroDivisionError
| IndexError
| RuntimeError.

Inductive result (A : Type) : Type :=
| Ok (a : A)
| Raise (e : exn).
Arguments Ok {A} a.
Arguments Raise {A} e.

(** The random generator: the uniform draws on [0, 1) and the standard
    normal draws it will deliver, and the number of draws consumed. *)
Record generator := mkgen {
  uniform : nat -> R;
  normal : nat -> R;
  cursor : nat
}.

(** The launches of external kernels (ghost state). *)
Inductive launch : Type :=
| L_pad
| L_upsample2d
| L_affine_grid
| L_grid_sample
| L_downsample2d
| L_conv2d.

Record world := mkworld { gen : generator; trace : list launch }.

Definition M (A : Type) : Type := world -> result (A * world).

Definition ret {A} (a : A) : M A := fun w => Ok (a, w).

Definition bind {A B} (m : M A) (k : A -> M B) : M B :=
  fun w => match m w with
           | Ok (a, w') => k a w'
           | Raise e => Raise e
           end.

Definition raise {A} (e : exn) : M A := fun _ => Raise e.

(** Lifting of a kernel result, recording the launch. *)
Definition call {A} (l : launch) (r : result A) : M A :=
  fun w => match r with
           | Ok a => Ok (a, mkworld (gen w) (trace w ++ [l]))
           | Raise e => Raise e
           end.

Definition draws (f : nat -> R) (from n : nat) : list R :=
  map (fun i => f (from + i)%nat) (seq 0 n).

Definition advance (g : generator) (n : nat) : generator :=
  mkgen (uniform g) (normal g) (cursor g + n).

(** [torch.rand([n])]. *)
Definition rand (n : nat) : M (list R) :=
  fun w => Ok (draws (uniform (gen w)) (cursor (gen w)) n,
               mkworld (advance (gen w) n) (trace w)).

(** [torch.randn([n])]. *)
Definition randn (n : nat) : M (list R) :=
  fun w => Ok (draws (normal (gen w)) (cursor (gen w)) n,
               mkworld (advance (gen w) n) (trace w)).

(** A tensor of shape [n, 2] as the list of its rows. *)
Fixpoint rows2 (l : list R) : list (R * R) :=
  match l with
  | a :: b :: r => (a, b) :: rows2 r
  | _ => []
  end.

(** [torch.rand([n, 2])] and [torch.randn([n, 2])]. *)
Definition rand2 (n : nat) : M (list (R * R)) :=
  bind (rand (2 * n)) (fun l => ret (rows2 l)).
Definition randn2 (n : nat) : M (list (R * R)) :=
  bind (randn (2 * n)) (fun l => ret (rows2 l)).

(** The result of [m], without the final state. *)
Definition value {A} (r : result (A * world)) : result A :=
  match r with
  | Ok (a, _) => Ok a
  | Raise e => Raise e
  end.

End Eff.

Declare Scope eff_scope.
Delimit Scope eff_scope with eff.
Notation "x <- m ;; k" := (Eff.bind m (fun x => k))
  (at level 61, m at next level, right associativity) : eff_scope.
Notation "m ;;; k" := (Eff.bind m (fun _ => k))
  (at level 61, right associativity) : eff_scope.

(* ------------------------------------------------------------------ *)
(** * External kernels and constant tables *)

Module Kernels.

Import Mat Tensor Eff.

(** The functions of [torch], [torch.nn.functional] and [torch_utils.ops]
    that [forward] calls, with the arguments it passes. *)
Record kernels := {
  (** [torch.erfinv(x)], for [x] strictly between -1 and 1.  At -1 and 1
      [torch.erfinv] is infinite and outside of this interval it is NaN:
      there the field says nothing about [torch]. *)
  erfinv : R -> R;
  (** [upfirdn2d.setup_filter(f)] *)
  setup_filter : list R -> list R;
  (** [torch.nn.functional.pad(input, pad=[x0, x1, y0, y1], mode='reflect')] *)
  pad : tensor -> Z -> Z -> Z -> Z -> result tensor;
  (** [upfirdn2d.upsample2d(x, f, up)] *)
  upsample2d : tensor -> list R -> nat -> result tensor;
  (** [torch.nn.functional.affine_grid(theta, size, align_corners=False)] *)
  affine_grid : list mat -> list nat -> result tensor;
  (** [grid_sample_gradfix.grid_sample(input, grid)] *)
  grid_sample : tensor -> tensor -> result tensor;
  (** [upfirdn2d.downsample2d(x, f, down, padding, flip_filter)] *)
  downsample2d : tensor -> list R -> nat -> Z -> bool -> result tensor;
  (** [conv2d_gradfix.conv2d(input, weight, groups)] *)
  conv2d : tensor -> tensor -> nat -> result tensor
}.

(** The arguments at which [torch.erfinv] is a real number. *)
Definition erfinv_finite (x : R) : Prop := -1 < x < 1.

(** The entries of the table [wavelets] that the constructor reads. *)
Record wavelet_table := {
  sym2 : list R;
  sym6 : list R
}.

End Kernels.

(* ------------------------------------------------------------------ *)
(** * Helpers for constructing transformation matrices *)

Module Builders.

Import Mat.

(** Modelled from the spec: [translate2d] is missing from the source file;
    the 2D homogeneous translation matrix. *)
Definition translate2d (tx ty : R) : mat :=
  [[1; 0; tx]; [0; 1; ty]; [0; 0; 1]].

(** Modelled from the spec: [scale2d] is missing from the source file;
    the 2D homogeneous scaling matrix. *)
Definition scale2d (sx sy : R) : mat :=
  [[sx; 0; 0]; [0; sy; 0]; [0; 0; 1]].

(** Modelled from the spec: [rotate2d] is missing from the source file;
    the 2D homogeneous rotation matrix. *)
Definition rotate2d (theta : R) : mat :=
  [[cos theta; sin (- theta); 0]; [sin theta; cos theta; 0]; [0; 0; 1]].

(** Modelled from the spec: [translate2d_inv] is missing from the source
    file; the closed-form inverse of [translate2d] (negation). *)
Definition translate2d_inv (tx ty : R) : mat := translate2d (- tx) (- ty).

(** Modelled from the spec: [scale2d_inv] is missing from the source file;
    the closed-form inverse of [scale2d] (reciprocals). *)
Definition scale2d_inv (sx sy : R) : mat := scale2d (1 / sx) (1 / sy).

(** Modelled from the spec: [rotate2d_inv] is missing from the source file;
    the closed-form inverse of [rotate2d] (negated angle). *)
Definition rotate2d_inv (theta : R) : mat := rotate2d (- theta).

(** Modelled from the spec: [translate3d] is missing from the source file;
    the 3D homogeneous translation matrix. *)
Definition translate3d (tx ty tz : R) : mat :=
  [[1; 0; 0; tx]; [0; 1; 0; ty]; [0; 0; 1; tz]; [0; 0; 0; 1]].

(** Modelled from the spec: [scale3d] is missing from the source file;
    the 3D homogeneous scaling matrix. *)
Definition scale3d (sx sy sz : R) : mat :=
  [[sx; 0; 0; 0]; [0; sy; 0; 0]; [0; 0; sz; 0]; [0; 0; 0; 1]].

(** Modelled from the spec: [rotate3d] is missing from the source file;
    the rotation by [theta] about the unit axis [v] (Rodrigues formula). *)
Definition rotate3d (v : list R) (theta : R) : mat :=
  let vx := nth 0 v 0 in
  let vy := nth 1 v 0 in
  let vz := nth 2 v 0 in
  let s := sin theta in
  let c := cos theta in
  let cc := 1 - c in
  [[vx * vx * cc + c; vx * vy * cc - vz * s; vx * vz * cc + vy * s; 0];
   [vy * vx * cc + vz * s; vy * vy * cc + c; vy * vz * cc - vx * s; 0];
   [vz * vx * cc - vy * s; vz * vy * cc + vx * s; vz * vz * cc + c; 0];
   [0; 0; 0; 1]].

End Builders.

(* ------------------------------------------------------------------ *)
(** * The pipeline object and its constructor *)

Module Pipe.

Import Mat Tensor Eff Kernels.

(** The keyword arguments of [AugmentPipe.__init__], after [float(...)]
    and [list(...)]. *)
Record options := {
  xflip : R;
  rotate90 : R;
  xint : R;
  xint_max : R;
  scale : R;
  rotate : R;
  aniso : R;
  xfrac : R;
  scale_std : R;
  rotate_max : R;
  aniso_std : R;
  xfrac_std : R;
  brightness : R;
  contrast : R;
  lumaflip : R;
  hue : R;
  saturation : R;
  brightness_std : R;
  contrast_std : R;
  hue_max : R;
  saturation_std : R;
  imgfilter : R;
  imgfilter_bands : list R;
  imgfilter_std : R;
  noise : R;
  cutout : R;
  noise_std : R;
  cutout_size : R
}.

(** The default values of the keyword arguments. *)
Definition defaults : options := {|
  xflip := 0; rotate90 := 0; xint := 0; xint_max := 0.125;
  scale := 0; rotate := 0; aniso := 0; xfrac := 0;
  scale_std := 0.2; rotate_max := 1; aniso_std := 0.2; xfrac_std := 0.125;
  brightness := 0; contrast := 0; lumaflip := 0; hue := 0; saturation := 0;
  brightness_std := 0.2; contrast_std := 0.5; hue_max := 1;
  saturation_std := 1;
  imgfilter := 0; imgfilter_bands := [1; 1; 1; 1]; imgfilter_std := 1;
  noise := 0; cutout := 0; noise_std := 0.1; cutout_size := 0.5
|}.

(** The object: its attributes and its three buffers. *)
Record AugmentPipe := {
  opt : options;
  p : R;
  Hz_geom : list R;
  Hz_fbank : list (list R)
}.

(** Sum of two coefficient lists, the shorter one extended by zeros. *)
Fixpoint padd (a b : list R) : list R :=
  match a, b with
  | [], _ => b
  | _, [] => a
  | x :: a', y :: b' => (x + y) :: padd a' b'
  end.

(** [np.convolve(a, b)] (mode [full]). *)
Fixpoint convolve (a b : list R) : list R :=
  match a with
  | [] => []
  | x :: a' => padd (map (Rmult x) b) (0 :: convolve a' b)
  end.

(** [a * ((-1) ** np.arange(a.size))], starting with the sign [sgn]. *)
Fixpoint alternate (sgn : R) (a : list R) : list R :=
  match a with
  | [] => []
  | x :: r => x * sgn :: alternate (- sgn) r
  end.

(** One row of [np.dstack([f, np.zeros_like(f)]).reshape(rows, -1)[:, :-1]]. *)
Fixpoint interleave0 (a : list R) : list R :=
  match a with
  | [] => []
  | [x] => [x]
  | x :: r => x :: 0 :: interleave0 r
  end.

(** [row[lo:hi] += v]. *)
Definition add_slice (row : list R) (lo hi : nat) (v : list R) : list R :=
  map (fun k => if ((lo <=? k) && (k <? hi))%nat
                then nth k row 0 + nth (k - lo) v 0
                else nth k row 0)
      (seq 0 (length row)).

(** The body of the loop that builds the filter bank, for the index [i]. *)
Definition fbank_step (Hz_lo2 Hz_hi2 : list R) (fb : list (list R)) (i : nat)
  : list (list R) :=
  let fb := map interleave0 fb in
  let fb := map (fun r => convolve r Hz_lo2) fb in
  let n := ncols fb in
  let m := length Hz_hi2 in
  map (fun kr => if (fst kr =? i)%nat
                 then add_slice (snd kr) ((n - m) / 2) ((n + m) / 2) Hz_hi2
                 else snd kr)
      (combine (seq 0 (length fb)) fb).

(** The filter bank computed by the constructor from [wavelets['sym2']]. *)
Definition make_fbank (Hz_lo : list R) : list (list R) :=
  let Hz_hi := alternate 1 Hz_lo in
  let Hz_lo2 := map (fun x => x / 2) (convolve Hz_lo (rev Hz_lo)) in
  let Hz_hi2 := map (fun x => x / 2) (convolve Hz_hi (rev Hz_hi)) in
  let fb0 := [[1]; [0]; [0]; [0]] in
  fold_left (fbank_step Hz_lo2 Hz_hi2) (seq 1 (length fb0 - 1)) fb0.

(** [AugmentPipe.__init__]. *)
Definition init (K : kernels) (wavelets : wavelet_table) (o : options)
  : AugmentPipe := {|
  opt := o;
  p := 1;
  Hz_geom := setup_filter K (sym6 wavelets);
  Hz_fbank := make_fbank (sym2 wavelets)
|}.

(** Assignment to the buffer [p] by the training loop. *)
Definition set_p (self : AugmentPipe) (strength : R) : AugmentPipe := {|
  opt := opt self;
  p := strength;
  Hz_geom := Hz_geom self;
  Hz_fbank := Hz_fbank self
|}.

End Pipe.

(* ------------------------------------------------------------------ *)
(** * [AugmentPipe.forward]: selection of the parameters *)

Module Select.

Import Scalar Mat Tensor Eff Kernels Builders Pipe.
Local Open Scope eff_scope.

(** [x > 0] on an attribute. *)
Definition positive (x : R) : bool := ltb 0 x.

(** The random switches of [forward], in the order of the source. *)
Inductive gate : Type :=
| G_xflip
| G_rotate90
| G_xint
| G_scale
| G_rotate_pre
| G_aniso
| G_rotate_post
| G_xfrac
| G_brightness
| G_contrast
| G_lumaflip
| G_hue
| G_saturation
| G_imgfilter (band_strength : R)
| G_noise
| G_cutout.

(** [p_rot = 1 - torch.sqrt((1 - self.rotate * self.p).clamp(0, 1))]. *)
Definition p_rot (self : AugmentPipe) : R :=
  1 - sqrt (clamp (1 - rotate (opt self) * p self) 0 1).

(** The right-hand side of the comparison [torch.rand(...) < ...] of each
    switch. *)
Definition threshold (self : AugmentPipe) (g : gate) : R :=
  let o := opt self in
  match g with
  | G_xflip => xflip o * p self
  | G_rotate90 => rotate90 o * p self
  | G_xint => xint o * p self
  | G_scale => scale o * p self
  | G_rotate_pre => p_rot self
  | G_aniso => aniso o * p self
  | G_rotate_post => p_rot self
  | G_xfrac => xfrac o * p self
  | G_brightness => brightness o * p self
  | G_contrast => contrast o * p self
  | G_lumaflip => lumaflip o * p self
  | G_hue => hue o * p self
  | G_saturation => saturation o * p self
  | G_imgfilter band_strength => imgfilter o * p self * band_strength
  | G_noise => noise o * p self
  | G_cutout => cutout o * p self
  end.

(** [v = torch.where(torch.rand([n]) < threshold, v, ident)]. *)
Definition gated {A} (self : AugmentPipe) (g : gate) (n : nat)
  (v ident : list A) : M (list A) :=
  u <- rand n ;;
  ret (where_lt u (threshold self g) v ident).

(** [if debug_percentile is not None: v = torch.full_like(v, f(debug_percentile))]. *)
Definition debug_override {A} (debug_percentile : option R) (v : list A)
  (f : R -> A) : list A :=
  match debug_percentile with
  | Some d => full_like v (f d)
  | None => v
  end.

Section Blocks.

Variable K : kernels.
Variable self : AugmentPipe.
Variable batch_size : nat.
Variable debug_percentile : option R.

Let o := opt self.

Definition select_xflip : M (list R) :=
  r <- rand batch_size ;;
  let i := map (fun x => floor (x * 2)) r in
  i <- gated self G_xflip batch_size i (zeros_like i) ;;
  ret (debug_override debug_percentile i (fun d => floor (d * 2))).

Definition select_rotate90 : M (list R) :=
  r <- rand batch_size ;;
  let i := map (fun x => floor (x * 4)) r in
  i <- gated self G_rotate90 batch_size i (zeros_like i) ;;
  ret (debug_override debug_percentile i (fun d => floor (d * 4))).

Definition select_xint : M (list (R * R)) :=
  r <- rand2 batch_size ;;
  let t := map (fun xy => ((fst xy * 2 - 1) * xint_max o,
                           (snd xy * 2 - 1) * xint_max o)) r in
  t <- gated self G_xint batch_size t (full_like t (0, 0)) ;;
  ret (debug_override debug_percentile t
         (fun d => ((d * 2 - 1) * xint_max o, (d * 2 - 1) * xint_max o))).

Definition select_scale : M (list R) :=
  r <- randn batch_size ;;
  let s := map (fun x => exp2 (x * scale_std o)) r in
  s <- gated self G_scale batch_size s (ones_like s) ;;
  ret (debug_override debug_percentile s
         (fun d => exp2 (erfinv K (d * 2 - 1) * scale_std o))).

Definition select_rotate_pre : M (list R) :=
  r <- rand batch_size ;;
  let theta := map (fun x => (x * 2 - 1) * PI * rotate_max o) r in
  theta <- gated self G_rotate_pre batch_size theta (zeros_like theta) ;;
  ret (debug_override debug_percentile theta
         (fun d => (d * 2 - 1) * PI * rotate_max o)).

Definition select_aniso : M (list R) :=
  r <- randn batch_size ;;
  let s := map (fun x => exp2 (x * aniso_std o)) r in
  s <- gated self G_aniso batch_size s (ones_like s) ;;
  ret (debug_override debug_percentile s
         (fun d => exp2 (erfinv K (d * 2 - 1) * aniso_std o))).

Definition select_rotate_post : M (list R) :=
  r <- rand batch_size ;;
  let theta := map (fun x => (x * 2 - 1) * PI * rotate_max o) r in
  theta <- gated self G_rotate_post batch_size theta (zeros_like theta) ;;
  ret (match debug_percentile with
       | Some _ => zeros_like theta
       | None => theta
       end).

Definition select_xfrac : M (list (R * R)) :=
  r <- randn2 batch_size ;;
  let t := map (fun xy => (fst xy * xfrac_std o, snd xy * xfrac_std o)) r in
  t <- gated self G_xfrac batch_size t (full_like t (0, 0)) ;;
  ret (debug_override debug_percentile t
         (fun d => (erfinv K (d * 2 - 1) * xfrac_std o,
                    erfinv K (d * 2 - 1) * xfrac_std o))).

Definition select_brightness : M (list R) :=
  r <- randn batch_size ;;
  let b := map (fun x => x * brightness_std o) r in
  b <- gated self G_brightness batch_size b (zeros_like b) ;;
  ret (debug_override debug_percentile b
         (fun d => erfinv K (d * 2 - 1) * brightness_std o)).

Definition select_contrast : M (list R) :=
  r <- randn batch_size ;;
  let c := map (fun x => exp2 (x * contrast_std o)) r in
  c <- gated self G_contrast batch_size c (ones_like c) ;;
  ret (debug_override debug_percentile c
         (fun d => exp2 (erfinv K (d * 2 - 1) * contrast_std o))).

Definition select_lumaflip : M (list R) :=
  r <- rand batch_size ;;
  let i := map (fun x => floor (x * 2)) r in
  i <- gated self G_lumaflip batch_size i (zeros_like i) ;;
  ret (debug_override debug_percentile i (fun d => floor (d * 2))).

Definition select_hue : M (list R) :=
  r <- rand batch_size ;;
  let theta := map (fun x => (x * 2 - 1) * PI * hue_max o) r in
  theta <- gated self G_hue batch_size theta (zeros_like theta) ;;
  ret (debug_override debug_percentile theta
         (fun d => (d * 2 - 1) * PI * hue_max o)).

Definition select_saturation : M (list R) :=
  r <- randn batch_size ;;
  let s := map (fun x => exp2 (x * saturation_std o)) r in
  s <- gated self G_saturation batch_size s (ones_like s) ;;
  ret (debug_override debug_percentile s
         (fun d => exp2 (erfinv K (d * 2 - 1) * saturation_std o))).

(** The gain [t_i] of one frequency band. *)
Definition select_band (band_strength : R) : M (list R) :=
  r <- randn batch_size ;;
  let t_i := map (fun x => exp2 (x * imgfilter_std o)) r in
  t_i <- gated self (G_imgfilter band_strength) batch_size t_i
           (ones_like t_i) ;;
  ret (match debug_percentile with
       | Some d =>
           if positive band_strength
           then full_like t_i (exp2 (erfinv K (d * 2 - 1) * imgfilter_std o))
           else ones_like t_i
       | None => t_i
       end).

Definition select_noise : M (list R) :=
  r <- randn batch_size ;;
  let sigma := map (fun x => Rabs x * noise_std o) r in
  sigma <- gated self G_noise batch_size sigma (zeros_like sigma) ;;
  ret (debug_override debug_percentile sigma
         (fun d => erfinv K d * noise_std o)).

(** The size and the centre of the cutout rectangle, both of shape
    [batch_size, 2, 1, 1, 1]. *)
Definition select_cutout : M (list (R * R) * list (R * R)) :=
  let size := repeat (cutout_size o, cutout_size o) batch_size in
  size <- gated self G_cutout batch_size size (full_like size (0, 0)) ;;
  center <- rand2 batch_size ;;
  ret (match debug_percentile with
       | Some d => (full_like size (cutout_size o, cutout_size o),
                    full_like center (d, d))
       | None => (size, center)
       end).

End Blocks.

End Select.

(* ------------------------------------------------------------------ *)
(** * [AugmentPipe.forward]: accumulation and execution *)

Module Forward.

Import Scalar Mat Tensor Eff Kernels Builders Pipe Select.
Local Open Scope eff_scope.

(** The value of the variable [G_inv] (and of [C]): either the very
    object [I_3] ([I_4]) created at the beginning, or a batch of matrices
    allocated by a matrix product. *)
Inductive tref : Type :=
| Eye
| Fresh (ms : list mat).

(** [g is not I]. *)
Definition is_not_eye (g : tref) : bool :=
  match g with
  | Eye => false
  | Fresh _ => true
  end.

Definition map2 {A B C} (f : A -> B -> C) (a : list A) (b : list B)
  : list C :=
  map (fun ab => f (fst ab) (snd ab)) (combine a b).

(** [g @ x], where [x] is a batch; the result is a new tensor. *)
Definition matmul_r (I : mat) (g : tref) (x : list mat) : tref :=
  Fresh (match g with
         | Eye => map (mul I) x
         | Fresh a => map2 mul a x
         end).

(** [x @ c], where [x] is a batch; the result is a new tensor. *)
Definition matmul_l (I : mat) (x : list mat) (c : tref) : tref :=
  Fresh (match c with
         | Eye => map (fun m => mul m I) x
         | Fresh a => map2 mul x a
         end).

(** [a * s] for a matrix and a scalar. *)
Definition times (a : mat) (s : R) : mat := map (map (fun e => e * s)) a.

(** [images.reshape(s)]. *)
Definition reshape (t : tensor) (s : list nat) : M tensor :=
  if (numel (shape t) =? numel s)%nat
  then ret (Tensor.mk s (data t))
  else raise RuntimeError.

(** The dimension that [t.reshape([k, 1, -1])] infers for a tensor of
    elements [t]: the number of elements divided by [k].  [torch] raises
    when [k] is 0 (the dimension is ambiguous on no element, impossible on
    some) and when the division is not exact. *)
Definition infer_last (t : list R) (k : nat) : M nat :=
  if (k =? 0)%nat then raise RuntimeError
  else if (length t mod k =? 0)%nat then ret (length t / k)%nat
  else raise RuntimeError.

Section Stages.

Variable K : kernels.
Variable self : AugmentPipe.
Variable debug_percentile : option R.
Variables batch_size num_channels height width : nat.

Let o := opt self.

(** Lines 136 to 143. *)
Definition apply_xflip (G_inv : tref) : M tref :=
  if positive (xflip o) then
    i <- select_xflip self batch_size debug_percentile ;;
    ret (matmul_r I_3 G_inv (map (fun i => scale2d_inv (1 - 2 * i) 1) i))
  else ret G_inv.

(** Lines 145 to 152. *)
Definition apply_rotate90 (G_inv : tref) : M tref :=
  if positive (rotate90 o) then
    i <- select_rotate90 self batch_size debug_percentile ;;
    ret (matmul_r I_3 G_inv (map (fun i => rotate2d_inv (- PI / 2 * i)) i))
  else ret G_inv.

(** Lines 154 to 164. *)
Definition apply_xint (G_inv : tref) : M tref :=
  if positive (xint o) then
    t <- select_xint self batch_size debug_percentile ;;
    ret (matmul_r I_3 G_inv
           (map (fun t => translate2d_inv (round (fst t * INR width))
                                          (round (snd t * INR height))) t))
  else ret G_inv.

(** Lines 170 to 179. *)
Definition apply_scale (G_inv : tref) : M tref :=
  if positive (scale o) then
    s <- select_scale K self batch_size debug_percentile ;;
    ret (matmul_r I_3 G_inv (map (fun s => scale2d_inv s s) s))
  else ret G_inv.

(** Lines 184 to 192. *)
Definition apply_rotate_pre (G_inv : tref) : M tref :=
  if positive (rotate o) then
    theta <- select_rotate_pre self batch_size debug_percentile ;;
    ret (matmul_r I_3 G_inv (map (fun theta => rotate2d_inv (- theta)) theta))
  else ret G_inv.

(** Lines 194 to 203. *)
Definition apply_aniso (G_inv : tref) : M tref :=
  if positive (aniso o) then
    s <- select_aniso K self batch_size debug_percentile ;;
    ret (matmul_r I_3 G_inv (map (fun s => scale2d_inv s (1 / s)) s))
  else ret G_inv.

(** Lines 205 to 213. *)
Definition apply_rotate_post (G_inv : tref) : M tref :=
  if positive (rotate o) then
    theta <- select_rotate_post self batch_size debug_percentile ;;
    ret (matmul_r I_3 G_inv (map (fun theta => rotate2d_inv (- theta)) theta))
  else ret G_inv.

(** Lines 215 to 223. *)
Definition apply_xfrac (G_inv : tref) : M tref :=
  if positive (xfrac o) then
    t <- select_xfrac K self batch_size debug_percentile ;;
    ret (matmul_r I_3 G_inv
           (map (fun t => translate2d_inv (fst t * INR width)
                                          (snd t * INR height)) t))
  else ret G_inv.

(** Lines 132 to 223: the inverse transform [G_inv]. *)
Definition accumulate_G : M tref :=
  let G_inv := Eye in
  G_inv <- apply_xflip G_inv ;;
  G_inv <- apply_rotate90 G_inv ;;
  G_inv <- apply_xint G_inv ;;
  G_inv <- apply_scale G_inv ;;
  G_inv <- apply_rotate_pre G_inv ;;
  G_inv <- apply_aniso G_inv ;;
  G_inv <- apply_rotate_post G_inv ;;
  G_inv <- apply_xfrac G_inv ;;
  ret G_inv.

(** [margin.max(b)] and [margin.min(b)], element by element. *)
Definition maximum (a b : list R) : list R := map2 Rmax a b.
Definition minimum (a b : list R) : list R := map2 Rmin a b.

(** Lines 232 to 249: the padding [mx0, my0, mx1, my1]. *)
Definition calculate_padding (G_inv : list mat) : M (Z * Z * Z * Z) :=
  let cx := (INR width - 1) / 2 in
  let cy := (INR height - 1) / 2 in
  let cp := [[- cx; - cy; 1]; [cx; - cy; 1]; [cx; cy; 1]; [- cx; cy; 1]] in
  let cp := map (fun g => mul g (transpose cp)) G_inv in
  let Hz_pad := INR (length (Hz_geom self) / 4) in
  let margin_x := flat_map (fun m => nth 0 m []) cp in
  let margin_y := flat_map (fun m => nth 1 m []) cp in
  match max_values (map Ropp margin_x), max_values (map Ropp margin_y),
        max_values margin_x, max_values margin_y with
  | Some x0, Some y0, Some x1, Some y1 =>
      let margin := [x0; y0; x1; y1] in
      let margin := map2 Rplus margin
                      ([Hz_pad * 2 - cx; Hz_pad * 2 - cy]
                       ++ [Hz_pad * 2 - cx; Hz_pad * 2 - cy]) in
      let margin := maximum margin ([0; 0] ++ [0; 0]) in
      let margin := minimum margin
                      ([INR width - 1; INR height - 1]
                       ++ [INR width - 1; INR height - 1]) in
      match map ceil_int margin with
      | [mx0; my0; mx1; my1] => ret (mx0, my0, mx1, my1)
      | _ => raise RuntimeError
      end
  | _, _, _, _ => raise RuntimeError
  end.

(** [2 / s[k]] for a list [s] of Python integers. *)
Definition two_over (s : list nat) (k : nat) : M R :=
  match nth_error s k with
  | None => raise IndexError
  | Some O => raise ZeroDivisionError
  | Some d => ret (2 / INR d)
  end.

(** Lines 232 to 274: the body of [if G_inv is not I_3]. *)
Definition execute_geometric (images : tensor) (G_inv : list mat)
  : M tensor :=
  m <- calculate_padding G_inv ;;
  let '(mx0, my0, mx1, my1) := m in
  let Hz_pad := (length (Hz_geom self) / 4)%nat in
  images <- call L_pad (pad K images mx0 mx1 my0 my1) ;;
  let G_inv := map (mul (translate2d (IZR (mx0 - mx1) / 2)
                                     (IZR (my0 - my1) / 2))) G_inv in
  images <- call L_upsample2d (upsample2d K images (Hz_geom self) 2) ;;
  let G_inv := map (fun g => mul (mul (scale2d 2 2) g) (scale2d_inv 2 2))
                   G_inv in
  let G_inv := map (fun g => mul (mul (translate2d (-0.5) (-0.5)) g)
                                 (translate2d_inv (-0.5) (-0.5))) G_inv in
  let shape := [batch_size; num_channels;
                ((height + Hz_pad * 2) * 2)%nat;
                ((width + Hz_pad * 2) * 2)%nat] in
  sx <- two_over (Tensor.shape images) 3 ;;
  sy <- two_over (Tensor.shape images) 2 ;;
  tx <- two_over shape 3 ;;
  ty <- two_over shape 2 ;;
  let G_inv := map (fun g => mul (mul (scale2d sx sy) g) (scale2d_inv tx ty))
                   G_inv in
  grid <- call L_affine_grid (affine_grid K (map (firstn 2) G_inv) shape) ;;
  images <- call L_grid_sample (grid_sample K images grid) ;;
  call L_downsample2d
    (downsample2d K images (Hz_geom self) 2
       (- Z.of_nat Hz_pad * 2)%Z true).

(** The luma axis [v]. *)
Definition luma_axis : list R := map (fun x => x / sqrt 3) [1; 1; 1; 0].

(** Lines 284 to 292. *)
Definition apply_brightness (C : tref) : M tref :=
  if positive (brightness o) then
    b <- select_brightness K self batch_size debug_percentile ;;
    ret (matmul_l I_4 (map (fun b => translate3d b b b) b) C)
  else ret C.

(** Lines 294 to 303. *)
Definition apply_contrast (C : tref) : M tref :=
  if positive (contrast o) then
    c <- select_contrast K self batch_size debug_percentile ;;
    ret (matmul_l I_4 (map (fun c => scale3d c c c) c) C)
  else ret C.

(** Lines 305 to 314. *)
Definition apply_lumaflip (C : tref) : M tref :=
  let v := luma_axis in
  if positive (lumaflip o) then
    i <- select_lumaflip self batch_size debug_percentile ;;
    ret (matmul_l I_4
           (map (fun i => sub I_4 (times (scal 2 (ger v v)) i)) i) C)
  else ret C.

(** Lines 316 to 325. *)
Definition apply_hue (C : tref) : M tref :=
  let v := luma_axis in
  if positive (hue o) && (1 <? num_channels)%nat then
    theta <- select_hue self batch_size debug_percentile ;;
    ret (matmul_l I_4 (map (fun theta => rotate3d v theta) theta) C)
  else ret C.

(** Lines 327 to 336. *)
Definition apply_saturation (C : tref) : M tref :=
  let v := luma_axis in
  if positive (saturation o) && (1 <? num_channels)%nat then
    s <- select_saturation K self batch_size debug_percentile ;;
    ret (matmul_l I_4
           (map (fun s => add (ger v v) (times (sub I_4 (ger v v)) s)) s) C)
  else ret C.

(** Lines 280 to 336: the colour transform [C]. *)
Definition accumulate_C : M tref :=
  let C := Eye in
  C <- apply_brightness C ;;
  C <- apply_contrast C ;;
  C <- apply_lumaflip C ;;
  C <- apply_hue C ;;
  C <- apply_saturation C ;;
  ret C.

(** Lines 344 to 354: the body of [if C is not I_4]. *)
Definition execute_color (images : tensor) (C : list mat) : M tensor :=
  let hw := (height * width)%nat in
  images <- reshape images [batch_size; num_channels; hw] ;;
  images <-
    (if (num_channels =? 3)%nat then
       ret (Tensor.mk (shape images)
              (tabulate3 batch_size 3 hw (fun n r j =>
                 let row := nth r (nth n C []) [] in
                 dot (firstn 3 row)
                     [at3 3 hw (data images) n 0 j;
                      at3 3 hw (data images) n 1 j;
                      at3 3 hw (data images) n 2 j]
                 + nth 3 row 0)))
     else if (num_channels =? 1)%nat then
       let C := map (fun c => map (fun k => (nth k (nth 0 c []) 0
                                             + nth k (nth 1 c []) 0
                                             + nth k (nth 2 c []) 0) / 3)
                                  (seq 0 4)) C in
       ret (Tensor.mk (shape images)
              (tabulate3 batch_size 1 hw (fun n _ j =>
                 let c := nth n C [] in
                 at3 1 hw (data images) n 0 j
                 * fold_right Rplus 0 (firstn 3 c)
                 + nth 3 c 0)))
     else raise ValueError) ;;
  reshape images [batch_size; num_channels; height; width].

(** The gain vector after the loop over the bands [bands], which start at
    the index [i]. *)
Fixpoint band_gains (num_bands : nat) (expected_power : list R)
  (i : nat) (bands : list R) (g : list (list R)) : M (list (list R)) :=
  match bands with
  | [] => ret g
  | band_strength :: rest =>
      t_i <- select_band K self batch_size debug_percentile band_strength ;;
      let t := map (fun x => map (fun k => if (k =? i)%nat then x else 1)
                                 (seq 0 num_bands)) t_i in
      let t := map (fun row =>
                 let s := sqrt (fold_right Rplus 0
                            (map2 Rmult expected_power
                               (map (fun x => x * x) row))) in
                 map (fun x => x / s) row) t in
      band_gains num_bands expected_power (S i) rest
        (map2 (map2 Rmult) g t)
  end.

(** Lines 361 to 406: the body of [if self.imgfilter > 0]. *)
Definition image_filter (images : tensor) : M tensor :=
  let num_bands := length (Hz_fbank self) in
  if negb (length (imgfilter_bands o) =? num_bands)%nat
  then raise AssertionError
  else
    let expected_power := map (fun x => x / 13) [10; 1; 1; 1] in
    let g := repeat (repeat 1 num_bands) batch_size in
    g <- band_gains num_bands expected_power 0 (imgfilter_bands o) g ;;
    let Hz_prime := mul g (Hz_fbank self) in
    let taps := ncols (Hz_fbank self) in
    let Hz_prime := flat_map (fun hz => concat (repeat hz num_channels))
                             Hz_prime in
    let groups := (batch_size * num_channels)%nat in
    n <- infer_last Hz_prime groups ;;
    let p := (taps / 2)%nat in
    images <- reshape images [1%nat; groups; height; width] ;;
    images <- call L_pad (pad K images (Z.of_nat p) (Z.of_nat p)
                            (Z.of_nat p) (Z.of_nat p)) ;;
    images <- call L_conv2d
                (conv2d K images
                   (Tensor.mk [groups; 1%nat; 1%nat; n] Hz_prime) groups) ;;
    images <- call L_conv2d
                (conv2d K images
                   (Tensor.mk [groups; 1%nat; n; 1%nat] Hz_prime) groups) ;;
    reshape images [batch_size; num_channels; height; width].

(** An element-wise operation between [images] and a tensor of shape
    [batch_size, num_channels, height, width] given by its elements.
    On other shapes of [images] the broadcasting rules are not modelled. *)
Definition pointwise (images : tensor)
  (f : R -> nat -> nat -> nat -> nat -> R) : M tensor :=
  if list_eq_dec Nat.eq_dec (shape images)
       [batch_size; num_channels; height; width]
  then ret (Tensor.mk (shape images)
              (tabulate4 batch_size num_channels height width
                 (fun n c y x =>
                    f (at4 num_channels height width (data images) n c y x)
                      n c y x)))
  else raise RuntimeError.

(** Lines 414 to 423: the body of [if self.noise > 0]. *)
Definition add_noise (images : tensor) : M tensor :=
  sigma <- select_noise K self batch_size debug_percentile ;;
  r <- randn (batch_size * num_channels * height * width) ;;
  pointwise images (fun v n c y x =>
    v + at4 num_channels height width r n c y x * nth n sigma 0).

(** The value of [mask] at the element [n] and the pixel [(x, y)]. *)
Definition cutout_mask (size center : list (R * R)) (n y x : nat) : R :=
  let mask_x := geb (Rabs ((INR x + 0.5) / INR width
                           - fst (nth n center (0, 0))))
                    (fst (nth n size (0, 0)) / 2) in
  let mask_y := geb (Rabs ((INR y + 0.5) / INR height
                           - snd (nth n center (0, 0))))
                    (snd (nth n size (0, 0)) / 2) in
  if mask_x || mask_y then 1 else 0.

(** Lines 427 to 443: the body of [if self.cutout > 0]. *)
Definition apply_cutout (images : tensor) : M tensor :=
  sc <- select_cutout self batch_size debug_percentile ;;
  let '(size, center) := sc in
  pointwise images (fun v n c y x => v * cutout_mask size center n y x).

End Stages.

(** Lines 132 to 274: the geometric transformations. *)
Definition geometric_stage (K : kernels) (self : AugmentPipe)
  (debug_percentile : option R) (batch_size num_channels height width : nat)
  (images : tensor) : M tensor :=
  G_inv <- accumulate_G K self debug_percentile batch_size height width ;;
  match G_inv with
  | Fresh G_inv =>
      execute_geometric K self batch_size num_channels height width
        images G_inv
  | Eye => ret images
  end.

(** Lines 280 to 354: the colour transformations. *)
Definition color_stage (K : kernels) (self : AugmentPipe)
  (debug_percentile : option R) (batch_size num_channels height width : nat)
  (images : tensor) : M tensor :=
  C <- accumulate_C K self debug_percentile batch_size num_channels ;;
  match C with
  | Fresh C =>
      execute_color batch_size num_channels height width images C
  | Eye => ret images
  end.

(** Lines 360 to 443: filtering and corruptions. *)
Definition corruption_stage (K : kernels) (self : AugmentPipe)
  (debug_percentile : option R) (batch_size num_channels height width : nat)
  (images : tensor) : M tensor :=
  let o := opt self in
  images <- (if positive (imgfilter o)
             then image_filter K self debug_percentile batch_size
                    num_channels height width images
             else ret images) ;;
  images <- (if positive (noise o)
             then add_noise K self debug_percentile batch_size
                    num_channels height width images
             else ret images) ;;
  images <- (if positive (cutout o)
             then apply_cutout self debug_percentile batch_size
                    num_channels height width images
             else ret images) ;;
  ret images.

(** [AugmentPipe.forward(images, debug_percentile)]. *)
Definition forward (K : kernels) (self : AugmentPipe) (images : tensor)
  (debug_percentile : option R) : M tensor :=
  match shape images with
  | [batch_size; num_channels; height; width] =>
      images <- geometric_stage K self debug_percentile batch_size
                  num_channels height width images ;;
      images <- color_stage K self debug_percentile batch_size
                  num_channels height width images ;;
      corruption_stage K self debug_percentile batch_size num_channels
        height width images
  | _ => raise AssertionError
  end.

End Forward.

(* ------------------------------------------------------------------ *)
(** * Contracts of the external kernels *)

Module Contract.

Import Mat Tensor Eff Kernels.

(** A tensor has as many elements as its shape says. *)
Definition wf (t : tensor) : Prop := length (data t) = numel (shape t).

(** Output size of [upfirdn2d.downsample2d] along one axis, for an input
    size [d], a filter of [fw] taps, [down = 2] and the padding [padding]
    on both sides. *)
Definition downsampled (d : nat) (fw padding : Z) : Z :=
  ((Z.of_nat d + (padding + (fw - 2 + 1) / 2) + (padding + (fw - 2) / 2)
    - fw + 2) / 2)%Z.

(** What the documentation of the kernels promises about shapes, and the
    conditions of [pad] in the mode [reflect]: there is at least one
    channel, and each padding is smaller than the dimension it extends.
    The grouped convolution needs at least one group. *)
Record lawful (K : kernels) : Prop := {
  erfinv_zero : forall x, erfinv K x = 0 -> x = 0;
  setup_filter_length : forall f, length (setup_filter K f) = length f;
  pad_ok : forall t n c h w x0 x1 y0 y1,
    shape t = [n; c; h; w] -> (1 <= c)%nat ->
    (0 <= x0 < Z.of_nat w)%Z -> (0 <= x1 < Z.of_nat w)%Z ->
    (0 <= y0 < Z.of_nat h)%Z -> (0 <= y1 < Z.of_nat h)%Z ->
    exists t', pad K t x0 x1 y0 y1 = Ok t'
      /\ shape t' = [n; c; Z.to_nat (Z.of_nat h + y0 + y1);
                     Z.to_nat (Z.of_nat w + x0 + x1)]
      /\ wf t';
  pad_too_large : forall t n c h w x0 x1 y0 y1,
    shape t = [n; c; h; w] ->
    (Z.of_nat w <= x0 \/ Z.of_nat w <= x1
     \/ Z.of_nat h <= y0 \/ Z.of_nat h <= y1)%Z ->
    pad K t x0 x1 y0 y1 = Raise RuntimeError;
  upsample2d_ok : forall t f n c h w,
    shape t = [n; c; h; w] -> f <> [] ->
    exists t', upsample2d K t f 2 = Ok t'
      /\ shape t' = [n; c; (h * 2)%nat; (w * 2)%nat] /\ wf t';
  affine_grid_ok : forall theta n c h w,
    length theta = n ->
    exists g, affine_grid K theta [n; c; h; w] = Ok g
      /\ shape g = [n; h; w; 2%nat];
  grid_sample_ok : forall t g n c h w h' w',
    shape t = [n; c; h; w] -> shape g = [n; h'; w'; 2%nat] ->
    exists t', grid_sample K t g = Ok t'
      /\ shape t' = [n; c; h'; w'] /\ wf t';
  downsample2d_ok : forall t f n c h w padding flip_filter,
    shape t = [n; c; h; w] ->
    (0 < downsampled h (Z.of_nat (length f)) padding)%Z ->
    (0 < downsampled w (Z.of_nat (length f)) padding)%Z ->
    exists t', downsample2d K t f 2 padding flip_filter = Ok t'
      /\ shape t' = [n; c;
                     Z.to_nat (downsampled h (Z.of_nat (length f)) padding);
                     Z.to_nat (downsampled w (Z.of_nat (length f)) padding)]
      /\ wf t';
  conv2d_ok : forall t weight g h w kh kw,
    shape t = [1%nat; g; h; w] -> shape weight = [g; 1%nat; kh; kw] ->
    (1 <= g)%nat -> (1 <= kh <= h)%nat -> (1 <= kw <= w)%nat ->
    exists t', conv2d K t weight g = Ok t'
      /\ shape t' = [1%nat; g; (h - kh + 1)%nat; (w - kw + 1)%nat] /\ wf t'
}.

(** The table [wavelets] has the lengths stated for its two entries. *)
Definition table_ok (wavelets : wavelet_table) : Prop :=
  length (sym2 wavelets) = 4%nat /\ length (sym6 wavelets) = 12%nat.

(** A tensor of zeros. *)
Definition zeros (s : list nat) : tensor := Tensor.mk s (repeat 0 (numel s)).

Definition in_range (x : Z) (d : nat) : bool :=
  ((0 <=? x) && (x <? Z.of_nat d))%Z.

(** Kernels that compute the shapes of their results only: every element
    of a result is zero.  They serve to run [forward] on concrete inputs. *)
Definition shape_only : kernels := {|
  erfinv := fun x => x;
  setup_filter := fun f => f;
  pad := fun t x0 x1 y0 y1 =>
    match shape t with
    | [n; c; h; w] =>
        if (1 <=? c)%nat
           && in_range x0 w && in_range x1 w && in_range y0 h && in_range y1 h
        then Ok (zeros [n; c; Z.to_nat (Z.of_nat h + y0 + y1);
                        Z.to_nat (Z.of_nat w + x0 + x1)])
        else Raise RuntimeError
    | _ => Raise RuntimeError
    end;
  upsample2d := fun t f up =>
    match shape t with
    | [n; c; h; w] => Ok (zeros [n; c; (h * up)%nat; (w * up)%nat])
    | _ => Raise RuntimeError
    end;
  affine_grid := fun theta size =>
    match size with
    | [n; c; h; w] =>
        if (length theta =? n)%nat then Ok (zeros [n; h; w; 2%nat])
        else Raise RuntimeError
    | _ => Raise RuntimeError
    end;
  grid_sample := fun t g =>
    match shape t, shape g with
    | [n; c; _; _], [n'; h'; w'; _] =>
        if (n =? n')%nat then Ok (zeros [n; c; h'; w'])
        else Raise RuntimeError
    | _, _ => Raise RuntimeError
    end;
  downsample2d := fun t f down padding flip_filter =>
    match shape t with
    | [n; c; h; w] =>
        let oh := downsampled h (Z.of_nat (length f)) padding in
        let ow := downsampled w (Z.of_nat (length f)) padding in
        if ((0 <? oh) && (0 <? ow))%Z
        then Ok (zeros [n; c; Z.to_nat oh; Z.to_nat ow])
        else Raise RuntimeError
    | _ => Raise RuntimeError
    end;
  conv2d := fun t weight groups =>
    match shape t, shape weight with
    | [b; g; h; w], [_; _; kh; kw] =>
        if ((1 <=? groups) && (kh <=? h) && (kw <=? w))%nat
        then Ok (zeros [b; g; (h - kh + 1)%nat; (w - kw + 1)%nat])
        else Raise RuntimeError
    | _, _ => Raise RuntimeError
    end
|}.

(** A table with the two lengths of [table_ok]. *)
Definition unit_table : wavelet_table := {|
  sym2 := repeat 1 4;
  sym6 := repeat 1 12
|}.

End Contract.

(* ------------------------------------------------------------------ *)
(** * Probabilities of the switches *)

Module Chance.

Import Scalar Mat Tensor Eff Pipe Select Forward.
Local Open Scope eff_scope.

(** The probability of [u < t] for [u] uniform on the interval [0, 1):
    the length of the part of the interval below [t]. *)
Definition fires (t : R) : R := clamp t 0 1.

(** The probability that at least one of two switches fires, for
    independent draws and the thresholds [a] and [b]. *)
Definition either (a b : R) : R := 1 - (1 - fires a) * (1 - fires b).

(** The [m] equally likely values of a uniform draw on the grid of step
    [1 / m] of the interval [0, 1). *)
Definition grid (m : nat) : list R :=
  map (fun k => INR k / INR m) (seq 0 m).

(** The pairs of independent draws on the grid for which at least one of
    two switches, of thresholds [a] and [b], fires. *)
Definition fired (m : nat) (a b : R) : list (R * R) :=
  filter (fun u => ltb (fst u) a || ltb (snd u) b)
         (list_prod (grid m) (grid m)).

(** The state of a generator whose uniform draws are the elements of
    [us], in their order, and 0 afterwards. *)
Definition replay (us : list R) : world :=
  mkworld (mkgen (fun i => nth i us 0) (fun _ => 0) 0) [].

(** Whether a transform is the identity: the object [I_3], or a batch of
    matrices that are all equal to it. *)
Definition is_identity (g : tref) : bool :=
  match g with
  | Eye => true
  | Fresh ms =>
      forallb (fun m => if list_eq_dec (list_eq_dec Req_dec_T) m I_3
                        then true else false) ms
  end.

(** On one image, the pre-rotation and then the post-rotation of
    [forward], each run on the identity so as to see the matrix it
    multiplies into [G_inv]: whether at least one of the two stages
    applies a rotation, that is a matrix other than the identity.  The
    generator draws [a1] and [a2] for the two angles and [u] and [v] for
    the two switches. *)
Definition rotation_applied (self : AugmentPipe) (a1 u a2 v : R) : bool :=
  match (pre <- apply_rotate_pre self None 1 Eye ;;
         post <- apply_rotate_post self None 1 Eye ;;
         ret (pre, post)) (replay [a1; u; a2; v]) with
  | Ok ((pre, post), _) => negb (is_identity pre) || negb (is_identity post)
  | Raise _ => false
  end.

(** The fraction of the [m * m] equally likely pairs of values of the two
    switch draws, on the grid of step [1 / m], for which at least one
    rotation stage applies a rotation. *)
Definition rotation_rate (self : AugmentPipe) (a1 a2 : R) (m : nat) : R :=
  INR (length
         (filter (fun uv => rotation_applied self a1 (fst uv) a2 (snd uv))
                 (list_prod (grid m) (grid m))))
  / INR (m * m).

(** The configured probability of a switch: its multiplier times the
    strength (times the strength of the band, for a frequency band). *)
Definition configured (self : AugmentPipe) (g : gate) : R :=
  let o := opt self in
  match g with
  | G_xflip => xflip o * p self
  | G_rotate90 => rotate90 o * p self
  | G_xint => xint o * p self
  | G_scale => scale o * p self
  | G_rotate_pre => rotate o * p self
  | G_aniso => aniso o * p self
  | G_rotate_post => rotate o * p self
  | G_xfrac => xfrac o * p self
  | G_brightness => brightness o * p self
  | G_contrast => contrast o * p self
  | G_lumaflip => lumaflip o * p self
  | G_hue => hue o * p self
  | G_saturation => saturation o * p self
  | G_imgfilter band_strength => imgfilter o * p self * band_strength
  | G_noise => noise o * p self
  | G_cutout => cutout o * p self
  end.

End Chance.

(* ------------------------------------------------------------------ *)
(** * Predicates on the configuration *)

Module Config.

Import Scalar Pipe Select.

(** The probability multipliers, in the order of the constructor. *)
Definition geometric_multipliers (o : options) : list R :=
  [xflip o; rotate90 o; xint o; scale o; rotate o; aniso o; xfrac o].

Definition color_multipliers (o : options) : list R :=
  [brightness o; contrast o; lumaflip o; hue o; saturation o].

Definition multipliers (o : options) : list R :=
  geometric_multipliers o ++ color_multipliers o
  ++ [imgfilter o; noise o; cutout o].

Definition all_zero (l : list R) : Prop := Forall (fun q => q = 0) l.

(** No multiplier of the list passes the test [> 0]. *)
Definition none_positive (l : list R) : Prop := Forall (fun q => q <= 0) l.

(** Some colour block of [forward] is entered for [num_channels]
    channels. *)
Definition color_pending (o : options) (num_channels : nat) : bool :=
  positive (brightness o) || positive (contrast o) || positive (lumaflip o)
  || (positive (hue o) && (1 <? num_channels)%nat)
  || (positive (saturation o) && (1 <? num_channels)%nat).

(** The generator delivers uniform draws on [0, 1). *)
Definition unit_draws (w : Eff.world) : Prop :=
  forall i, 0 <= Eff.uniform (Eff.gen w) i < 1.

End Config.

(* ------------------------------------------------------------------ *)
(** * Outcomes of computations *)

Module Outcome.

Import Mat Tensor Eff Forward.

(** [m] returns, in every state, a value that satisfies [P]; it launches
    no kernel and leaves the streams of the generator as they are. *)
Definition yields {A} (m : M A) (P : A -> Prop) : Prop :=
  forall w, exists a w',
    m w = Ok (a, w') /\ P a /\ trace w' = trace w
    /\ uniform (gen w') = uniform (gen w)
    /\ normal (gen w') = normal (gen w).

(** The value of [m] is the same in every state. *)
Definition constant {A} (m : M A) : Prop :=
  forall w1 w2, value (m w1) = value (m w2).

(** [m] returns a value that satisfies [P] after the launches [ls], in
    this order; the streams of the generator are as before. *)
Definition launches {A} (m : M A) (P : A -> Prop) (ls : list launch)
  : Prop :=
  forall w, exists a w',
    m w = Ok (a, w') /\ P a /\ trace w' = trace w ++ ls
    /\ uniform (gen w') = uniform (gen w)
    /\ normal (gen w') = normal (gen w).

(** What a selection returns: a parameter for each batch element and,
    when [debug_percentile] is given, the value [x d] for each of them. *)
Definition selected {A} (n : nat) (debug_percentile : option R)
  (x : R -> A) (v : list A) : Prop :=
  length v = n
  /\ forall d, debug_percentile = Some d -> v = repeat (x d) n.

(** A batch of [n] matrices of [r] rows each, or the identity object. *)
Definition batch_of (n r : nat) (g : tref) : Prop :=
  match g with
  | Eye => True
  | Fresh ms => length ms = n /\ Forall (fun m => length m = r) ms
  end.

End Outcome.

(* ------------------------------------------------------------------ *)
(** * Concrete inputs *)

Module Examples.

Import Tensor Eff Kernels Pipe Contract.

(** A configuration with the given probability multipliers and the default
    values of the other keyword arguments. *)
Definition switches
  (xflip rotate90 xint scale rotate aniso xfrac
   brightness contrast lumaflip hue saturation
   imgfilter noise cutout : R) : options := {|
  Pipe.xflip := xflip; Pipe.rotate90 := rotate90; Pipe.xint := xint;
  Pipe.xint_max := 0.125;
  Pipe.scale := scale; Pipe.rotate := rotate; Pipe.aniso := aniso;
  Pipe.xfrac := xfrac;
  Pipe.scale_std := 0.2; Pipe.rotate_max := 1; Pipe.aniso_std := 0.2;
  Pipe.xfrac_std := 0.125;
  Pipe.brightness := brightness; Pipe.contrast := contrast;
  Pipe.lumaflip := lumaflip; Pipe.hue := hue;
  Pipe.saturation := saturation;
  Pipe.brightness_std := 0.2; Pipe.contrast_std := 0.5; Pipe.hue_max := 1;
  Pipe.saturation_std := 1;
  Pipe.imgfilter := imgfilter; Pipe.imgfilter_bands := [1; 1; 1; 1];
  Pipe.imgfilter_std := 1;
  Pipe.noise := noise; Pipe.cutout := cutout;
  Pipe.noise_std := 0.1; Pipe.cutout_size := 0.5
|}.

Definition only_xflip : options := switches 1 0 0 0 0 0 0 0 0 0 0 0 0 0 0.
Definition only_rotate : options :=
  switches 0 0 0 0 (1 / 2) 0 0 0 0 0 0 0 0 0 0.
Definition blitting : options := switches 1 1 1 0 0 0 0 0 0 0 0 0 0 0 0.
Definition only_brightness : options :=
  switches 0 0 0 0 0 0 0 1 0 0 0 0 0 0 0.
Definition only_imgfilter : options :=
  switches 0 0 0 0 0 0 0 0 0 0 0 0 1 0 0.
Definition only_noise : options := switches 0 0 0 0 0 0 0 0 0 0 0 0 0 1 0.
Definition only_cutout : options := switches 0 0 0 0 0 0 0 0 0 0 0 0 0 0 1.
Definition double_xflip : options :=
  switches 2 0 0 0 0 0 0 0 0 0 0 0 0 0 0.

(** A pipeline built by the constructor with the shape-only kernels. *)
Definition pipe (o : options) : AugmentPipe := init shape_only unit_table o.

(** Two states of the generator: all the draws are 0; the uniform draws
    are 0 and the normal draws are 1. *)
Definition calm : world := mkworld (mkgen (fun _ => 0) (fun _ => 0) 0) [].
Definition lively : world := mkworld (mkgen (fun _ => 0) (fun _ => 1) 0) [].

(** The state [w] after [n] more draws. *)
Definition after (n : nat) (w : world) : world :=
  mkworld (advance (gen w) n) (trace w).

(** The flip enabled and the strength set to zero. *)
Definition idle_flip : AugmentPipe := set_p (pipe only_xflip) 0.

(** A batch of one image of one channel and one pixel, and batches of one
    image of one pixel with two and with three channels. *)
Definition pixel : tensor := Tensor.mk [1; 1; 1; 1]%nat [0].
Definition pixel2 : tensor := Tensor.mk [1; 2; 1; 1]%nat [0; 0].
Definition pixel3 : tensor := Tensor.mk [1; 3; 1; 1]%nat [0; 0; 0].

(** The configuration [o] with other band strengths, another standard
    deviation of the noise and another size of the cutout. *)
Definition magnitudes (o : options) (bands : list R)
  (noise_std cutout_size : R) : options := {|
  Pipe.xflip := xflip o; Pipe.rotate90 := rotate90 o; Pipe.xint := xint o;
  Pipe.xint_max := xint_max o;
  Pipe.scale := scale o; Pipe.rotate := rotate o; Pipe.aniso := aniso o;
  Pipe.xfrac := xfrac o;
  Pipe.scale_std := scale_std o; Pipe.rotate_max := rotate_max o;
  Pipe.aniso_std := aniso_std o; Pipe.xfrac_std := xfrac_std o;
  Pipe.brightness := brightness o; Pipe.contrast := contrast o;
  Pipe.lumaflip := lumaflip o; Pipe.hue := hue o;
  Pipe.saturation := saturation o;
  Pipe.brightness_std := brightness_std o;
  Pipe.contrast_std := contrast_std o; Pipe.hue_max := hue_max o;
  Pipe.saturation_std := saturation_std o;
  Pipe.imgfilter := imgfilter o; Pipe.imgfilter_bands := bands;
  Pipe.imgfilter_std := imgfilter_std o;
  Pipe.noise := noise o; Pipe.cutout := cutout o;
  Pipe.noise_std := noise_std; Pipe.cutout_size := cutout_size
|}.

(** The image filter with one band strength; the noise without deviation;
    the cutout without extent; the noise and the cutout together. *)
Definition one_band : options := magnitudes only_imgfilter [1] 0.1 0.5.
Definition flat_noise : options :=
  magnitudes only_noise [1; 1; 1; 1] 0 0.5.
Definition empty_cutout : options :=
  magnitudes only_cutout [1; 1; 1; 1] 0.1 0.
Definition noise_and_cutout : options :=
  switches 0 0 0 0 0 0 0 0 0 0 0 0 0 1 1.

(** An empty batch of images of one channel and one pixel. *)
Definition no_image : tensor := Tensor.mk [0; 1; 1; 1]%nat [].

(** The expected power of the four bands, as [forward] has it. *)
Definition pink : list R := map (fun x => x / 13) [10; 1; 1; 1].

End Examples.

(* ------------------------------------------------------------------ *)
(** * The wrapper of [diff_augm.py] *)

Module Wrapper.

Import Tensor Eff Kernels Pipe Forward.

(** The fields of [opt] that [augment_pipe.__init__] reads; the device
    has no counterpart here. *)
Record options := {
  use_kornia_augm : bool;
  prob_augm : R;
  no_masks : bool
}.

(** The object [augment_pipe]: its attribute [augment_func], a callable
    on batches. *)
Record augment_pipe := {
  augment_func : tensor -> M tensor
}.

(** [augment_pipe.__init__(opt)].  The class [AugmentPipe_kornia] is not
    in the source files: its constructor is the parameter
    [AugmentPipe_kornia], from [prob_augm] and [no_masks] to a callable.
    The other branch is [AugmentPipe()], called with a batch only. *)
Definition init (K : kernels) (wavelets : wavelet_table)
  (AugmentPipe_kornia : R -> bool -> tensor -> M tensor) (opt : options)
  : augment_pipe := {|
  augment_func :=
    if use_kornia_augm opt
    then AugmentPipe_kornia (prob_augm opt) (no_masks opt)
    else fun batch => forward K (Pipe.init K wavelets defaults) batch None
|}.

(** [augment_pipe.__call__(batch, real=True)]. *)
Definition call (self : augment_pipe) (batch : tensor) (real : bool)
  : M tensor :=
  augment_func self batch.

End Wrapper.

(* ------------------------------------------------------------------ *)
(** * Quantities that the properties speak about *)

Module Measures.

Import Mat Forward.

(** The sum of the coefficients of a filter. *)
Definition total (l : list R) : R := fold_right Rplus 0 l.

End Measures.

(* ================================================================== *)
(** * Properties *)

(* ------------------------------------------------------------------ *)
(** ** Scalars and matrices *)

Module ScalarFacts.

Import Scalar.

Lemma ltb_true (a b : R) : a < b -> ltb a b = true.
Proof. unfold ltb. destruct (Rlt_dec a b); intuition. Qed.

Lemma ltb_false (a b : R) : b <= a -> ltb a b = false.
Proof. unfold ltb. destruct (Rlt_dec a b); [lra | reflexivity]. Qed.

Lemma ltb_spec (a b : R) : ltb a b = true <-> a < b.
Proof.
  unfold ltb. destruct (Rlt_dec a b); split; intros; try easy.
Qed.

Lemma ltb_nlt (a b : R) : ltb a b = false <-> b <= a.
Proof.
  unfold ltb. destruct (Rlt_dec a b); split; intros; try easy; lra.
Qed.

Lemma geb_spec (a b : R) : geb a b = true <-> b <= a.
Proof.
  unfold geb. rewrite negb_true_iff. apply ltb_nlt.
Qed.

Lemma geb_false (a b : R) : geb a b = false <-> a < b.
Proof.
  unfold geb. rewrite negb_false_iff. apply ltb_spec.
Qed.

End ScalarFacts.

Module MatFacts.

Import Mat.

Lemma mul_I_3_l (m : mat) : is3x3 m -> mul I_3 m = m.
Proof.
  intros (a & b & c & d & e & f & g & h & i & ->).
  unfold mul, I_3, ncols, col, dot. simpl.
  repeat (f_equal; try ring).
Qed.

Lemma mul_I_3_r (m : mat) : is3x3 m -> mul m I_3 = m.
Proof.
  intros (a & b & c & d & e & f & g & h & i & ->).
  unfold mul, I_3, ncols, col, dot. simpl.
  repeat (f_equal; try ring).
Qed.

Lemma mul_is3x3 (a b : mat) : is3x3 a -> is3x3 b -> is3x3 (mul a b).
Proof.
  intros (a1 & a2 & a3 & a4 & a5 & a6 & a7 & a8 & a9 & ->)
         (b1 & b2 & b3 & b4 & b5 & b6 & b7 & b8 & b9 & ->).
  unfold mul, ncols, col, dot. simpl. unfold is3x3. do 9 eexists. reflexivity.
Qed.

End MatFacts.

(* ------------------------------------------------------------------ *)
(** ** The identity property *)

Module Identity.

Import Scalar Mat Tensor Eff Kernels Pipe Select Forward Config.

Lemma positive_zero : positive 0 = false.
Proof. apply ScalarFacts.ltb_false. lra. Qed.

Lemma positive_nonpos (x : R) : x <= 0 -> positive x = false.
Proof. intro H. apply ScalarFacts.ltb_false. exact H. Qed.

Lemma positive_pos (x : R) : 0 < x -> positive x = true.
Proof. intro H. apply ScalarFacts.ltb_true. exact H. Qed.

(** When no multiplier passes the test [> 0], no block of [forward] is
    entered. *)
Lemma forward_idle
  (K : kernels) (self : AugmentPipe) (images : tensor)
  (debug_percentile : option R) (w : world) :
  length (shape images) = 4%nat ->
  none_positive (multipliers (opt self)) ->
  forward K self images debug_percentile w = Ok (images, w).
Proof.
  intros Hrank Hzero.
  destruct (shape images) as [|n [|c [|h [|wd [|]]]]] eqn:Hs;
    try discriminate Hrank.
  unfold none_positive, multipliers, geometric_multipliers,
    color_multipliers in Hzero.
  simpl in Hzero.
  repeat match goal with
         | H : Forall _ (_ :: _) |- _ => inversion_clear H
         end.
  unfold forward. rewrite Hs.
  unfold geometric_stage, accumulate_G, apply_xflip, apply_rotate90,
    apply_xint, apply_scale, apply_rotate_pre, apply_aniso,
    apply_rotate_post, apply_xfrac.
  unfold color_stage, accumulate_C, apply_brightness, apply_contrast,
    apply_lumaflip, apply_hue, apply_saturation.
  unfold corruption_stage.
  repeat match goal with
         | H : _ <= 0 |- _ => rewrite (positive_nonpos _ H); clear H
         end.
  reflexivity.
Qed.

Lemma all_zero_none_positive (l : list R) : all_zero l -> none_positive l.
Proof.
  unfold all_zero, none_positive. apply Forall_impl. intros q ->. lra.
Qed.

(** C1. With every probability multiplier equal to zero (the seven
    geometric ones, the five colour ones, and those of the image filter,
    the noise and the cutout), [forward] returns the very batch it was
    given, for every batch of rank 4, every strength and every value of
    [debug_percentile]: no block is entered, [G_inv] and [C] stay the
    identity objects and no executor runs.  Neither a random number is
    drawn nor a kernel launched. *)
Theorem forward_all_zero_is_identity
  (K : kernels) (self : AugmentPipe) (images : tensor)
  (debug_percentile : option R) (w : world) :
  length (shape images) = 4%nat ->
  all_zero (multipliers (opt self)) ->
  forward K self images debug_percentile w = Ok (images, w).
Proof.
  intros Hrank Hzero. apply forward_idle; [exact Hrank|].
  apply all_zero_none_positive. exact Hzero.
Qed.

End Identity.

(* ------------------------------------------------------------------ *)
(** ** The random switches *)

Module Gates.

Import Scalar Mat Tensor Eff Kernels Builders Pipe Select Forward Config.
Import Chance ScalarFacts MatFacts.
Local Open Scope eff_scope.

Lemma where_lt_fires {A} (us : list R) (thr : R) :
  Forall (fun u => u < thr) us ->
  forall v ident : list A,
  length v = length us -> length ident = length us ->
  where_lt us thr v ident = v.
Proof.
  unfold where_lt.
  induction 1 as [|u us Hu _ IH]; intros v ident Hv Hi.
  - destruct v; [reflexivity | discriminate].
  - destruct v as [|a v]; [discriminate|].
    destruct ident as [|b ident]; [discriminate|].
    simpl. rewrite (ltb_true _ _ Hu). f_equal.
    apply IH; simpl in *; congruence.
Qed.

Lemma where_lt_idle {A} (us : list R) (thr : R) :
  Forall (fun u => thr <= u) us ->
  forall v ident : list A,
  length v = length us -> length ident = length us ->
  where_lt us thr v ident = ident.
Proof.
  unfold where_lt.
  induction 1 as [|u us Hu _ IH]; intros v ident Hv Hi.
  - destruct ident; [reflexivity | discriminate].
  - destruct v as [|a v]; [discriminate|].
    destruct ident as [|b ident]; [discriminate|].
    simpl. rewrite (ltb_false _ _ Hu). f_equal.
    apply IH; simpl in *; congruence.
Qed.

Lemma draws_length (f : nat -> R) (from n : nat) :
  length (draws f from n) = n.
Proof. unfold draws. rewrite length_map, length_seq. reflexivity. Qed.

Lemma draws_Forall (P : R -> Prop) (f : nat -> R) (from n : nat) :
  (forall i, P (f i)) -> Forall P (draws f from n).
Proof.
  intro H. unfold draws. apply Forall_forall. intros x Hx.
  apply in_map_iff in Hx. destruct Hx as (i & <- & _). apply H.
Qed.

Lemma clamp_below (x : R) : x <= 0 -> clamp x 0 1 = 0.
Proof.
  intro H. unfold clamp.
  rewrite (Rmax_right x 0) by exact H.
  apply Rmin_left. lra.
Qed.

Lemma clamp_inside (x : R) : 0 <= x <= 1 -> clamp x 0 1 = x.
Proof.
  intro H. unfold clamp.
  rewrite (Rmax_left x 0) by lra.
  apply Rmin_left. lra.
Qed.

Lemma clamp_above (x : R) : 1 <= x -> clamp x 0 1 = 1.
Proof.
  intro H. unfold clamp.
  rewrite (Rmax_left x 0) by lra.
  apply Rmin_right. lra.
Qed.

(** A switch whose configured probability exceeds one compares the draw
    with a threshold that is at least one. *)
Lemma threshold_saturated (self : AugmentPipe) (g : gate) :
  1 < configured self g -> 1 <= threshold self g.
Proof.
  destruct g; simpl; intro H; try lra.
  - unfold p_rot. rewrite clamp_below by lra. rewrite sqrt_0. lra.
  - unfold p_rot. rewrite clamp_below by lra. rewrite sqrt_0. lra.
Qed.

(** The event "the switch fires" is the interval from 0 to [fires t]. *)
Lemma fires_is_length (t u : R) :
  0 <= u < 1 -> (ltb u t = true <-> u < fires t).
Proof.
  intro Hu. rewrite ltb_spec. unfold fires.
  destruct (Rle_dec t 0) as [H0|H0].
  - rewrite clamp_below by exact H0. lra.
  - destruct (Rle_dec 1 t) as [H1|H1].
    + rewrite clamp_above by exact H1. lra.
    + rewrite clamp_inside by lra. lra.
Qed.

Lemma ltb_grid (m i k : nat) :
  (0 < m)%nat ->
  ltb (INR i / INR m) (INR k / INR m) = (i <? k)%nat.
Proof.
  intro Hm.
  assert (Hpos : 0 < INR m) by (apply lt_0_INR; exact Hm).
  destruct (Nat.ltb_spec i k) as [H|H].
  - apply ltb_true. apply Rmult_lt_compat_r.
    + apply Rinv_0_lt_compat. exact Hpos.
    + apply lt_INR. exact H.
  - apply ltb_false. apply Rmult_le_compat_r.
    + apply Rlt_le. apply Rinv_0_lt_compat. exact Hpos.
    + apply le_INR. exact H.
Qed.

Lemma count_below_seq (k m : nat) :
  (k <= m)%nat ->
  length (filter (fun i => (i <? k)%nat) (seq 0 m)) = k.
Proof.
  intro H. replace m with (k + (m - k))%nat by lia.
  rewrite seq_app, filter_app, length_app. simpl.
  rewrite (filter_ext_in _ (fun _ => true)), filter_true.
  - rewrite (filter_ext_in _ (fun _ => false)), filter_false.
    + rewrite length_seq. simpl. lia.
    + intros i Hi. apply in_seq in Hi. apply Nat.ltb_ge. lia.
  - intros i Hi. apply in_seq in Hi. apply Nat.ltb_lt. lia.
Qed.

(** On the grid, a switch of threshold [k / m] fires for [k] of the [m]
    values. *)
Lemma count_below (k m : nat) :
  (0 < m)%nat -> (k <= m)%nat ->
  length (filter (fun u => ltb u (INR k / INR m)) (grid m)) = k.
Proof.
  intros Hm Hk. unfold grid.
  rewrite filter_map_swap, length_map.
  rewrite (filter_ext _ (fun i => (i <? k)%nat)).
  - apply count_below_seq. exact Hk.
  - intro i. apply ltb_grid. exact Hm.
Qed.

Lemma filter_prod_length {A B} (f : A -> bool) (g : B -> bool)
  (la : list A) (lb : list B) :
  length (filter (fun u => f (fst u) && g (snd u)) (list_prod la lb))
  = (length (filter f la) * length (filter g lb))%nat.
Proof.
  induction la as [|a la IH]; simpl; [reflexivity|].
  rewrite filter_app, length_app, IH, filter_map_swap, length_map. simpl.
  destruct (f a); simpl.
  - reflexivity.
  - rewrite filter_false. reflexivity.
Qed.

(** The probability [either] counts pairs of draws: on the grid of step
    [1 / m], for thresholds on the grid, the pairs of independent draws
    for which at least one switch fires are the fraction [either a b] of
    the [m * m] pairs. *)
Lemma either_counts_pairs (m ka kb : nat) :
  (0 < m)%nat -> (ka <= m)%nat -> (kb <= m)%nat ->
  INR (length (fired m (INR ka / INR m) (INR kb / INR m))) / INR (m * m)
  = either (INR ka / INR m) (INR kb / INR m).
Proof.
  intros Hm Ha Hb.
  assert (Hpos : 0 < INR m) by (apply lt_0_INR; exact Hm).
  set (a := INR ka / INR m). set (b := INR kb / INR m).
  assert (Hgrid : length (grid m) = m)
    by (unfold grid; rewrite length_map, length_seq; reflexivity).
  assert (Hnot : forall k, (k <= m)%nat ->
            length (filter (fun u => negb (ltb u (INR k / INR m))) (grid m))
            = (m - k)%nat).
  { intros k Hk.
    pose proof (filter_length (fun u => ltb u (INR k / INR m)) (grid m)) as L.
    rewrite (count_below k m Hm Hk), Hgrid in L. lia. }
  assert (Hcount : (length (fired m a b) + (m - ka) * (m - kb) = m * m)%nat).
  { pose proof (filter_length
                  (fun u : R * R => ltb (fst u) a || ltb (snd u) b)
                  (list_prod (grid m) (grid m))) as L.
    rewrite length_prod, Hgrid in L.
    rewrite (filter_ext
               (fun u : R * R => negb (ltb (fst u) a || ltb (snd u) b))
               (fun u : R * R =>
                  negb (ltb (fst u) a) && negb (ltb (snd u) b))) in L
      by (intro u; apply negb_orb).
    rewrite (filter_prod_length (fun x => negb (ltb x a))
               (fun y => negb (ltb y b))) in L.
    unfold a, b in L. rewrite (Hnot ka Ha), (Hnot kb Hb) in L.
    exact L. }
  apply (f_equal INR) in Hcount.
  rewrite plus_INR, !mult_INR, !minus_INR in Hcount by assumption.
  assert (Hfa : fires a = a).
  { unfold fires. apply clamp_inside. unfold a. split.
    - apply Rmult_le_pos; [apply pos_INR|].
      apply Rlt_le, Rinv_0_lt_compat. exact Hpos.
    - apply (Rmult_le_reg_r (INR m)); [exact Hpos|].
      unfold Rdiv. rewrite Rmult_assoc, Rinv_l, Rmult_1_r, Rmult_1_l by lra.
      apply le_INR. exact Ha. }
  assert (Hfb : fires b = b).
  { unfold fires. apply clamp_inside. unfold b. split.
    - apply Rmult_le_pos; [apply pos_INR|].
      apply Rlt_le, Rinv_0_lt_compat. exact Hpos.
    - apply (Rmult_le_reg_r (INR m)); [exact Hpos|].
      unfold Rdiv. rewrite Rmult_assoc, Rinv_l, Rmult_1_r, Rmult_1_l by lra.
      apply le_INR. exact Hb. }
  unfold either. rewrite Hfa, Hfb, mult_INR.
  replace (INR (length (fired m a b)))
    with (INR m * INR m - (INR m - INR ka) * (INR m - INR kb)) by lra.
  unfold a, b. field. lra.
Qed.


(** The elements of an initial segment that satisfy a predicate closed
    downwards form an initial segment. *)
Lemma filter_initial (f : nat -> bool) (m : nat) :
  (forall i j, (j <= i)%nat -> f i = true -> f j = true) ->
  exists c, (c <= m)%nat /\ filter f (seq 0 m) = seq 0 c
            /\ (forall i, (i < c)%nat -> f i = true)
            /\ ((c < m)%nat -> f c = false).
Proof.
  intro Hdown. induction m as [|m (c & Hc & Hf & Ht & Hn)].
  - exists 0%nat. repeat split; try reflexivity; intros; lia.
  - rewrite seq_S, filter_app, Hf. simpl.
    destruct (f m) eqn:Em.
    + assert (c = m).
      { destruct (Nat.eq_dec c m) as [E|E]; [exact E|].
        assert (Hlt : (c < m)%nat) by lia.
        rewrite (Hdown m c) in Hn by (try lia; exact Em).
        specialize (Hn Hlt). discriminate. }
      subst c. exists (S m). rewrite seq_S. repeat split; try lia.
      intros i Hi. apply (Hdown m); [lia | exact Em].
    + exists c. rewrite app_nil_r. repeat split; try lia; try assumption.
      intro Hlt. destruct (Nat.eq_dec c m) as [->|E]; [exact Em|].
      apply Hn. lia.
Qed.

Lemma fires_range (t : R) : 0 <= fires t <= 1.
Proof.
  unfold fires, clamp. split.
  - apply Rmin_glb; [apply Rmax_r | lra].
  - apply Rmin_r.
Qed.

Lemma fires_above (t x : R) : x < t -> x < 1 -> x < fires t \/ fires t = 1.
Proof.
  intros Ht H1. unfold fires, clamp.
  destruct (Rle_dec (Rmax t 0) 1) as [H|H].
  - left. rewrite Rmin_left by exact H.
    apply Rlt_le_trans with t; [exact Ht | apply Rmax_l].
  - right. apply Rmin_right. lra.
Qed.

(** On the grid of step [1 / m], a switch of threshold [t] fires for a
    fraction of the values that lies between [fires t] and
    [fires t + 1 / m]. *)
Lemma count_bounds (t : R) (m : nat) :
  (0 < m)%nat ->
  let c := length (filter (fun u => ltb u t) (grid m)) in
  (c <= m)%nat
  /\ fires t <= INR c / INR m <= fires t + 1 / INR m.
Proof.
  intros Hm c.
  assert (Hpos : 0 < INR m) by (apply lt_0_INR; exact Hm).
  destruct (filter_initial (fun i => ltb (INR i / INR m) t) m)
    as (k & Hk & Hf & Ht & Hn).
  { intros i j Hji Hi. apply ltb_spec in Hi. apply ltb_spec.
    apply Rle_lt_trans with (INR i / INR m); [|exact Hi].
    apply Rmult_le_compat_r; [apply Rlt_le, Rinv_0_lt_compat; exact Hpos|].
    apply le_INR. exact Hji. }
  assert (Ec : c = k).
  { unfold c, grid. rewrite filter_map_swap, length_map, Hf, length_seq.
    reflexivity. }
  rewrite Ec. split; [exact Hk|].
  pose proof (fires_range t) as (F0 & F1).
  assert (Hkm : INR k / INR m <= 1).
  { apply (Rmult_le_reg_r (INR m)); [exact Hpos|].
    unfold Rdiv. rewrite Rmult_assoc, Rinv_l, Rmult_1_r, Rmult_1_l by lra.
    apply le_INR. exact Hk. }
  assert (Hk0 : 0 <= INR k / INR m).
  { apply Rmult_le_pos; [apply pos_INR|].
    apply Rlt_le, Rinv_0_lt_compat. exact Hpos. }
  split.
  - destruct (Nat.eq_dec k m) as [->|Hne].
    + unfold Rdiv. rewrite Rinv_r by lra. exact F1.
    + assert (Hlt : (k < m)%nat) by lia.
      specialize (Hn Hlt). apply ltb_nlt in Hn.
      unfold fires, clamp.
      apply Rle_trans with (Rmax t 0); [apply Rmin_l|].
      apply Rmax_lub; assumption.
  - destruct k as [|k].
    + simpl. unfold Rdiv at 1. rewrite Rmult_0_l.
      assert (0 < 1 / INR m) by (apply Rdiv_lt_0_compat; lra). lra.
    + assert (Hi : ltb (INR k / INR m) t = true) by (apply Ht; lia).
      apply ltb_spec in Hi.
      rewrite S_INR in *.
      assert (Hlt1 : INR k / INR m < 1).
      { unfold Rdiv in *. 
        assert (0 < / INR m) by (apply Rinv_0_lt_compat; exact Hpos).
        nra. }
      replace ((INR k + 1) / INR m) with (INR k / INR m + 1 / INR m)
        by (field; lra).
      destruct (fires_above t _ Hi Hlt1) as [H|H]; lra.
Qed.


(** The pairs of independent draws on the grid for which at least one
    switch fires, from the numbers of values for which each fires. *)
Lemma fired_count (m : nat) (a b : R) :
  let ca := length (filter (fun u => ltb u a) (grid m)) in
  let cb := length (filter (fun u => ltb u b) (grid m)) in
  (length (fired m a b) + (m - ca) * (m - cb) = m * m)%nat.
Proof.
  intros ca cb.
  assert (Hgrid : length (grid m) = m)
    by (unfold grid; rewrite length_map, length_seq; reflexivity).
  pose proof (filter_length (fun u => ltb u a) (grid m)) as La.
  pose proof (filter_length (fun u => ltb u b) (grid m)) as Lb.
  rewrite Hgrid in La, Lb. fold ca in La. fold cb in Lb.
  pose proof (filter_length
                (fun u : R * R => ltb (fst u) a || ltb (snd u) b)
                (list_prod (grid m) (grid m))) as L.
  rewrite length_prod, Hgrid in L.
  rewrite (filter_ext
             (fun u : R * R => negb (ltb (fst u) a || ltb (snd u) b))
             (fun u : R * R =>
                negb (ltb (fst u) a) && negb (ltb (snd u) b))) in L
    by (intro u; apply negb_orb).
  rewrite (filter_prod_length (fun x => negb (ltb x a))
             (fun y => negb (ltb y b))) in L.
  unfold fired.
  replace (m - ca)%nat
    with (length (filter (fun x => negb (ltb x a)) (grid m))) by lia.
  replace (m - cb)%nat
    with (length (filter (fun x => negb (ltb x b)) (grid m))) by lia.
  exact L.
Qed.

(** The fraction of the pairs of draws on the grid of step [1 / m] for
    which at least one of two switches fires lies between [either a b]
    and [either a b + 2 / m]: it tends to [either a b] as the grid is
    refined. *)
Lemma fired_fraction_bounds (m : nat) (a b : R) :
  (0 < m)%nat ->
  either a b
  <= INR (length (fired m a b)) / INR (m * m)
  <= either a b + 2 / INR m.
Proof.
  intro Hm.
  assert (Hpos : 0 < INR m) by (apply lt_0_INR; exact Hm).
  destruct (count_bounds a m Hm) as (Ha & La & Ua).
  destruct (count_bounds b m Hm) as (Hb & Lb & Ub).
  pose proof (fired_count m a b) as Hc. cbv zeta in Hc.
  set (ca := length (filter (fun u => ltb u a) (grid m))) in *.
  set (cb := length (filter (fun u => ltb u b) (grid m))) in *.
  apply (f_equal INR) in Hc.
  rewrite plus_INR, !mult_INR, !minus_INR in Hc by assumption.
  pose proof (fires_range a) as (Fa0 & Fa1).
  pose proof (fires_range b) as (Fb0 & Fb1).
  set (x := INR ca / INR m) in *. set (y := INR cb / INR m) in *.
  assert (Hx : INR ca = x * INR m) by (unfold x; field; lra).
  assert (Hy : INR cb = y * INR m) by (unfold y; field; lra).
  assert (Hx1 : x <= 1).
  { unfold x. apply (Rmult_le_reg_r (INR m)); [exact Hpos|].
    unfold Rdiv. rewrite Rmult_assoc, Rinv_l, Rmult_1_r, Rmult_1_l by lra.
    apply le_INR. exact Ha. }
  assert (Hy1 : y <= 1).
  { unfold y. apply (Rmult_le_reg_r (INR m)); [exact Hpos|].
    unfold Rdiv. rewrite Rmult_assoc, Rinv_l, Rmult_1_r, Rmult_1_l by lra.
    apply le_INR. exact Hb. }
  assert (Hfrac : INR (length (fired m a b)) / INR (m * m)
                  = 1 - (1 - x) * (1 - y)).
  { rewrite mult_INR.
    replace (INR (length (fired m a b)))
      with (INR m * INR m - (INR m - INR ca) * (INR m - INR cb)) by lra.
    rewrite Hx, Hy. field. lra. }
  rewrite Hfrac. unfold either.
  set (e := 1 / INR m) in *.
  assert (He : 0 < e) by (apply Rdiv_lt_0_compat; lra).
  replace (2 / INR m) with (2 * e) by (unfold e; field; lra).
  split; nra.
Qed.


Lemma cos_one_zero (x : R) : - PI <= x < PI -> cos x = 1 -> x = 0.
Proof.
  intros (Hlo & Hhi) Hc. pose proof PI_RGT_0 as Hpi.
  destruct (Rtotal_order x 0) as [Hneg | [Hz | Hposx]]; [|exact Hz|].
  - pose proof (cos_decreasing_1 0 (- x)) as H.
    rewrite cos_neg, cos_0, Hc in H. lapply H; [|lra]. intro H1.
    lapply H1; [|lra]. intro H2. lapply H2; [|lra]. intro H3.
    lapply H3; [|lra]. intro H4. lapply H4; [|lra]. lra.
  - pose proof (cos_decreasing_1 0 x) as H.
    rewrite cos_0, Hc in H. lapply H; [|lra]. intro H1.
    lapply H1; [|lra]. intro H2. lapply H2; [|lra]. intro H3.
    lapply H3; [|lra]. intro H4. lapply H4; [|lra]. lra.
Qed.

Lemma rotate2d_is3x3 (theta : R) : is3x3 (rotate2d theta).
Proof. unfold is3x3, rotate2d. do 9 eexists. reflexivity. Qed.

(** The matrix of a rotation stage is the identity exactly when the
    selected angle, between minus a half turn and a half turn, is zero. *)
Lemma rotation_is_identity (x : R) :
  - PI <= x < PI ->
  is_identity (Fresh [mul I_3 (rotate2d_inv (- x))])
  = if Req_dec_T x 0 then true else false.
Proof.
  intro Hx. unfold is_identity, rotate2d_inv. cbn [forallb].
  rewrite mul_I_3_l by apply rotate2d_is3x3.
  rewrite Ropp_involutive, andb_true_r.
  destruct (Req_dec_T x 0) as [->|Hne].
  - unfold rotate2d. rewrite Ropp_0, cos_0, sin_0.
    destruct (list_eq_dec _ _ _) as [_|Hn]; [reflexivity|].
    exfalso. apply Hn. reflexivity.
  - destruct (list_eq_dec _ _ _) as [E|_]; [|reflexivity].
    exfalso. apply Hne. apply cos_one_zero; [exact Hx|].
    unfold rotate2d, I_3 in E. injection E as E _. exact E.
Qed.

Section Split.

Variable self : AugmentPipe.

Let qp := rotate (opt self) * p self.
Let angle (x : R) := (x * 2 - 1) * PI * rotate_max (opt self).

Hypothesis in_range : 0 <= qp <= 1.

Lemma p_rot_split : p_rot self = 1 - sqrt (1 - qp).
Proof. unfold p_rot. fold qp. rewrite clamp_inside by lra. reflexivity. Qed.

Hypothesis entered : 0 < rotate (opt self).

(** The two rotation stages: each draws its angles, then its own uniform
    numbers for the switch, and multiplies [G_inv] by the rotations. *)
Lemma apply_rotate_pre_runs (N : nat) (G : tref) (w : world) :
  apply_rotate_pre self None N G w
  = Ok (matmul_r I_3 G
          (map (fun theta => rotate2d_inv (- theta))
             (where_lt
                (draws (uniform (gen w)) (cursor (gen w) + N) N)
                (1 - sqrt (1 - qp))
                (map angle (draws (uniform (gen w)) (cursor (gen w)) N))
                (zeros_like
                   (map angle
                      (draws (uniform (gen w)) (cursor (gen w)) N))))),
        mkworld (advance (advance (gen w) N) N) (trace w)).
Proof.
  unfold apply_rotate_pre. rewrite (Identity.positive_pos _ entered).
  unfold select_rotate_pre, gated, bind, rand, ret, debug_override.
  cbn [threshold]. rewrite p_rot_split. reflexivity.
Qed.

Lemma apply_rotate_post_runs (N : nat) (G : tref) (w : world) :
  apply_rotate_post self None N G w
  = Ok (matmul_r I_3 G
          (map (fun theta => rotate2d_inv (- theta))
             (where_lt
                (draws (uniform (gen w)) (cursor (gen w) + N) N)
                (1 - sqrt (1 - qp))
                (map angle (draws (uniform (gen w)) (cursor (gen w)) N))
                (zeros_like
                   (map angle
                      (draws (uniform (gen w)) (cursor (gen w)) N))))),
        mkworld (advance (advance (gen w) N) N) (trace w)).
Proof.
  unfold apply_rotate_post. rewrite (Identity.positive_pos _ entered).
  unfold select_rotate_post, gated, bind, rand, ret.
  cbn [threshold]. rewrite p_rot_split. reflexivity.
Qed.

Hypothesis half_turn : 0 < rotate_max (opt self) <= 1.

Lemma angle_range (a : R) : 0 <= a < 1 -> - PI <= angle a < PI.
Proof.
  intro Ha. unfold angle. pose proof PI_RGT_0 as Hpi.
  set (r := rotate_max (opt self)) in *.
  assert (H1 : - PI <= (a * 2 - 1) * PI < PI) by nra.
  split; nra.
Qed.

Lemma angle_nonzero (a : R) : a <> 1 / 2 -> angle a <> 0.
Proof.
  intros Ha E. unfold angle in E. pose proof PI_RGT_0 as Hpi.
  apply Rmult_integral in E. destruct E as [E|E]; [|lra].
  apply Rmult_integral in E. destruct E as [E|E]; lra.
Qed.

(** One stage applies a rotation exactly when its switch fires. *)
Lemma stage_applies (a u : R) :
  0 <= a < 1 -> a <> 1 / 2 ->
  negb (is_identity
          (Fresh [mul I_3
                    (rotate2d_inv
                       (- (if ltb u (1 - sqrt (1 - qp)) then angle a
                           else 0)))]))
  = ltb u (1 - sqrt (1 - qp)).
Proof.
  intros Ha Hne. pose proof PI_RGT_0 as Hpi.
  destruct (ltb u (1 - sqrt (1 - qp))).
  - rewrite rotation_is_identity by (apply angle_range; exact Ha).
    destruct (Req_dec_T (angle a) 0) as [E|_]; [|reflexivity].
    exfalso. apply (angle_nonzero a Hne E).
  - rewrite rotation_is_identity by lra.
    destruct (Req_dec_T 0 0) as [_|E]; [reflexivity|].
    exfalso. apply E. reflexivity.
Qed.

(** At least one of the two stages applies a rotation exactly when at
    least one of the two switches fires, each on its own draw. *)
Lemma rotation_applied_when_fired (a1 u a2 v : R) :
  0 <= a1 < 1 -> a1 <> 1 / 2 -> 0 <= a2 < 1 -> a2 <> 1 / 2 ->
  rotation_applied self a1 u a2 v
  = ltb u (1 - sqrt (1 - qp)) || ltb v (1 - sqrt (1 - qp)).
Proof.
  intros Ha1 Hn1 Ha2 Hn2. unfold rotation_applied.
  unfold bind at 1. rewrite apply_rotate_pre_runs.
  unfold bind at 1. rewrite apply_rotate_post_runs.
  unfold ret, replay, draws, where_lt, zeros_like, matmul_r.
  cbn [gen uniform cursor advance trace seq map combine nth Nat.add
       fst snd].
  fold (angle a1). fold (angle a2).
  rewrite (stage_applies a1 u Ha1 Hn1), (stage_applies a2 v Ha2 Hn2).
  reflexivity.
Qed.

Lemma rotation_rate_bounds (a1 a2 : R) (m : nat) :
  0 <= a1 < 1 -> a1 <> 1 / 2 -> 0 <= a2 < 1 -> a2 <> 1 / 2 ->
  (0 < m)%nat ->
  qp <= rotation_rate self a1 a2 m <= qp + 2 / INR m.
Proof.
  intros Ha1 Hn1 Ha2 Hn2 Hm. unfold rotation_rate.
  rewrite (filter_ext _
             (fun uv : R * R => ltb (fst uv) (1 - sqrt (1 - qp))
                                || ltb (snd uv) (1 - sqrt (1 - qp))))
    by (intros (u & v); apply rotation_applied_when_fired; assumption).
  change (filter _ (list_prod (grid m) (grid m)))
    with (fired m (1 - sqrt (1 - qp)) (1 - sqrt (1 - qp))).
  pose proof (fired_fraction_bounds m (1 - sqrt (1 - qp))
                (1 - sqrt (1 - qp)) Hm) as H.
  assert (He : either (1 - sqrt (1 - qp)) (1 - sqrt (1 - qp)) = qp).
  { assert (Hs0 : 0 <= sqrt (1 - qp)) by apply sqrt_pos.
    assert (Hs1 : sqrt (1 - qp) <= 1).
    { pose proof (sqrt_le_1_alt (1 - qp) 1) as H1. rewrite sqrt_1 in H1.
      apply H1. lra. }
    assert (Hss : sqrt (1 - qp) * sqrt (1 - qp) = 1 - qp)
      by (apply sqrt_sqrt; lra).
    unfold either, fires. rewrite clamp_inside by lra. lra. }
  rewrite He in H. exact H.
Qed.

End Split.


End Gates.

(* ------------------------------------------------------------------ *)
(** ** Reasoning about computations *)

Module Run.

Import Scalar Mat Tensor Eff Kernels Pipe Select Forward Config Outcome.
Local Open Scope eff_scope.

Lemma yields_ret {A} (a : A) (P : A -> Prop) : P a -> yields (ret a) P.
Proof. intros H w. exists a, w. repeat split; try reflexivity. exact H. Qed.

Lemma yields_bind {A B} (m : M A) (k : A -> M B) (P : A -> Prop)
  (Q : B -> Prop) :
  yields m P -> (forall a, P a -> yields (k a) Q) -> yields (bind m k) Q.
Proof.
  intros Hm Hk w.
  destruct (Hm w) as (a & w1 & E1 & Pa & T1 & U1 & N1).
  destruct (Hk a Pa w1) as (b & w2 & E2 & Qb & T2 & U2 & N2).
  exists b, w2. unfold bind. rewrite E1.
  repeat split; try assumption; congruence.
Qed.

Lemma yields_weaken {A} (m : M A) (P Q : A -> Prop) :
  yields m P -> (forall a, P a -> Q a) -> yields m Q.
Proof.
  intros Hm HPQ w.
  destruct (Hm w) as (a & w1 & E1 & Pa & T).
  exists a, w1. repeat split; try tauto. auto.
Qed.

Lemma yields_rand (n : nat) : yields (rand n) (fun v => length v = n).
Proof.
  intro w. unfold rand. do 2 eexists.
  repeat split. apply Gates.draws_length.
Qed.

Lemma yields_randn (n : nat) : yields (randn n) (fun v => length v = n).
Proof.
  intro w. unfold randn. do 2 eexists.
  repeat split. apply Gates.draws_length.
Qed.

Lemma rows2_length (l : list R) (n : nat) :
  length l = (2 * n)%nat -> length (rows2 l) = n.
Proof.
  revert l. induction n as [|n IH]; intros l H.
  - destruct l; [reflexivity | discriminate].
  - destruct l as [|a [|b l]]; simpl in H; try lia.
    simpl. f_equal. apply IH. lia.
Qed.

Lemma yields_rand2 (n : nat) : yields (rand2 n) (fun v => length v = n).
Proof.
  unfold rand2. eapply yields_bind; [apply yields_rand|].
  intros l Hl. apply yields_ret. apply rows2_length. exact Hl.
Qed.

Lemma yields_randn2 (n : nat) : yields (randn2 n) (fun v => length v = n).
Proof.
  unfold randn2. eapply yields_bind; [apply yields_randn|].
  intros l Hl. apply yields_ret. apply rows2_length. exact Hl.
Qed.

Lemma where_lt_length {A} (u : list R) (thr : R) (a b : list A) (n : nat) :
  length u = n -> length a = n -> length b = n ->
  length (where_lt u thr a b) = n.
Proof.
  intros Hu Ha Hb. unfold where_lt.
  rewrite length_map, !length_combine. lia.
Qed.

Lemma yields_gated {A} (self : AugmentPipe) (g : gate) (n : nat)
  (v ident : list A) :
  length v = n -> length ident = n ->
  yields (gated self g n v ident) (fun r => length r = n).
Proof.
  intros Hv Hi. unfold gated.
  eapply yields_bind; [apply yields_rand|].
  intros u Hu. apply yields_ret. apply where_lt_length; assumption.
Qed.

Lemma full_like_repeat {A B} (v : list A) (x : B) :
  full_like v x = repeat x (length v).
Proof.
  unfold full_like. induction v; simpl; congruence.
Qed.

Lemma full_like_length {A B} (v : list A) (x : B) :
  length (full_like v x) = length v.
Proof. unfold full_like. apply length_map. Qed.

Lemma zeros_like_length (v : list R) : length (zeros_like v) = length v.
Proof. unfold zeros_like. apply length_map. Qed.

Lemma ones_like_length (v : list R) : length (ones_like v) = length v.
Proof. unfold ones_like. apply length_map. Qed.

Lemma debug_override_length {A} (d : option R) (v : list A) (f : R -> A) :
  length (debug_override d v f) = length v.
Proof. destruct d; simpl; [apply full_like_length | reflexivity]. Qed.

Lemma selected_override {A} (n : nat) (dbg : option R) (x : R -> A)
  (v : list A) :
  length v = n -> selected n dbg x (debug_override dbg v x).
Proof.
  intro H. split.
  - rewrite debug_override_length. exact H.
  - intros d ->. simpl. rewrite full_like_repeat. congruence.
Qed.

(** The common shape of the selections: a draw of magnitudes, the
    switch, the override by [debug_percentile]. *)
Lemma yields_selection {A B} (self : AugmentPipe) (g : gate) (n : nat)
  (dbg : option R) (sample : M (list B)) (f : list B -> list A)
  (ident : list A -> list A) (x : R -> A) :
  yields sample (fun r => length r = n) ->
  (forall r, length r = n -> length (f r) = n) ->
  (forall v, length (ident v) = length v) ->
  yields (r <- sample ;;
          v <- gated self g n (f r) (ident (f r)) ;;
          ret (debug_override dbg v x))
         (selected n dbg x).
Proof.
  intros Hs Hf Hi.
  eapply yields_bind; [exact Hs|]. intros r Hr. simpl.
  eapply yields_bind.
  - apply yields_gated; [auto | rewrite Hi; auto].
  - intros v Hv. apply yields_ret. apply selected_override. exact Hv.
Qed.

End Run.

(* ------------------------------------------------------------------ *)
(** ** The selections return one parameter for each batch element *)

Module Selections.

Import Scalar Mat Tensor Eff Kernels Pipe Select Forward Config Run Outcome.
Local Open Scope eff_scope.

Section Selected.

Variable K : kernels.
Variable self : AugmentPipe.
Variable n : nat.
Variable dbg : option R.

Let o := opt self.

Lemma map_length_eq {A B} (f : A -> B) (r : list A) :
  length r = n -> length (map f r) = n.
Proof. intro H. rewrite length_map. exact H. Qed.

Lemma select_xflip_selected :
  yields (select_xflip self n dbg) (selected n dbg (fun d => floor (d * 2))).
Proof.
  apply (yields_selection self G_xflip n dbg (rand n)
           (map (fun x => floor (x * 2))) zeros_like).
  - apply yields_rand.
  - intros r. apply map_length_eq.
  - apply zeros_like_length.
Qed.

Lemma select_rotate90_selected :
  yields (select_rotate90 self n dbg)
         (selected n dbg (fun d => floor (d * 4))).
Proof.
  apply (yields_selection self G_rotate90 n dbg (rand n)
           (map (fun x => floor (x * 4))) zeros_like).
  - apply yields_rand.
  - intros r. apply map_length_eq.
  - apply zeros_like_length.
Qed.

Lemma select_xint_selected :
  yields (select_xint self n dbg)
         (selected n dbg (fun d => ((d * 2 - 1) * xint_max o,
                                    (d * 2 - 1) * xint_max o))).
Proof.
  apply (yields_selection self G_xint n dbg (rand2 n)
           (map (fun xy => ((fst xy * 2 - 1) * xint_max o,
                            (snd xy * 2 - 1) * xint_max o)))
           (fun t => full_like t (0, 0))).
  - apply yields_rand2.
  - intros r. apply map_length_eq.
  - intro v. apply full_like_length.
Qed.

Lemma select_scale_selected :
  yields (select_scale K self n dbg)
         (selected n dbg
            (fun d => exp2 (erfinv K (d * 2 - 1) * scale_std o))).
Proof.
  apply (yields_selection self G_scale n dbg (randn n)
           (map (fun x => exp2 (x * scale_std o))) ones_like).
  - apply yields_randn.
  - intros r. apply map_length_eq.
  - apply ones_like_length.
Qed.

Lemma select_rotate_pre_selected :
  yields (select_rotate_pre self n dbg)
         (selected n dbg (fun d => (d * 2 - 1) * PI * rotate_max o)).
Proof.
  apply (yields_selection self G_rotate_pre n dbg (rand n)
           (map (fun x => (x * 2 - 1) * PI * rotate_max o)) zeros_like).
  - apply yields_rand.
  - intros r. apply map_length_eq.
  - apply zeros_like_length.
Qed.

Lemma select_aniso_selected :
  yields (select_aniso K self n dbg)
         (selected n dbg
            (fun d => exp2 (erfinv K (d * 2 - 1) * aniso_std o))).
Proof.
  apply (yields_selection self G_aniso n dbg (randn n)
           (map (fun x => exp2 (x * aniso_std o))) ones_like).
  - apply yields_randn.
  - intros r. apply map_length_eq.
  - apply ones_like_length.
Qed.

Lemma select_rotate_post_selected :
  yields (select_rotate_post self n dbg) (selected n dbg (fun _ => 0)).
Proof.
  unfold select_rotate_post.
  eapply yields_bind; [apply yields_rand|]. intros r Hr. simpl.
  eapply yields_bind.
  - apply yields_gated; [|rewrite zeros_like_length];
      apply map_length_eq; exact Hr.
  - intros v Hv. apply yields_ret. split.
    + destruct dbg; [rewrite zeros_like_length|]; exact Hv.
    + intros d ->. unfold zeros_like.
      change (map (fun _ : R => 0) v) with (full_like v 0).
      rewrite full_like_repeat. congruence.
Qed.

Lemma select_xfrac_selected :
  yields (select_xfrac K self n dbg)
         (selected n dbg
            (fun d => (erfinv K (d * 2 - 1) * xfrac_std o,
                       erfinv K (d * 2 - 1) * xfrac_std o))).
Proof.
  apply (yields_selection self G_xfrac n dbg (randn2 n)
           (map (fun xy => (fst xy * xfrac_std o, snd xy * xfrac_std o)))
           (fun t => full_like t (0, 0))).
  - apply yields_randn2.
  - intros r. apply map_length_eq.
  - intro v. apply full_like_length.
Qed.

Lemma select_brightness_selected :
  yields (select_brightness K self n dbg)
         (selected n dbg
            (fun d => erfinv K (d * 2 - 1) * brightness_std o)).
Proof.
  apply (yields_selection self G_brightness n dbg (randn n)
           (map (fun x => x * brightness_std o)) zeros_like).
  - apply yields_randn.
  - intros r. apply map_length_eq.
  - apply zeros_like_length.
Qed.

Lemma select_contrast_selected :
  yields (select_contrast K self n dbg)
         (selected n dbg
            (fun d => exp2 (erfinv K (d * 2 - 1) * contrast_std o))).
Proof.
  apply (yields_selection self G_contrast n dbg (randn n)
           (map (fun x => exp2 (x * contrast_std o))) ones_like).
  - apply yields_randn.
  - intros r. apply map_length_eq.
  - apply ones_like_length.
Qed.

Lemma select_lumaflip_selected :
  yields (select_lumaflip self n dbg)
         (selected n dbg (fun d => floor (d * 2))).
Proof.
  apply (yields_selection self G_lumaflip n dbg (rand n)
           (map (fun x => floor (x * 2))) zeros_like).
  - apply yields_rand.
  - intros r. apply map_length_eq.
  - apply zeros_like_length.
Qed.

Lemma select_hue_selected :
  yields (select_hue self n dbg)
         (selected n dbg (fun d => (d * 2 - 1) * PI * hue_max o)).
Proof.
  apply (yields_selection self G_hue n dbg (rand n)
           (map (fun x => (x * 2 - 1) * PI * hue_max o)) zeros_like).
  - apply yields_rand.
  - intros r. apply map_length_eq.
  - apply zeros_like_length.
Qed.

Lemma select_saturation_selected :
  yields (select_saturation K self n dbg)
         (selected n dbg
            (fun d => exp2 (erfinv K (d * 2 - 1) * saturation_std o))).
Proof.
  apply (yields_selection self G_saturation n dbg (randn n)
           (map (fun x => exp2 (x * saturation_std o))) ones_like).
  - apply yields_randn.
  - intros r. apply map_length_eq.
  - apply ones_like_length.
Qed.

Lemma select_band_selected (band_strength : R) :
  yields (select_band K self n dbg band_strength)
         (selected n dbg
            (fun d => if positive band_strength
                      then exp2 (erfinv K (d * 2 - 1) * imgfilter_std o)
                      else 1)).
Proof.
  unfold select_band.
  eapply yields_bind; [apply yields_randn|]. intros r Hr. simpl.
  eapply yields_bind.
  - apply yields_gated; [|rewrite ones_like_length];
      apply map_length_eq; exact Hr.
  - intros v Hv. apply yields_ret. split.
    + destruct dbg; [|exact Hv].
      destruct (positive band_strength);
        [rewrite full_like_length | rewrite ones_like_length]; exact Hv.
    + intros d ->. destruct (positive band_strength).
      * rewrite full_like_repeat, Hv. reflexivity.
      * unfold ones_like.
        change (map (fun _ : R => 1) v) with (full_like v 1).
        rewrite full_like_repeat, Hv. reflexivity.
Qed.

Lemma select_noise_selected :
  yields (select_noise K self n dbg)
         (selected n dbg (fun d => erfinv K d * noise_std o)).
Proof.
  apply (yields_selection self G_noise n dbg (randn n)
           (map (fun x => Rabs x * noise_std o)) zeros_like).
  - apply yields_randn.
  - intros r. apply map_length_eq.
  - apply zeros_like_length.
Qed.

Lemma select_cutout_selected :
  yields (select_cutout self n dbg)
         (fun sc => selected n dbg
                      (fun _ => (cutout_size o, cutout_size o)) (fst sc)
                    /\ selected n dbg (fun d => (d, d)) (snd sc)).
Proof.
  unfold select_cutout.
  eapply yields_bind.
  - apply yields_gated; [|rewrite full_like_length]; apply repeat_length.
  - intros size Hsize. simpl.
    eapply yields_bind; [apply yields_rand2|]. intros center Hc.
    apply yields_ret.
    destruct dbg as [d|]; simpl; (split; split);
      rewrite ?full_like_length; try assumption; try discriminate.
    + intros d' _. rewrite full_like_repeat, Hsize. reflexivity.
    + intros d' [= <-]. rewrite full_like_repeat, Hc. reflexivity.
Qed.

End Selected.

End Selections.

(* ------------------------------------------------------------------ *)
(** ** Accumulation of the matrices *)

Module Accumulate.

Import Scalar Mat Tensor Eff Kernels Builders Pipe Select Forward Config Run Outcome.
Import Identity Selections.
Local Open Scope eff_scope.

Lemma mul_rows (a b : mat) : length (mul a b) = length a.
Proof. unfold mul. apply length_map. Qed.

Lemma map2_length {A B C} (f : A -> B -> C) (a : list A) (b : list B) :
  length (map2 f a b) = Nat.min (length a) (length b).
Proof. unfold map2. rewrite length_map, length_combine. reflexivity. Qed.

Lemma Forall_map2 {A B C} (P : C -> Prop) (f : A -> B -> C)
  (a : list A) (b : list B) :
  (forall x y, In x a -> In y b -> P (f x y)) -> Forall P (map2 f a b).
Proof.
  intro H. unfold map2. apply Forall_forall. intros c Hc.
  apply in_map_iff in Hc. destruct Hc as ((x & y) & <- & Hin).
  apply H; simpl.
  - eapply in_combine_l. exact Hin.
  - eapply in_combine_r. exact Hin.
Qed.

Lemma matmul_r_batch (g : tref) (x : list mat) (n : nat) :
  batch_of n 3 g -> length x = n -> batch_of n 3 (matmul_r I_3 g x).
Proof.
  intros Hg Hx. destruct g as [|ms]; simpl.
  - split; [rewrite length_map; exact Hx|].
    apply Forall_forall. intros m Hm. apply in_map_iff in Hm.
    destruct Hm as (y & <- & _). rewrite mul_rows. reflexivity.
  - destruct Hg as (Hn & Hr). split.
    + rewrite map2_length. lia.
    + apply Forall_map2. intros a b Ha _. rewrite mul_rows.
      rewrite Forall_forall in Hr. auto.
Qed.

Lemma matmul_l_batch (x : list mat) (c : tref) (n r : nat) :
  batch_of n r c -> length x = n -> Forall (fun m => length m = r) x ->
  batch_of n r (matmul_l I_4 x c).
Proof.
  intros Hc Hx Hr. destruct c as [|ms]; simpl.
  - split; [rewrite length_map; exact Hx|].
    apply Forall_forall. intros m Hm. apply in_map_iff in Hm.
    destruct Hm as (y & <- & Hy). rewrite mul_rows.
    rewrite Forall_forall in Hr. auto.
  - destruct Hc as (Hn & _). split.
    + rewrite map2_length. lia.
    + apply Forall_map2. intros a b Ha _. rewrite mul_rows.
      rewrite Forall_forall in Hr. auto.
Qed.

(** One block of the geometric accumulation. *)
Lemma yields_geometric_block {A} (cond : bool) (sel : M (list A))
  (f : A -> mat) (G : tref) (n : nat) (dbg : option R) (x : R -> A) :
  yields sel (selected n dbg x) -> batch_of n 3 G ->
  yields (if cond then v <- sel ;; ret (matmul_r I_3 G (map f v))
          else ret G)
         (fun G' => batch_of n 3 G'
                    /\ is_not_eye G' = cond || is_not_eye G).
Proof.
  intros Hsel HG. destruct cond.
  - eapply yields_bind; [exact Hsel|]. intros v (Hv & _).
    apply yields_ret. split; [|reflexivity].
    apply matmul_r_batch; [exact HG | rewrite length_map; exact Hv].
  - apply yields_ret. split; [exact HG | reflexivity].
Qed.

(** One block of the colour accumulation. *)
Lemma yields_color_block {A} (cond : bool) (sel : M (list A))
  (f : A -> mat) (C : tref) (n : nat) (dbg : option R) (x : R -> A) :
  yields sel (selected n dbg x) -> batch_of n 4 C ->
  (forall a, length (f a) = 4%nat) ->
  yields (if cond then v <- sel ;; ret (matmul_l I_4 (map f v) C)
          else ret C)
         (fun C' => batch_of n 4 C'
                    /\ is_not_eye C' = cond || is_not_eye C).
Proof.
  intros Hsel HC Hf. destruct cond.
  - eapply yields_bind; [exact Hsel|]. intros v (Hv & _).
    apply yields_ret. split; [|reflexivity].
    apply matmul_l_batch; [exact HC | rewrite length_map; exact Hv|].
    apply Forall_forall. intros m Hm. apply in_map_iff in Hm.
    destruct Hm as (a & <- & _). apply Hf.
  - apply yields_ret. split; [exact HC | reflexivity].
Qed.

Section Accumulated.

Variable K : kernels.
Variable self : AugmentPipe.
Variable dbg : option R.
Variables n c h w : nat.

Let o := opt self.

(** [G_inv] is a new tensor as soon as one geometric block is entered,
    whatever the parameters selected there. *)
Lemma accumulate_G_yields :
  yields (accumulate_G K self dbg n h w)
         (fun G => batch_of n 3 G
                   /\ is_not_eye G
                      = existsb positive (geometric_multipliers o)).
Proof.
  unfold accumulate_G.
  eapply yields_bind.
  { eapply yields_geometric_block;
      [apply select_xflip_selected | exact I]. }
  intros G1 (B1 & E1).
  eapply yields_bind.
  { eapply yields_geometric_block;
      [apply select_rotate90_selected | exact B1]. }
  intros G2 (B2 & E2).
  eapply yields_bind.
  { eapply yields_geometric_block;
      [apply select_xint_selected | exact B2]. }
  intros G3 (B3 & E3).
  eapply yields_bind.
  { eapply yields_geometric_block;
      [apply select_scale_selected | exact B3]. }
  intros G4 (B4 & E4).
  eapply yields_bind.
  { eapply yields_geometric_block;
      [apply select_rotate_pre_selected | exact B4]. }
  intros G5 (B5 & E5).
  eapply yields_bind.
  { eapply yields_geometric_block;
      [apply select_aniso_selected | exact B5]. }
  intros G6 (B6 & E6).
  eapply yields_bind.
  { eapply yields_geometric_block;
      [apply select_rotate_post_selected | exact B6]. }
  intros G7 (B7 & E7).
  eapply yields_bind.
  { eapply yields_geometric_block;
      [apply select_xfrac_selected | exact B7]. }
  intros G8 (B8 & E8).
  apply yields_ret. split; [exact B8|].
  rewrite E8, E7, E6, E5, E4, E3, E2, E1. simpl. fold o.
  destruct (positive (xflip o)), (positive (rotate90 o)),
    (positive (xint o)), (positive (scale o)), (positive (rotate o)),
    (positive (aniso o)), (positive (xfrac o)); reflexivity.
Qed.

Lemma times_rows (a : mat) (s : R) : length (times a s) = length a.
Proof. unfold times. apply length_map. Qed.

Lemma sub_rows (a b : mat) :
  length (sub a b) = Nat.min (length a) (length b).
Proof. unfold sub. rewrite length_map, length_combine. reflexivity. Qed.

Lemma add_rows (a b : mat) :
  length (add a b) = Nat.min (length a) (length b).
Proof. unfold add. rewrite length_map, length_combine. reflexivity. Qed.

(** [C] is a new tensor as soon as one colour block is entered. *)
Lemma accumulate_C_yields :
  yields (accumulate_C K self dbg n c)
         (fun C => batch_of n 4 C
                   /\ is_not_eye C = color_pending o c).
Proof.
  unfold accumulate_C.
  eapply yields_bind.
  { eapply yields_color_block;
      [apply select_brightness_selected | exact I | reflexivity]. }
  intros C1 (B1 & E1).
  eapply yields_bind.
  { eapply yields_color_block;
      [apply select_contrast_selected | exact B1 | reflexivity]. }
  intros C2 (B2 & E2).
  eapply yields_bind.
  { unfold apply_lumaflip. eapply yields_color_block;
      [apply select_lumaflip_selected | exact B2 | ].
    intro i. rewrite sub_rows, times_rows. reflexivity. }
  intros C3 (B3 & E3).
  eapply yields_bind.
  { unfold apply_hue. eapply yields_color_block;
      [apply select_hue_selected | exact B3 | reflexivity]. }
  intros C4 (B4 & E4).
  eapply yields_bind.
  { unfold apply_saturation. eapply yields_color_block;
      [apply select_saturation_selected | exact B4 | ].
    intro s. rewrite add_rows, times_rows, sub_rows. reflexivity. }
  intros C5 (B5 & E5).
  apply yields_ret. split; [exact B5|].
  rewrite E5, E4, E3, E2, E1. unfold color_pending. simpl. fold o.
  destruct (positive (brightness o)), (positive (contrast o)),
    (positive (lumaflip o)), (positive (hue o)), (positive (saturation o)),
    (1 <? c)%nat; reflexivity.
Qed.

End Accumulated.

End Accumulate.

(* ------------------------------------------------------------------ *)
(** ** Which blocks are entered, and in which order *)

Module Blocks.

Import Scalar Mat Tensor Eff Kernels Builders Pipe Select Forward Config Run Outcome.
Import Identity Selections Accumulate.
Local Open Scope eff_scope.

(** No geometric block is entered when no geometric multiplier is
    positive. *)
Lemma geometric_stage_idle
  (K : kernels) (self : AugmentPipe) (debug_percentile : option R)
  (batch_size num_channels height width : nat) (images : tensor)
  (w : world) :
  none_positive (geometric_multipliers (opt self)) ->
  accumulate_G K self debug_percentile batch_size height width w
  = Ok (Eye, w)
  /\ geometric_stage K self debug_percentile batch_size num_channels
       height width images w
     = Ok (images, w).
Proof.
  intro Hoff.
  unfold none_positive, geometric_multipliers in Hoff.
  repeat match goal with
         | H : Forall _ (_ :: _) |- _ => inversion_clear H
         end.
  unfold geometric_stage, accumulate_G, apply_xflip, apply_rotate90,
    apply_xint, apply_scale, apply_rotate_pre, apply_aniso,
    apply_rotate_post, apply_xfrac.
  repeat match goal with
         | H : _ <= 0 |- _ => rewrite (positive_nonpos _ H); clear H
         end.
  split; reflexivity.
Qed.

(** C10. For a batch with one channel the blocks of the hue rotation and
    of the saturation are not entered, whatever their multipliers, the
    strength and [debug_percentile]: they return the matrix [C] they
    receive and draw no random number, so that [C] is accumulated from
    the brightness, the contrast and the luma flip only. *)
Theorem one_channel_skips_hue_and_saturation
  (K : kernels) (self : AugmentPipe) (debug_percentile : option R)
  (batch_size : nat) (C : tref) (w : world) :
  apply_hue self debug_percentile batch_size 1 C w = Ok (C, w)
  /\ apply_saturation K self debug_percentile batch_size 1 C w = Ok (C, w)
  /\ accumulate_C K self debug_percentile batch_size 1 w
     = (C <- apply_brightness K self debug_percentile batch_size Eye ;;
        C <- apply_contrast K self debug_percentile batch_size C ;;
        apply_lumaflip self debug_percentile batch_size C) w.
Proof.
  assert (Hh : forall C w,
             apply_hue self debug_percentile batch_size 1 C w = Ok (C, w)).
  { intros C0 w0. unfold apply_hue. simpl.
    rewrite andb_false_r. reflexivity. }
  assert (Hs : forall C w,
             apply_saturation K self debug_percentile batch_size 1 C w
             = Ok (C, w)).
  { intros C0 w0. unfold apply_saturation. simpl.
    rewrite andb_false_r. reflexivity. }
  repeat split; [apply Hh | apply Hs |].
  unfold accumulate_C, bind.
  destruct (apply_brightness K self debug_percentile batch_size Eye w)
    as [[C1 w1]|e]; [|reflexivity].
  destruct (apply_contrast K self debug_percentile batch_size C1 w1)
    as [[C2 w2]|e]; [|reflexivity].
  destruct (apply_lumaflip self debug_percentile batch_size C2 w2)
    as [[C3 w3]|e]; [|reflexivity].
  rewrite Hh, Hs. reflexivity.
Qed.

Lemma scale2d_is3x3 (sx sy : R) : is3x3 (scale2d sx sy).
Proof. unfold is3x3, scale2d. do 9 eexists. reflexivity. Qed.

Lemma map_mul_I_3 {A} (f : A -> mat) (l : list A) :
  (forall a, is3x3 (f a)) -> map (mul I_3) (map f l) = map f l.
Proof.
  intro H. rewrite map_map. apply map_ext. intro a.
  apply MatFacts.mul_I_3_l. apply H.
Qed.

(** C9. With the blocks of the flip, of the rotation by multiples of 90
    degrees and of the integer translation entered and the other four
    geometric blocks not entered, [G_inv] is, for each batch element, the
    product (flip inverse) @ (rotation inverse) @ (translation inverse),
    associated from the left in this order, of the matrices built from the
    parameters that the three selections return (sampled, or fixed by
    [debug_percentile]). *)
Theorem flip_rotate90_translate_in_order
  (K : kernels) (self : AugmentPipe) (debug_percentile : option R)
  (batch_size height width : nat) (w : world) :
  0 < xflip (opt self) -> 0 < rotate90 (opt self) -> 0 < xint (opt self) ->
  none_positive [scale (opt self); rotate (opt self); aniso (opt self);
                 xfrac (opt self)] ->
  accumulate_G K self debug_percentile batch_size height width w
  = (i <- select_xflip self batch_size debug_percentile ;;
     j <- select_rotate90 self batch_size debug_percentile ;;
     t <- select_xint self batch_size debug_percentile ;;
     ret (Fresh
            (map2 mul
               (map2 mul
                  (map (fun i => scale2d_inv (1 - 2 * i) 1) i)
                  (map (fun j => rotate2d_inv (- PI / 2 * j)) j))
               (map (fun t => translate2d_inv (round (fst t * INR width))
                                              (round (snd t * INR height)))
                    t)))) w.
Proof.
  intros Hf Hr Ht Hoff.
  unfold none_positive in Hoff.
  repeat match goal with
         | H : Forall _ (_ :: _) |- _ => inversion_clear H
         end.
  unfold accumulate_G, apply_xflip, apply_rotate90,
    apply_xint, apply_scale, apply_rotate_pre, apply_aniso,
    apply_rotate_post, apply_xfrac.
  rewrite (positive_pos _ Hf), (positive_pos _ Hr), (positive_pos _ Ht).
  repeat match goal with
         | H : _ <= 0 |- _ => rewrite (positive_nonpos _ H); clear H
         end.
  unfold bind, ret.
  destruct (select_xflip self batch_size debug_percentile w)
    as [[i w1]|e]; [|reflexivity].
  cbv beta iota.
  destruct (select_rotate90 self batch_size debug_percentile w1)
    as [[j w2]|e]; [|reflexivity].
  cbv beta iota.
  destruct (select_xint self batch_size debug_percentile w2)
    as [[t w3]|e]; [|reflexivity].
  cbv beta iota. unfold matmul_r. do 4 f_equal.
  rewrite map_mul_I_3; [reflexivity|].
  intro a. apply scale2d_is3x3.
Qed.

End Blocks.

(* ------------------------------------------------------------------ *)
(** ** Row-major indexing *)

Module Index.

Import Tensor.

Lemma flat_map_blocks_length {A} (g : nat -> list A) (k s m : nat) :
  (forall a, length (g a) = k) ->
  length (flat_map g (seq s m)) = (m * k)%nat.
Proof.
  intro Hk. revert s. induction m as [|m IH]; intro s; simpl.
  - reflexivity.
  - rewrite length_app, Hk, IH. reflexivity.
Qed.

Lemma nth_flat_map_blocks {A} (g : nat -> list A) (d : A) (k : nat) :
  (forall a, length (g a) = k) ->
  forall m s i j, (i < m)%nat -> (j < k)%nat ->
  nth (i * k + j) (flat_map g (seq s m)) d = nth j (g (s + i)%nat) d.
Proof.
  intro Hk. induction m as [|m IH]; intros s i j Hi Hj; [lia|].
  simpl. destruct i as [|i].
  - simpl. rewrite app_nth1 by (rewrite Hk; exact Hj).
    rewrite Nat.add_0_r. reflexivity.
  - rewrite app_nth2 by (rewrite Hk; simpl; lia).
    rewrite Hk.
    replace (S i * k + j - k)%nat with (i * k + j)%nat by (simpl; lia).
    rewrite IH by lia. f_equal. f_equal. lia.
Qed.

Lemma nth_map_seq {A} (f : nat -> A) (d : A) (n i : nat) :
  (i < n)%nat -> nth i (map f (seq 0 n)) d = f i.
Proof.
  intro H. rewrite (nth_indep _ d (f 0%nat))
    by (rewrite length_map, length_seq; exact H).
  rewrite (map_nth f (seq 0 n) 0%nat i), seq_nth by exact H. reflexivity.
Qed.

Lemma tabulate4_length (n c h w : nat) f :
  length (tabulate4 n c h w f) = (n * c * h * w)%nat.
Proof.
  unfold tabulate4.
  rewrite (flat_map_blocks_length _ (c * h * w)%nat); [lia|].
  intro i. rewrite (flat_map_blocks_length _ (h * w)%nat); [lia|].
  intro j. rewrite (flat_map_blocks_length _ w); [lia|].
  intro y. rewrite length_map, length_seq. reflexivity.
Qed.

Lemma tabulate3_length (n c m : nat) f :
  length (tabulate3 n c m f) = (n * c * m)%nat.
Proof.
  unfold tabulate3.
  rewrite (flat_map_blocks_length _ (c * m)%nat); [lia|].
  intro i. rewrite (flat_map_blocks_length _ m); [lia|].
  intro j. rewrite length_map, length_seq. reflexivity.
Qed.

(** Reading the element [i, j, y, x] of a tabulated tensor. *)
Lemma at4_tabulate4 (n c h w : nat) f (i j y x : nat) :
  (i < n)%nat -> (j < c)%nat -> (y < h)%nat -> (x < w)%nat ->
  at4 c h w (tabulate4 n c h w f) i j y x = f i j y x.
Proof.
  intros Hi Hj Hy Hx. unfold at4, tabulate4.
  replace (((i * c + j) * h + y) * w + x)%nat
    with (i * (c * h * w) + (j * (h * w) + (y * w + x)))%nat by lia.
  assert (Hyx : (y * w + x < h * w)%nat) by nia.
  assert (Hjyx : (j * (h * w) + (y * w + x) < c * h * w)%nat) by nia.
  rewrite (nth_flat_map_blocks _ 0 (c * h * w)%nat); try assumption.
  2:{ intro a. rewrite (flat_map_blocks_length _ (h * w)%nat); [lia|].
      intro b. rewrite (flat_map_blocks_length _ w); [lia|].
      intro b'. rewrite length_map, length_seq. reflexivity. }
  rewrite (nth_flat_map_blocks _ 0 (h * w)%nat); try assumption.
  2:{ intro b. rewrite (flat_map_blocks_length _ w); [lia|].
      intro b'. rewrite length_map, length_seq. reflexivity. }
  rewrite (nth_flat_map_blocks _ 0 w); try assumption.
  2:{ intro b'. rewrite length_map, length_seq. reflexivity. }
  simpl. apply nth_map_seq. exact Hx.
Qed.

End Index.

(* ------------------------------------------------------------------ *)
(** ** The cutout *)

Module Cutout.

Import Scalar Mat Tensor Eff Kernels Pipe Select Forward Config Run Outcome.
Import ScalarFacts Index.

Lemma pointwise_runs (batch_size num_channels height width : nat)
  (images : tensor) f (w : world) :
  shape images = [batch_size; num_channels; height; width] ->
  pointwise batch_size num_channels height width images f w
  = Ok (Tensor.mk [batch_size; num_channels; height; width]
          (tabulate4 batch_size num_channels height width
             (fun n c y x =>
                f (at4 num_channels height width (data images) n c y x)
                  n c y x)), w).
Proof.
  intro Hs. unfold pointwise. rewrite Hs.
  destruct (list_eq_dec Nat.eq_dec _ _) as [_|Hne]; [reflexivity|].
  exfalso. apply Hne. reflexivity.
Qed.

(** C8. Let the selection of the cutout return, for the batch element
    [n], the size [(s, s)] and the centre [(c_x, c_y)] (when the switch
    fires, [s] is the configured size).  Then the mask is zero at the
    pixel [(x, y)] exactly when both
    [|(x + 0.5) / width - c_x| < s / 2] and
    [|(y + 0.5) / height - c_y| < s / 2]; the output pixel is the input
    pixel times the mask: it is zero inside this rectangle and equal to the
    input pixel elsewhere, in every channel.  (A pixel that is zero in
    the input stays zero outside the rectangle.) *)
Theorem cutout_zeroes_the_rectangle
  (self : AugmentPipe) (debug_percentile : option R)
  (batch_size num_channels height width : nat) (images : tensor)
  (w w' : world) (size center : list (R * R))
  (n c y x : nat) (s c_x c_y : R) :
  shape images = [batch_size; num_channels; height; width] ->
  select_cutout self batch_size debug_percentile w
  = Ok ((size, center), w') ->
  nth n size (0, 0) = (s, s) ->
  nth n center (0, 0) = (c_x, c_y) ->
  (n < batch_size)%nat -> (c < num_channels)%nat ->
  (y < height)%nat -> (x < width)%nat ->
  let inside :=
    Rabs ((INR x + 0.5) / INR width - c_x) < s / 2
    /\ Rabs ((INR y + 0.5) / INR height - c_y) < s / 2 in
  exists out,
    apply_cutout self debug_percentile batch_size num_channels height width
      images w = Ok (out, w')
    /\ shape out = shape images
    /\ (cutout_mask height width size center n y x = 0 <-> inside)
    /\ at4 num_channels height width (data out) n c y x
       = at4 num_channels height width (data images) n c y x
         * cutout_mask height width size center n y x
    /\ (inside -> at4 num_channels height width (data out) n c y x = 0)
    /\ (~ inside ->
        at4 num_channels height width (data out) n c y x
        = at4 num_channels height width (data images) n c y x).
Proof.
  intros Hs Hsel Hsize Hcenter Hn Hc Hy Hx inside.
  eexists. split.
  { unfold apply_cutout, bind. rewrite Hsel.
    apply pointwise_runs. exact Hs. }
  simpl. rewrite at4_tabulate4 by assumption.
  assert (Hmask : cutout_mask height width size center n y x = 0 <-> inside).
  { unfold cutout_mask, inside. rewrite Hsize, Hcenter. simpl.
    destruct (geb (Rabs ((INR x + 0.5) / INR width - c_x)) (s / 2)) eqn:Ex;
      destruct (geb (Rabs ((INR y + 0.5) / INR height - c_y)) (s / 2))
        eqn:Ey; simpl;
      first [apply geb_spec in Ex | apply geb_false in Ex];
      first [apply geb_spec in Ey | apply geb_false in Ey];
      (split; [intro H | intros [H1 H2]]);
      try lra; try reflexivity; try (split; lra). }
  assert (Hcases : cutout_mask height width size center n y x = 0
                   \/ cutout_mask height width size center n y x = 1).
  { unfold cutout_mask. destruct (_ || _); auto. }
  split; [symmetry; exact Hs|].
  split; [exact Hmask|].
  split; [reflexivity|].
  split.
  - intro Hin. apply Hmask in Hin. rewrite Hin. ring.
  - intro Hout. destruct Hcases as [H0|H1].
    + exfalso. apply Hout. apply Hmask. exact H0.
    + rewrite H1. ring.
Qed.

End Cutout.

(* ------------------------------------------------------------------ *)
(** ** The geometric execution under the contracts of the kernels *)

Module Geometric.

Import Scalar Mat Tensor Eff Kernels Builders Pipe Select Forward Config Run Outcome.
Import Contract Accumulate.
Local Open Scope eff_scope.

Lemma yields_launches {A} (m : M A) (P : A -> Prop) :
  yields m P -> launches m P [].
Proof.
  intros H w. destruct (H w) as (a & w' & E & Pa & T & U).
  exists a, w'. rewrite app_nil_r. tauto.
Qed.

Lemma launches_bind {A B} (m : M A) (k : A -> M B) (P : A -> Prop)
  (Q : B -> Prop) (l1 l2 : list launch) :
  launches m P l1 -> (forall a, P a -> launches (k a) Q l2) ->
  launches (bind m k) Q (l1 ++ l2).
Proof.
  intros Hm Hk w.
  destruct (Hm w) as (a & w1 & E1 & Pa & T1 & U1 & N1).
  destruct (Hk a Pa w1) as (b & w2 & E2 & Qb & T2 & U2 & N2).
  exists b, w2. unfold bind. rewrite E1.
  repeat split; try assumption; try congruence.
  rewrite T2, T1, app_assoc. reflexivity.
Qed.

Lemma launches_call {A} (l : launch) (r : result A) (a : A)
  (P : A -> Prop) :
  r = Ok a -> P a -> launches (call l r) P [l].
Proof.
  intros -> Pa w. exists a. eexists. unfold call.
  repeat split. exact Pa.
Qed.

Lemma launches_then_raise {A B} (m : M A) (k : A -> M B) (P : A -> Prop)
  (ls : list launch) (e : exn) :
  launches m P ls -> (forall a w, P a -> k a w = Raise e) ->
  forall w, bind m k w = Raise e.
Proof.
  intros Hm Hk w.
  destruct (Hm w) as (a & w1 & E1 & Pa & _).
  unfold bind. rewrite E1. apply Hk. exact Pa.
Qed.

Lemma launches_weaken {A} (m : M A) (P Q : A -> Prop) ls :
  launches m P ls -> (forall a, P a -> Q a) -> launches m Q ls.
Proof.
  intros Hm HPQ w.
  destruct (Hm w) as (a & w1 & E1 & Pa & T).
  exists a, w1. repeat split; try tauto. auto.
Qed.

Lemma ceil_int_range (v : R) (k : Z) :
  0 <= v <= IZR k -> (0 <= ceil_int v <= k)%Z.
Proof.
  intros (H0 & Hk). unfold ceil_int.
  destruct (base_Int_part (- v)) as (H1 & H2).
  split.
  - assert (Int_part (- v) <= 0)%Z by (apply le_IZR; lra). lia.
  - assert (- k - 1 < Int_part (- v))%Z.
    { apply lt_IZR. rewrite minus_IZR, opp_IZR. lra. }
    lia.
Qed.

Lemma clamped_margin_range (v : R) (d : nat) :
  (1 <= d)%nat ->
  (0 <= ceil_int (Rmin (Rmax v 0) (INR d - 1)) < Z.of_nat d)%Z.
Proof.
  intro Hd.
  assert (H1 : 1 <= INR d) by (change 1 with (INR 1); apply le_INR; exact Hd).
  assert (0 <= ceil_int (Rmin (Rmax v 0) (INR d - 1)) <= Z.of_nat d - 1)%Z.
  { apply ceil_int_range. rewrite minus_IZR, <- INR_IZR_INZ.
    split.
    - apply Rmin_glb; [apply Rmax_r | lra].
    - apply Rmin_r. }
  lia.
Qed.

Lemma max_values_some (l : list R) :
  l <> [] -> exists v, max_values l = Some v.
Proof.
  destruct l as [|x r]; [congruence|]. intros _. simpl. eauto.
Qed.

Lemma first_rows_nonempty (k : nat) (G : list mat) (T : mat) :
  G <> [] -> Forall (fun m => length m = 3%nat) G ->
  (k < 3)%nat -> ncols T <> 0%nat ->
  flat_map (fun m => nth k m []) (map (fun g => mul g T) G) <> [].
Proof.
  intros HG Hrows Hk HT.
  destruct G as [|g G]; [congruence|].
  inversion_clear Hrows as [|? ? Hg _].
  destruct g as [|r0 [|r1 [|r2 [|]]]]; try discriminate Hg.
  destruct (ncols T) as [|c] eqn:Hc; [congruence|].
  destruct k as [|[|[|k]]]; try lia;
    simpl; unfold mul; simpl; rewrite Hc; simpl; discriminate.
Qed.

Lemma map_nonempty {A B} (f : A -> B) (l : list A) :
  l <> [] -> map f l <> [].
Proof. destruct l; [congruence | discriminate]. Qed.

Section Executed.

Variable K : kernels.
Variable self : AugmentPipe.
Variables batch_size num_channels height width : nat.

Hypothesis K_lawful : lawful K.
Hypothesis Hz_geom_taps : Hz_geom self <> [].
Hypothesis height_pos : (1 <= height)%nat.
Hypothesis width_pos : (1 <= width)%nat.
Hypothesis channels_pos : (1 <= num_channels)%nat.

(** The four paddings lie in the range that [pad] accepts. *)
Lemma calculate_padding_in_range (G_inv : list mat) :
  G_inv <> [] -> Forall (fun m => length m = 3%nat) G_inv ->
  yields (calculate_padding self height width G_inv)
    (fun m => let '(mx0, my0, mx1, my1) := m in
       (0 <= mx0 < Z.of_nat width)%Z /\ (0 <= mx1 < Z.of_nat width)%Z
       /\ (0 <= my0 < Z.of_nat height)%Z
       /\ (0 <= my1 < Z.of_nat height)%Z).
Proof.
  intros HG Hrows. unfold calculate_padding. cbv zeta.
  match goal with
  | |- context [map (fun g => mul g ?T) G_inv] =>
      assert (HT : ncols T <> 0%nat) by (unfold ncols; simpl; discriminate);
      pose proof (first_rows_nonempty 0 G_inv T HG Hrows
                    ltac:(lia) HT) as Hx;
      pose proof (first_rows_nonempty 1 G_inv T HG Hrows
                    ltac:(lia) HT) as Hy
  end.
  destruct (max_values_some _ (map_nonempty Ropp _ Hx)) as (x0 & ->).
  destruct (max_values_some _ (map_nonempty Ropp _ Hy)) as (y0 & ->).
  destruct (max_values_some _ Hx) as (x1 & ->).
  destruct (max_values_some _ Hy) as (y1 & ->).
  simpl. apply yields_ret.
  repeat split; apply clamped_margin_range; assumption.
Qed.

Lemma two_over_yields (s : list nat) (k d : nat) :
  nth_error s k = Some d -> (1 <= d)%nat ->
  yields (two_over s k) (fun _ => True).
Proof.
  intros E Hd. unfold two_over. rewrite E.
  destruct d as [|d]; [lia|]. apply yields_ret. exact I.
Qed.

Lemma downsampled_restores (d q : nat) (fw : Z) :
  downsampled ((d + q * 2) * 2) fw (- Z.of_nat q * 2) = Z.of_nat d.
Proof.
  unfold downsampled.
  rewrite Nat2Z.inj_mul, Nat2Z.inj_add, Nat2Z.inj_mul. simpl Z.of_nat.
  replace (fw - 2 + 1)%Z with (fw - 1)%Z by lia.
  assert (H : ((fw - 1) / 2 + (fw - 2) / 2 = fw - 2)%Z).
  { pose proof (Z.div_mod (fw - 1) 2 ltac:(lia)).
    pose proof (Z.div_mod (fw - 2) 2 ltac:(lia)).
    pose proof (Z.mod_pos_bound (fw - 1) 2 ltac:(lia)).
    pose proof (Z.mod_pos_bound (fw - 2) 2 ltac:(lia)).
    lia. }
  replace (((Z.of_nat d + Z.of_nat q * 2) * 2
            + (- Z.of_nat q * 2 + (fw - 1) / 2)
            + (- Z.of_nat q * 2 + (fw - 2) / 2) - fw + 2))%Z
    with (Z.of_nat d * 2)%Z by lia.
  apply Z.div_mul. lia.
Qed.

(** The five steps succeed and give back a batch of the shape of the
    input. *)
Lemma execute_geometric_restores_shape (images : tensor)
  (G_inv : list mat) :
  shape images = [batch_size; num_channels; height; width] ->
  length G_inv = batch_size -> (1 <= batch_size)%nat ->
  Forall (fun m => length m = 3%nat) G_inv ->
  launches
    (execute_geometric K self batch_size num_channels height width
       images G_inv)
    (fun out => shape out = [batch_size; num_channels; height; width]
                /\ wf out)
    [L_pad; L_upsample2d; L_affine_grid; L_grid_sample; L_downsample2d].
Proof.
  intros Hs HG Hn Hrows. unfold execute_geometric.
  eapply (launches_bind _ _ _ _ []).
  { apply yields_launches. apply calculate_padding_in_range.
    - destruct G_inv; [simpl in HG; lia | discriminate].
    - exact Hrows. }
  intros [[[mx0 my0] mx1] my1] (Hx0 & Hx1 & Hy0 & Hy1). cbv beta iota zeta.
  destruct (pad_ok K K_lawful images _ _ _ _ mx0 mx1 my0 my1
              Hs channels_pos Hx0 Hx1 Hy0 Hy1) as (t1 & E1 & S1 & W1).
  eapply (launches_bind _ _ (fun t => t = t1) _ [L_pad]).
  { eapply launches_call; [exact E1 | reflexivity]. }
  intros ? ->.
  destruct (upsample2d_ok K K_lawful t1 (Hz_geom self) _ _ _ _
              S1 Hz_geom_taps) as (t2 & E2 & S2 & W2).
  eapply (launches_bind _ _ (fun t => t = t2) _ [L_upsample2d]).
  { eapply launches_call; [exact E2 | reflexivity]. }
  intros ? ->.
  eapply (launches_bind _ _ _ _ []).
  { apply yields_launches. eapply two_over_yields.
    - rewrite S2. reflexivity.
    - lia. }
  intros sx _.
  eapply (launches_bind _ _ _ _ []).
  { apply yields_launches. eapply two_over_yields.
    - rewrite S2. reflexivity.
    - lia. }
  intros sy _.
  eapply (launches_bind _ _ _ _ []).
  { apply yields_launches. eapply two_over_yields.
    - reflexivity.
    - lia. }
  intros tx _.
  eapply (launches_bind _ _ _ _ []).
  { apply yields_launches. eapply two_over_yields.
    - reflexivity.
    - lia. }
  intros ty _.
  match goal with
  | |- context [affine_grid K ?theta ?size] =>
      destruct (affine_grid_ok K K_lawful theta batch_size num_channels
                  ((height + length (Hz_geom self) / 4 * 2) * 2)%nat
                  ((width + length (Hz_geom self) / 4 * 2) * 2)%nat)
        as (g & Eg & Sg)
  end.
  { rewrite !length_map. exact HG. }
  eapply (launches_bind _ _ (fun t => t = g) _ [L_affine_grid]).
  { eapply launches_call; [exact Eg | reflexivity]. }
  intros ? ->.
  destruct (grid_sample_ok K K_lawful t2 g _ _ _ _ _ _ S2 Sg)
    as (t3 & E3 & S3 & W3).
  eapply (launches_bind _ _ (fun t => t = t3) _ [L_grid_sample]).
  { eapply launches_call; [exact E3 | reflexivity]. }
  intros ? ->.
  destruct (downsample2d_ok K K_lawful t3 (Hz_geom self) _ _ _ _
              (- Z.of_nat (length (Hz_geom self) / 4) * 2)%Z true S3)
    as (t4 & E4 & S4 & W4).
  { rewrite downsampled_restores. lia. }
  { rewrite downsampled_restores. lia. }
  eapply launches_call; [exact E4|].
  split; [|exact W4].
  rewrite S4, !downsampled_restores, !Nat2Z.id. reflexivity.
Qed.

End Executed.

End Geometric.

(* ------------------------------------------------------------------ *)
(** ** Shapes through the stages *)

Module Shapes.

Import Scalar Mat Tensor Eff Kernels Builders Pipe Select Forward Config Run Outcome.
Import Contract Accumulate Geometric Selections Index Cutout Identity.
Local Open Scope eff_scope.

(** The filter bank has four rows of 43 taps. *)
Lemma make_fbank_shape (a b c d : R) :
  length (make_fbank [a; b; c; d]) = 4%nat
  /\ ncols (make_fbank [a; b; c; d]) = 43%nat.
Proof. split; reflexivity. Qed.

Lemma init_fbank_shape (K : kernels) (wavelets : wavelet_table)
  (o : options) :
  table_ok wavelets ->
  length (Hz_fbank (init K wavelets o)) = 4%nat
  /\ ncols (Hz_fbank (init K wavelets o)) = 43%nat.
Proof.
  intros (H2 & _). simpl.
  destruct (sym2 wavelets) as [|a [|b [|c [|d [|]]]]]; try discriminate H2.
  apply make_fbank_shape.
Qed.

Lemma init_geom_taps (K : kernels) (wavelets : wavelet_table)
  (o : options) :
  lawful K -> table_ok wavelets -> Hz_geom (init K wavelets o) <> [].
Proof.
  intros HK (_ & H6) E. simpl in E.
  pose proof (setup_filter_length K HK (sym6 wavelets)) as L.
  rewrite E, H6 in L. discriminate L.
Qed.

Lemma reshape_yields (t : tensor) (s : list nat) :
  numel (shape t) = numel s -> wf t ->
  yields (reshape t s) (fun t' => shape t' = s /\ wf t').
Proof.
  intros E W. unfold reshape.
  rewrite (proj2 (Nat.eqb_eq _ _) E).
  apply yields_ret. split; [reflexivity|].
  unfold wf in *. simpl. congruence.
Qed.

Section Stage.

Variable K : kernels.
Variable self : AugmentPipe.
Variable dbg : option R.
Variables batch_size num_channels height width : nat.

Let o := opt self.
Let good (t : tensor) : Prop :=
  shape t = [batch_size; num_channels; height; width] /\ wf t.

Hypothesis K_lawful : lawful K.

Lemma geometric_stage_shape (images : tensor) :
  Hz_geom self <> [] -> (1 <= height)%nat -> (1 <= width)%nat ->
  (1 <= num_channels)%nat ->
  (existsb positive (geometric_multipliers o) = true ->
   (1 <= batch_size)%nat) ->
  good images ->
  launches
    (geometric_stage K self dbg batch_size num_channels height width images)
    good
    (if existsb positive (geometric_multipliers o)
     then [L_pad; L_upsample2d; L_affine_grid; L_grid_sample;
           L_downsample2d]
     else []).
Proof.
  intros Hz Hh Hw Hc Hn (Hs & Hwf). unfold geometric_stage.
  eapply (launches_bind _ _ _ _ []).
  { apply yields_launches. apply accumulate_G_yields. }
  intros G (HB & HE). fold o in HE. rewrite <- HE.
  destruct G as [|G]; simpl.
  - apply yields_launches. apply yields_ret. split; assumption.
  - destruct HB as (HB1 & HB2).
    apply execute_geometric_restores_shape; try assumption.
    apply Hn. rewrite <- HE. reflexivity.
Qed.

Lemma execute_color_shape (images : tensor) (C : list mat) :
  num_channels = 1%nat \/ num_channels = 3%nat ->
  good images ->
  yields (execute_color batch_size num_channels height width images C) good.
Proof.
  intros Hc (Hs & Hwf). unfold execute_color.
  eapply yields_bind.
  { apply reshape_yields; [|exact Hwf]. rewrite Hs. simpl. lia. }
  intros t1 (S1 & W1).
  eapply yields_bind
    with (P := fun t => shape t = [batch_size; num_channels;
                                   (height * width)%nat] /\ wf t).
  { destruct Hc as [-> | ->]; simpl.
    - apply yields_ret. split; [exact S1|].
      unfold wf. simpl. rewrite tabulate3_length, S1. simpl. lia.
    - apply yields_ret. split; [exact S1|].
      unfold wf. simpl. rewrite tabulate3_length, S1. simpl. lia. }
  intros t2 (S2 & W2).
  apply reshape_yields; [|exact W2]. rewrite S2. simpl. lia.
Qed.

Lemma color_stage_shape (images : tensor) :
  num_channels = 1%nat \/ num_channels = 3%nat ->
  good images ->
  yields (color_stage K self dbg batch_size num_channels height width images)
         good.
Proof.
  intros Hc Hg. unfold color_stage.
  eapply yields_bind; [apply accumulate_C_yields|].
  intros C _. destruct C as [|C].
  - apply yields_ret. exact Hg.
  - apply execute_color_shape; assumption.
Qed.

Lemma band_gains_yields (num_bands : nat) (expected_power : list R)
  (bands : list R) :
  forall i g,
  yields (band_gains K self dbg batch_size num_bands expected_power
            i bands g)
         (fun _ => True).
Proof.
  induction bands as [|b bands IH]; intros i g; simpl.
  - apply yields_ret. exact I.
  - eapply yields_bind; [apply select_band_selected|].
    intros t_i _. apply IH.
Qed.

Lemma pointwise_shape (images : tensor) f :
  good images ->
  yields (pointwise batch_size num_channels height width images f) good.
Proof.
  intros (Hs & Hwf) w. do 2 eexists.
  split; [apply pointwise_runs; exact Hs|].
  repeat split. unfold wf. simpl. rewrite tabulate4_length. lia.
Qed.

Lemma add_noise_shape (images : tensor) :
  good images ->
  yields (add_noise K self dbg batch_size num_channels height width images)
         good.
Proof.
  intro Hg. unfold add_noise.
  eapply yields_bind; [apply select_noise_selected|]. intros sigma _.
  eapply yields_bind; [apply yields_randn|]. intros r _.
  apply pointwise_shape. exact Hg.
Qed.

Lemma apply_cutout_shape (images : tensor) :
  good images ->
  yields (apply_cutout self dbg batch_size num_channels height width images)
         good.
Proof.
  intro Hg. unfold apply_cutout.
  eapply yields_bind; [apply select_cutout_selected|].
  intros (size & center) _. apply pointwise_shape. exact Hg.
Qed.

(** The loop over the bands keeps one row of gains for each image. *)
Lemma band_gains_rows (num_bands : nat) (expected_power : list R)
  (bands : list R) :
  forall i g, length g = batch_size ->
  yields (band_gains K self dbg batch_size num_bands expected_power
            i bands g)
         (fun g' => length g' = batch_size).
Proof.
  induction bands as [|b bands IH]; intros i g Hg; simpl.
  - apply yields_ret. exact Hg.
  - eapply yields_bind; [apply select_band_selected|].
    intros t_i (Ht & _). apply IH.
    unfold map2. rewrite length_map, length_combine, !length_map, Hg, Ht.
    apply Nat.min_id.
Qed.

Lemma concat_repeat_length {A} (r : list A) (c : nat) :
  length (concat (repeat r c)) = (c * length r)%nat.
Proof.
  induction c as [|c IH]; [reflexivity|].
  cbn [repeat concat]. rewrite length_app, IH. lia.
Qed.

(** The number of coefficients of the filters of all the groups. *)
Lemma filters_length (g Hz : list (list R)) (channels : nat) :
  length (flat_map (fun hz => concat (repeat hz channels)) (mul g Hz))
  = (length g * channels * ncols Hz)%nat.
Proof.
  unfold mul. induction g as [|r g IH]; [reflexivity|].
  cbn [map flat_map length].
  rewrite length_app, IH, concat_repeat_length, length_map, length_seq.
  lia.
Qed.

Lemma infer_last_yields (t : list R) (k n : nat) :
  (1 <= k)%nat -> length t = (k * n)%nat ->
  yields (infer_last t k) (fun x => x = n).
Proof.
  intros Hk Ht. unfold infer_last.
  destruct k as [|k]; [lia|]. cbn [Nat.eqb]. rewrite Ht.
  rewrite (Nat.mul_comm (S k) n), Nat.Div0.mod_mul, Nat.div_mul by lia.
  cbn [Nat.eqb]. apply yields_ret. reflexivity.
Qed.

(** The inference of the number of taps returns in the state it is given,
    or raises the runtime error. *)
Lemma infer_last_cases (t : list R) (k : nat) (w : world) :
  infer_last t k w = Raise RuntimeError
  \/ exists n, infer_last t k w = Ok (n, w).
Proof.
  unfold infer_last.
  destruct (k =? 0)%nat; [left; reflexivity|].
  destruct (length t mod k =? 0)%nat; [right; eexists|left]; reflexivity.
Qed.

Lemma image_filter_shape (images : tensor) :
  good images ->
  length (imgfilter_bands o) = length (Hz_fbank self) ->
  ncols (Hz_fbank self) = 43%nat ->
  (22 <= height)%nat -> (22 <= width)%nat ->
  (1 <= batch_size)%nat -> (1 <= num_channels)%nat ->
  launches
    (image_filter K self dbg batch_size num_channels height width images)
    good [L_pad; L_conv2d; L_conv2d].
Proof.
  intros (Hs & Hwf) Hbands Htaps Hh Hw Hn Hc. unfold image_filter. fold o.
  rewrite (proj2 (Nat.eqb_eq _ _) Hbands). cbv zeta. simpl negb. cbv iota.
  rewrite Htaps.
  eapply (launches_bind _ _ _ _ []).
  { apply yields_launches. apply band_gains_rows. apply repeat_length. }
  intros g Hg.
  eapply (launches_bind _ _ (fun n => n = 43%nat) _ []).
  { apply yields_launches. apply infer_last_yields; [nia|].
    rewrite filters_length, Hg, Htaps. reflexivity. }
  intros ? ->.
  eapply (launches_bind _ _ _ _ []).
  { apply yields_launches. apply reshape_yields; [|exact Hwf].
    rewrite Hs. simpl. lia. }
  intros t1 (S1 & W1).
  change (43 / 2)%nat with 21%nat.
  destruct (pad_ok K K_lawful t1 _ _ _ _ 21 21 21 21 S1)
    as (t2 & E2 & S2 & W2); try lia; try nia.
  eapply (launches_bind _ _ (fun t => t = t2) _ [L_pad]).
  { eapply launches_call; [exact E2 | reflexivity]. }
  intros ? ->.
  match goal with
  | |- context [conv2d K t2 ?wt ?g] =>
      destruct (conv2d_ok K K_lawful t2 wt g _ _ 1%nat 43%nat S2
                  eq_refl) as (t3 & E3 & S3 & W3); try lia; try nia
  end.
  eapply (launches_bind _ _ (fun t => t = t3) _ [L_conv2d]).
  { eapply launches_call; [exact E3 | reflexivity]. }
  intros ? ->.
  match goal with
  | |- context [conv2d K t3 ?wt ?g] =>
      destruct (conv2d_ok K K_lawful t3 wt g _ _ 43%nat 1%nat S3
                  eq_refl) as (t4 & E4 & S4 & W4); try lia; try nia
  end.
  eapply (launches_bind _ _ (fun t => t = t4) _ [L_conv2d]).
  { eapply launches_call; [exact E4 | reflexivity]. }
  intros ? ->.
  apply yields_launches. apply reshape_yields; [|exact W4].
  rewrite S4.
  replace (Z.to_nat (Z.of_nat height + 21 + 21) - 1 + 1 - 43 + 1)%nat
    with height by lia.
  replace (Z.to_nat (Z.of_nat width + 21 + 21) - 43 + 1 - 1 + 1)%nat
    with width by lia.
  simpl. lia.
Qed.

(** The reflection padding of the image filter, 21 pixels on every side,
    is refused on an image that is not larger than that. *)
Lemma image_filter_small_image (images : tensor) (w : world) :
  good images ->
  length (imgfilter_bands o) = length (Hz_fbank self) ->
  ncols (Hz_fbank self) = 43%nat ->
  (height <= 21)%nat \/ (width <= 21)%nat ->
  image_filter K self dbg batch_size num_channels height width images w
  = Raise RuntimeError.
Proof.
  intros (Hs & Hwf) Hbands Htaps Hsmall. unfold image_filter. fold o.
  rewrite (proj2 (Nat.eqb_eq _ _) Hbands). cbv zeta. simpl negb. cbv iota.
  rewrite Htaps. revert w.
  eapply launches_then_raise.
  { apply yields_launches. apply band_gains_yields. }
  intros g w _. unfold bind at 1.
  match goal with
  | |- context [infer_last ?t ?k w] =>
      destruct (infer_last_cases t k w) as [-> | (n & ->)]; [reflexivity|]
  end.
  revert w.
  eapply launches_then_raise.
  { apply yields_launches. apply reshape_yields; [|exact Hwf].
    rewrite Hs. simpl. lia. }
  intros t1 w (S1 & _).
  unfold bind. change (43 / 2)%nat with 21%nat.
  rewrite (pad_too_large K K_lawful t1 _ _ _ _ (Z.of_nat 21) (Z.of_nat 21)
             (Z.of_nat 21) (Z.of_nat 21) S1) by lia.
  reflexivity.
Qed.

End Stage.

End Shapes.

(* ------------------------------------------------------------------ *)
(** ** When the geometric execution runs *)

Module Executor.

Import Scalar Mat Tensor Eff Kernels Builders Pipe Select Forward Config Run.
Import Outcome Contract Accumulate Geometric Shapes Blocks.
Local Open Scope eff_scope.

(** C3, as the code has it. [G_inv] is a new tensor exactly when a
    geometric block is entered, that is when one of the seven geometric
    multipliers is positive, whatever the parameters selected there.  If
    none is positive, then [G_inv] is still the object [I_3], the five
    steps of the geometric execution are skipped and the batch passes
    through the stage unchanged: no random number is drawn and no kernel
    is launched.  If one is positive, the execution is entered: on a
    batch of at least one image, one channel and one pixel in each
    direction (with kernels that honour their contracts, a low-pass
    filter that is not empty and a [debug_percentile] strictly between 0
    and 1, if any) the five steps run, in their order, and give a batch
    of the shape of the input; on an empty batch the stage raises an
    exception. *)
Theorem geometric_stage_runs_exactly_when_entered
  (K : kernels) (self : AugmentPipe) (debug_percentile : option R)
  (batch_size num_channels height width : nat) (images : tensor)
  (w : world) :
  (exists G_inv w',
     accumulate_G K self debug_percentile batch_size height width w
     = Ok (G_inv, w')
     /\ is_not_eye G_inv
        = existsb positive (geometric_multipliers (opt self)))
  /\ (none_positive (geometric_multipliers (opt self)) ->
      accumulate_G K self debug_percentile batch_size height width w
      = Ok (Eye, w)
      /\ geometric_stage K self debug_percentile batch_size num_channels
           height width images w
         = Ok (images, w))
  /\ (existsb positive (geometric_multipliers (opt self)) = true ->
      lawful K -> Hz_geom self <> [] ->
      shape images = [batch_size; num_channels; height; width] ->
      wf images ->
      (1 <= batch_size)%nat -> (1 <= num_channels)%nat ->
      (1 <= height)%nat -> (1 <= width)%nat ->
      (forall d, debug_percentile = Some d -> 0 < d < 1) ->
      exists out w',
        geometric_stage K self debug_percentile batch_size num_channels
          height width images w
        = Ok (out, w')
        /\ trace w'
           = trace w ++ [L_pad; L_upsample2d; L_affine_grid; L_grid_sample;
                         L_downsample2d]
        /\ shape out = [batch_size; num_channels; height; width])
  /\ (existsb positive (geometric_multipliers (opt self)) = true ->
      batch_size = 0%nat ->
      exists e,
        geometric_stage K self debug_percentile batch_size num_channels
          height width images w
        = Raise e).
Proof.
  split; [|split; [|split]].
  - destruct (accumulate_G_yields K self debug_percentile batch_size
                height width w) as (G & w' & E & (_ & HE) & _).
    exists G, w'. split; [exact E | exact HE].
  - intro Hoff. apply geometric_stage_idle. exact Hoff.
  - intros Hon HK Hz Hs Hwf Hn Hc Hh Hw _.
    destruct (geometric_stage_shape K self debug_percentile batch_size
                num_channels height width HK images Hz Hh Hw Hc
                (fun _ => Hn) (conj Hs Hwf) w)
      as (out & w' & E & (S & _) & T & _).
    rewrite Hon in T. exists out, w'. repeat split; assumption.
  - intros Hon ->. exists RuntimeError. unfold geometric_stage, bind.
    destruct (accumulate_G_yields K self debug_percentile 0 height width w)
      as (G & w1 & -> & (HB & HE) & _).
    rewrite Hon in HE. destruct G as [|ms]; [discriminate HE|].
    destruct HB as (Hlen & _). destruct ms; [|discriminate Hlen].
    reflexivity.
Qed.

End Executor.

(* ------------------------------------------------------------------ *)
(** ** Shape of the result of [forward] *)

Module ShapeInvariance.

Import Scalar Mat Tensor Eff Kernels Builders Pipe Select Forward Config Run Outcome.
Import Contract Accumulate Geometric Selections Index Cutout Identity Shapes.
Local Open Scope eff_scope.

Lemma launches_returns {A} (m : M A) (P : A -> Prop) ls (w : world) :
  launches m P ls -> exists a w', m w = Ok (a, w') /\ P a.
Proof.
  intro H. destruct (H w) as (a & w' & E & Pa & _). eauto.
Qed.

Lemma corruption_stage_shape (K : kernels) (self : AugmentPipe)
  (dbg : option R) (batch_size num_channels height width : nat)
  (images : tensor) :
  lawful K ->
  shape images = [batch_size; num_channels; height; width] /\ wf images ->
  (0 < imgfilter (opt self) ->
   length (imgfilter_bands (opt self)) = length (Hz_fbank self)
   /\ ncols (Hz_fbank self) = 43%nat
   /\ (22 <= height)%nat /\ (22 <= width)%nat
   /\ (1 <= batch_size)%nat /\ (1 <= num_channels)%nat) ->
  launches
    (corruption_stage K self dbg batch_size num_channels height width images)
    (fun t => shape t = [batch_size; num_channels; height; width] /\ wf t)
    (if positive (imgfilter (opt self)) then [L_pad; L_conv2d; L_conv2d]
     else []).
Proof.
  intros HK Hg Hf. unfold corruption_stage. cbv zeta.
  replace (if positive (imgfilter (opt self))
           then [L_pad; L_conv2d; L_conv2d] else [])
    with ((if positive (imgfilter (opt self))
           then [L_pad; L_conv2d; L_conv2d] else []) ++ [])
    by apply app_nil_r.
  eapply launches_bind.
  { destruct (positive (imgfilter (opt self))) eqn:E.
    - apply ScalarFacts.ltb_spec in E.
      destruct (Hf E) as (H1 & H2 & H3 & H4 & H5 & H6).
      apply image_filter_shape; assumption.
    - apply yields_launches. apply yields_ret. exact Hg. }
  intros t1 Hg1.
  eapply (launches_bind _ _ _ _ []).
  { apply yields_launches.
    destruct (positive (noise (opt self))).
    - apply add_noise_shape. exact Hg1.
    - apply yields_ret. exact Hg1. }
  intros t2 Hg2.
  eapply (launches_bind _ _ _ _ []).
  { apply yields_launches.
    destruct (positive (cutout (opt self))).
    - apply apply_cutout_shape. exact Hg2.
    - apply yields_ret. exact Hg2. }
  intros t3 Hg3. apply yields_launches. apply yields_ret. exact Hg3.
Qed.

(** C6, as the code has it. Let the kernels honour their contracts and
    the table of wavelets have its two lengths.  For a batch of shape
    [N, C, H, W] with [C] equal to 1 or 3 and [H], [W] at least 1, with at
    least one element when a geometric block is entered or the image
    filter is enabled, and, when the image filter is enabled, with four
    band strengths and [H], [W] at least 22 (the filter pads by reflection
    21 pixels on every side), [forward] returns, for every strength, every
    [debug_percentile] strictly between 0 and 1 (or none) and every state
    of the generator, a tensor of the shape of its input. *)
Theorem forward_preserves_shape
  (K : kernels) (wavelets : wavelet_table) (o : options) (strength : R)
  (images : tensor) (debug_percentile : option R) (w : world)
  (N C H W : nat) :
  lawful K -> table_ok wavelets ->
  shape images = [N; C; H; W] -> wf images ->
  C = 1%nat \/ C = 3%nat -> (1 <= H)%nat -> (1 <= W)%nat ->
  (forall d, debug_percentile = Some d -> 0 < d < 1) ->
  (existsb positive (geometric_multipliers o) = true -> (1 <= N)%nat) ->
  (0 < imgfilter o ->
   length (imgfilter_bands o) = 4%nat /\ (22 <= H)%nat /\ (22 <= W)%nat
   /\ (1 <= N)%nat) ->
  exists out w',
    forward K (set_p (init K wavelets o) strength) images debug_percentile w
    = Ok (out, w')
    /\ shape out = shape images /\ wf out.
Proof.
  intros HK Ht Hs Hwf HC HH HW _ HN Hf.
  assert (HC1 : (1 <= C)%nat) by lia.
  set (self := set_p (init K wavelets o) strength).
  destruct (init_fbank_shape K wavelets o Ht) as (Hrows & Htaps).
  assert (Hstage :
    launches (forward K self images debug_percentile)
      (fun t => shape t = [N; C; H; W] /\ wf t)
      ((if existsb positive (geometric_multipliers o)
        then [L_pad; L_upsample2d; L_affine_grid; L_grid_sample;
              L_downsample2d]
        else [])
       ++ [] ++
       (if positive (imgfilter o) then [L_pad; L_conv2d; L_conv2d]
        else []))).
  { unfold forward. rewrite Hs.
    eapply launches_bind.
    { apply geometric_stage_shape; try assumption.
      - apply (init_geom_taps K wavelets o HK Ht).
      - split; assumption. }
    intros t1 Hg1.
    eapply launches_bind.
    { apply yields_launches. apply color_stage_shape; assumption. }
    intros t2 Hg2.
    apply (corruption_stage_shape K self); try assumption.
    intro Hpos. destruct (Hf Hpos) as (H1 & H2 & H3 & H4).
    split; [simpl; congruence|].
    split; [exact Htaps|]. repeat split; assumption. }
  destruct (launches_returns _ _ _ w Hstage) as (out & w' & E & S & Wf).
  exists out, w'. rewrite Hs. auto.
Qed.

End ShapeInvariance.

(* ------------------------------------------------------------------ *)
(** ** Unsupported numbers of channels *)

Module Channels.

Import Scalar Mat Tensor Eff Kernels Builders Pipe Select Forward Config Run Outcome.
Import Accumulate Identity.
Local Open Scope eff_scope.

Section Invalid.

Variable K : kernels.
Variable self : AugmentPipe.
Variable dbg : option R.
Variables batch_size num_channels height width : nat.

Hypothesis not_gray : num_channels <> 1%nat.
Hypothesis not_rgb : num_channels <> 3%nat.

(** With a colour transform pending, the colour execution raises: the
    error of the channel test when the reshaping before it succeeds. *)
Lemma color_stage_raises (images : tensor) (w : world) :
  color_pending (opt self) num_channels = true ->
  exists e,
    color_stage K self dbg batch_size num_channels height width images w
    = Raise e
    /\ (numel (shape images)
        = numel [batch_size; num_channels; height; width] ->
        e = ValueError).
Proof.
  intro Hp. unfold color_stage, bind.
  destruct (accumulate_C_yields K self dbg batch_size num_channels w)
    as (C & w1 & -> & (_ & HE) & _).
  rewrite Hp in HE. destruct C as [|C]; [discriminate HE|].
  unfold execute_color, bind, reshape.
  destruct (numel (shape images)
            =? numel [batch_size; num_channels; (height * width)%nat])%nat
    eqn:En.
  - unfold ret.
    rewrite (proj2 (Nat.eqb_neq _ _) not_rgb).
    rewrite (proj2 (Nat.eqb_neq _ _) not_gray).
    exists ValueError. split; reflexivity.
  - exists RuntimeError. split; [reflexivity|].
    intro E. apply Nat.eqb_neq in En. exfalso. apply En.
    rewrite E. simpl. lia.
Qed.

End Invalid.

(** With no colour transform pending, the colour stage returns its input
    and raises nothing. *)
Lemma color_stage_idle (K : kernels) (self : AugmentPipe) (dbg : option R)
  (batch_size num_channels height width : nat) (images : tensor)
  (w : world) :
  color_pending (opt self) num_channels = false ->
  color_stage K self dbg batch_size num_channels height width images w
  = Ok (images, w).
Proof.
  unfold color_pending. intro Hp.
  repeat (apply orb_false_elim in Hp; destruct Hp as (Hp & ?)).
  unfold color_stage, accumulate_C, apply_brightness, apply_contrast,
    apply_lumaflip, apply_hue, apply_saturation.
  repeat match goal with
         | H : _ = false |- _ => rewrite H; clear H
         end.
  reflexivity.
Qed.

(** C4, as the code has it. For a batch whose number of channels is
    neither 1 nor 3: if a colour transform is pending (the multiplier of
    the brightness, of the contrast or of the luma flip is positive, or
    that of the hue or of the saturation is positive and there is more than
    one channel), [forward] returns no output, and the error raised is the
    invalid-input error [ValueError] as soon as the geometric stage has
    returned a batch with the number of elements of the input; if no colour
    transform is pending, the colour stage is skipped and raises
    nothing. *)
Theorem unsupported_channels_raise_when_color_pending
  (K : kernels) (self : AugmentPipe) (images : tensor)
  (debug_percentile : option R) (w : world) (N C H W : nat) :
  shape images = [N; C; H; W] -> C <> 1%nat -> C <> 3%nat ->
  (color_pending (opt self) C = true ->
   (forall out w',
      forward K self images debug_percentile w <> Ok (out, w'))
   /\ (forall images' w',
         geometric_stage K self debug_percentile N C H W images w
         = Ok (images', w') ->
         numel (shape images') = numel (shape images) ->
         forward K self images debug_percentile w = Raise ValueError))
  /\ (color_pending (opt self) C = false ->
      forall images' w',
        color_stage K self debug_percentile N C H W images' w'
        = Ok (images', w')).
Proof.
  intros Hs H1 H3. split.
  - intro Hp. split.
    + intros out w' E. unfold forward in E. rewrite Hs in E.
      unfold bind at 1 in E.
      destruct (geometric_stage K self debug_percentile N C H W images w)
        as [[t1 w1]|e]; [|discriminate E].
      unfold bind at 1 in E.
      destruct (color_stage_raises K self debug_percentile N C H W
                  H1 H3 t1 w1 Hp) as (e & Ee & _).
      rewrite Ee in E. discriminate E.
    + intros t1 w1 Eg En. unfold forward. rewrite Hs.
      unfold bind at 1. rewrite Eg. unfold bind at 1.
      destruct (color_stage_raises K self debug_percentile N C H W
                  H1 H3 t1 w1 Hp) as (e & Ee & Hv).
      rewrite Ee. f_equal. apply Hv. rewrite En, Hs. reflexivity.
  - intros Hp t1 w1. apply color_stage_idle. exact Hp.
Qed.

End Channels.

(* ------------------------------------------------------------------ *)
(** ** Independence of the random generator under [debug_percentile] *)

Module Debug.

Import Scalar Mat Tensor Eff Kernels Builders Pipe Select Forward Config Run Outcome.
Import Selections Identity.
Local Open Scope eff_scope.

Lemma constant_ret {A} (a : A) : constant (ret a).
Proof. intros w1 w2. reflexivity. Qed.

Lemma constant_raise {A} (e : exn) : constant (@raise A e).
Proof. intros w1 w2. reflexivity. Qed.

Lemma constant_call {A} (l : launch) (r : result A) : constant (call l r).
Proof. intros w1 w2. unfold call. destruct r; reflexivity. Qed.

Lemma constant_bind {A B} (m : M A) (k : A -> M B) :
  constant m -> (forall a, constant (k a)) -> constant (bind m k).
Proof.
  intros Hm Hk w1 w2. unfold bind.
  specialize (Hm w1 w2).
  destruct (m w1) as [[a1 u1]|e1], (m w2) as [[a2 u2]|e2];
    simpl in Hm; try discriminate Hm.
  - injection Hm as ->. apply Hk.
  - injection Hm as ->. reflexivity.
Qed.

Lemma constant_if {A} (b : bool) (m1 m2 : M A) :
  constant m1 -> constant m2 -> constant (if b then m1 else m2).
Proof. destruct b; auto. Qed.

Lemma yields_eq_constant {A} (m : M A) (a : A) :
  yields m (eq a) -> constant m.
Proof.
  intros H w1 w2.
  destruct (H w1) as (a1 & u1 & -> & <- & _).
  destruct (H w2) as (a2 & u2 & -> & <- & _).
  reflexivity.
Qed.

Lemma selected_constant {A} (m : M (list A)) (n : nat) (d : R)
  (x : R -> A) :
  yields m (selected n (Some d) x) -> constant m.
Proof.
  intro H. apply (yields_eq_constant m (repeat (x d) n)).
  eapply yields_weaken; [exact H|].
  intros v (_ & Hv). symmetry. apply Hv. reflexivity.
Qed.

Lemma reshape_constant (t : tensor) (s : list nat) : constant (reshape t s).
Proof.
  unfold reshape. apply constant_if;
    [apply constant_ret | apply constant_raise].
Qed.

Lemma infer_last_constant (t : list R) (k : nat) :
  constant (infer_last t k).
Proof.
  unfold infer_last. apply constant_if; [apply constant_raise|].
  apply constant_if; [apply constant_ret | apply constant_raise].
Qed.

Lemma pointwise_constant (n c h w : nat) (t : tensor) f :
  constant (pointwise n c h w t f).
Proof.
  unfold pointwise. destruct (list_eq_dec _ _ _);
    [apply constant_ret | apply constant_raise].
Qed.

Section Fixed.

Variable K : kernels.
Variable self : AugmentPipe.
Variable d : R.
Variables batch_size num_channels height width : nat.

Let dbg := Some d.

Ltac block sel :=
  apply constant_if; [|apply constant_ret];
  apply constant_bind;
  [eapply selected_constant; apply sel
  |intro; apply constant_ret].

Lemma accumulate_G_constant :
  constant (accumulate_G K self dbg batch_size height width).
Proof.
  unfold accumulate_G.
  apply constant_bind; [block select_xflip_selected|intro].
  apply constant_bind; [block select_rotate90_selected|intro].
  apply constant_bind; [block select_xint_selected|intro].
  apply constant_bind; [block select_scale_selected|intro].
  apply constant_bind; [block select_rotate_pre_selected|intro].
  apply constant_bind; [block select_aniso_selected|intro].
  apply constant_bind; [block select_rotate_post_selected|intro].
  apply constant_bind; [block select_xfrac_selected|intro].
  apply constant_ret.
Qed.

Lemma calculate_padding_constant (G_inv : list mat) :
  constant (calculate_padding self height width G_inv).
Proof.
  unfold calculate_padding. cbv zeta.
  repeat match goal with
         | |- constant (match ?x with _ => _ end) => destruct x
         end;
    try apply constant_ret; apply constant_raise.
Qed.

Lemma two_over_constant (s : list nat) (k : nat) : constant (two_over s k).
Proof.
  unfold two_over. destruct (nth_error s k) as [[|n]|];
    try apply constant_ret; apply constant_raise.
Qed.

Lemma execute_geometric_constant (images : tensor) (G_inv : list mat) :
  constant (execute_geometric K self batch_size num_channels height width
              images G_inv).
Proof.
  unfold execute_geometric.
  apply constant_bind; [apply calculate_padding_constant|].
  intros [[[mx0 my0] mx1] my1]. cbv beta iota zeta.
  apply constant_bind; [apply constant_call|intro].
  apply constant_bind; [apply constant_call|intro].
  apply constant_bind; [apply two_over_constant|intro].
  apply constant_bind; [apply two_over_constant|intro].
  apply constant_bind; [apply two_over_constant|intro].
  apply constant_bind; [apply two_over_constant|intro].
  apply constant_bind; [apply constant_call|intro].
  apply constant_bind; [apply constant_call|intro].
  apply constant_call.
Qed.

Lemma geometric_stage_constant (images : tensor) :
  constant (geometric_stage K self dbg batch_size num_channels height width
              images).
Proof.
  unfold geometric_stage.
  apply constant_bind; [apply accumulate_G_constant|].
  intros [|G]; [apply constant_ret | apply execute_geometric_constant].
Qed.

Lemma accumulate_C_constant :
  constant (accumulate_C K self dbg batch_size num_channels).
Proof.
  unfold accumulate_C.
  apply constant_bind; [block select_brightness_selected|intro].
  apply constant_bind; [block select_contrast_selected|intro].
  apply constant_bind;
    [unfold apply_lumaflip; block select_lumaflip_selected|intro].
  apply constant_bind; [unfold apply_hue; block select_hue_selected|intro].
  apply constant_bind;
    [unfold apply_saturation; block select_saturation_selected|intro].
  apply constant_ret.
Qed.

Lemma execute_color_constant (images : tensor) (C : list mat) :
  constant (execute_color batch_size num_channels height width images C).
Proof.
  unfold execute_color.
  apply constant_bind; [apply reshape_constant|intro].
  apply constant_bind; [|intro; apply reshape_constant].
  repeat apply constant_if;
    try apply constant_ret; apply constant_raise.
Qed.

Lemma color_stage_constant (images : tensor) :
  constant (color_stage K self dbg batch_size num_channels height width
              images).
Proof.
  unfold color_stage.
  apply constant_bind; [apply accumulate_C_constant|].
  intros [|C]; [apply constant_ret | apply execute_color_constant].
Qed.

Lemma band_gains_constant (num_bands : nat) (expected_power : list R)
  (bands : list R) :
  forall i g,
  constant (band_gains K self dbg batch_size num_bands expected_power
              i bands g).
Proof.
  induction bands as [|b bands IH]; intros i g; simpl.
  - apply constant_ret.
  - apply constant_bind.
    + eapply selected_constant. apply select_band_selected.
    + intro. apply IH.
Qed.

Lemma image_filter_constant (images : tensor) :
  constant (image_filter K self dbg batch_size num_channels height width
              images).
Proof.
  unfold image_filter.
  apply constant_if; [apply constant_raise|]. cbv zeta.
  apply constant_bind; [apply band_gains_constant|intro].
  apply constant_bind; [apply infer_last_constant|intro].
  apply constant_bind; [apply reshape_constant|intro].
  apply constant_bind; [apply constant_call|intro].
  apply constant_bind; [apply constant_call|intro].
  apply constant_bind; [apply constant_call|intro].
  apply reshape_constant.
Qed.

Lemma apply_cutout_constant (images : tensor) :
  constant (apply_cutout self dbg batch_size num_channels height width
              images).
Proof.
  unfold apply_cutout.
  apply constant_bind.
  - apply (yields_eq_constant _
             (repeat (cutout_size (opt self), cutout_size (opt self))
                     batch_size,
              repeat (d, d) batch_size)).
    eapply yields_weaken; [apply select_cutout_selected|].
    intros (size & center) ((_ & H1) & (_ & H2)). simpl in *.
    rewrite (H1 d eq_refl), (H2 d eq_refl). reflexivity.
  - intros (size & center). apply pointwise_constant.
Qed.

Lemma corruption_stage_constant (images : tensor) :
  noise (opt self) <= 0 ->
  constant (corruption_stage K self dbg batch_size num_channels height
              width images).
Proof.
  intro Hn. unfold corruption_stage. cbv zeta.
  rewrite (positive_nonpos _ Hn).
  apply constant_bind;
    [apply constant_if; [apply image_filter_constant|apply constant_ret]
    |intro].
  apply constant_bind; [apply constant_ret|intro].
  apply constant_bind;
    [apply constant_if; [apply apply_cutout_constant|apply constant_ret]
    |intro].
  apply constant_ret.
Qed.

End Fixed.

(** C2, as the code has it. With a fixed [debug_percentile] and the
    additive noise not enabled (its multiplier is not positive), the
    result of [forward] (the returned tensor, or the error raised) is the
    same for every state of the random generator: two calls on the same
    batch with the same configuration return identical outputs.  The
    random numbers drawn on the way are discarded. *)
Theorem debug_output_ignores_generator
  (K : kernels) (self : AugmentPipe) (images : tensor) (d : R)
  (w1 w2 : world) :
  noise (opt self) <= 0 ->
  value (forward K self images (Some d) w1)
  = value (forward K self images (Some d) w2).
Proof.
  intro Hn. revert w1 w2.
  change (constant (forward K self images (Some d))).
  unfold forward.
  destruct (shape images) as [|n [|c [|h [|wd [|]]]]];
    try apply constant_raise.
  apply constant_bind; [apply geometric_stage_constant|intro].
  apply constant_bind; [apply color_stage_constant|intro].
  apply corruption_stage_constant. exact Hn.
Qed.

End Debug.

(* ------------------------------------------------------------------ *)
(** ** The shape-only kernels honour the contracts *)

Module ShapeOnly.

Import Scalar Mat Tensor Eff Kernels Pipe Contract.

Lemma zeros_wf (s : list nat) : wf (zeros s).
Proof. unfold wf, zeros. simpl. apply repeat_length. Qed.

Lemma in_range_true (x : Z) (d : nat) :
  (0 <= x < Z.of_nat d)%Z -> in_range x d = true.
Proof.
  intro H. unfold in_range. apply andb_true_intro. split.
  - apply Z.leb_le. lia.
  - apply Z.ltb_lt. lia.
Qed.

Lemma in_range_false (x : Z) (d : nat) :
  (Z.of_nat d <= x)%Z -> in_range x d = false.
Proof.
  intro H. unfold in_range. apply andb_false_intro2.
  apply Z.ltb_ge. exact H.
Qed.

Lemma shape_only_lawful : lawful shape_only.
Proof.
  constructor; simpl.
  - intros x H. exact H.
  - reflexivity.
  - intros t n c h w x0 x1 y0 y1 Hs Hc Hx0 Hx1 Hy0 Hy1. rewrite Hs.
    destruct c as [|c]; [lia|].
    rewrite !in_range_true by assumption. simpl.
    eexists. split; [reflexivity|]. split; [reflexivity | apply zeros_wf].
  - intros t n c h w x0 x1 y0 y1 Hs Hbig. rewrite Hs.
    destruct Hbig as [H|[H|[H|H]]]; rewrite (in_range_false _ _ H);
      rewrite ?andb_false_r; reflexivity.
  - intros t f n c h w Hs _. rewrite Hs.
    eexists. split; [reflexivity|]. split; [reflexivity | apply zeros_wf].
  - intros theta n c h w Hl. rewrite (proj2 (Nat.eqb_eq _ _) Hl).
    eexists. split; reflexivity.
  - intros t g n c h w h' w' Hs Hg. rewrite Hs, Hg, Nat.eqb_refl.
    eexists. split; [reflexivity|]. split; [reflexivity | apply zeros_wf].
  - intros t f n c h w padding flip Hs Hh Hw. rewrite Hs.
    rewrite (proj2 (Z.ltb_lt _ _) Hh), (proj2 (Z.ltb_lt _ _) Hw). simpl.
    eexists. split; [reflexivity|]. split; [reflexivity | apply zeros_wf].
  - intros t wt g h w kh kw Hs Hw Hg Hkh Hkw. rewrite Hs, Hw.
    destruct g as [|g]; [lia|].
    rewrite (proj2 (Nat.leb_le _ _) (proj2 Hkh)).
    rewrite (proj2 (Nat.leb_le _ _) (proj2 Hkw)). simpl.
    eexists. split; [reflexivity|]. split; [reflexivity | apply zeros_wf].
Qed.

Lemma unit_table_ok : table_ok unit_table.
Proof. split; reflexivity. Qed.

End ShapeOnly.

(* ------------------------------------------------------------------ *)
(** ** [forward] when only some stages are enabled *)

Module Reduce.

Import Scalar Mat Tensor Eff Kernels Builders Pipe Select Forward Config Run.
Import Outcome Identity.
Local Open Scope eff_scope.

Ltac use_signs :=
  repeat match goal with
         | H : Forall _ (_ :: _) |- _ => inversion_clear H
         end;
  repeat match goal with
         | H : _ <= 0 |- _ => rewrite (positive_nonpos _ H); clear H
         | H : 0 < _ |- _ => rewrite (positive_pos _ H); clear H
         end.

Ltac open_stages :=
  unfold geometric_stage, accumulate_G, apply_xflip, apply_rotate90,
    apply_xint, apply_scale, apply_rotate_pre, apply_aniso,
    apply_rotate_post, apply_xfrac,
    color_stage, accumulate_C, apply_brightness, apply_contrast,
    apply_lumaflip, apply_hue, apply_saturation.

Lemma forward_only_corruption (K : kernels) (self : AugmentPipe)
  (images : tensor) (dbg : option R) (w : world) (N C H W : nat) :
  shape images = [N; C; H; W] ->
  none_positive (geometric_multipliers (opt self)
                 ++ color_multipliers (opt self)) ->
  forward K self images dbg w
  = corruption_stage K self dbg N C H W images w.
Proof.
  intros Hs Hoff.
  unfold none_positive, geometric_multipliers, color_multipliers in Hoff.
  simpl in Hoff. unfold forward. rewrite Hs. open_stages. use_signs.
  reflexivity.
Qed.

Lemma bind_ret_r {A} (m : M A) (w : world) :
  bind m (fun a => ret a) w = m w.
Proof. unfold bind, ret. destruct (m w) as [[a w']|e]; reflexivity. Qed.

Lemma corruption_only_noise (K : kernels) (self : AugmentPipe)
  (dbg : option R) (N C H W : nat) (images : tensor) (w : world) :
  imgfilter (opt self) <= 0 -> 0 < noise (opt self) ->
  cutout (opt self) <= 0 ->
  corruption_stage K self dbg N C H W images w
  = add_noise K self dbg N C H W images w.
Proof.
  intros Hi Hn Hc. unfold corruption_stage. cbv zeta. use_signs.
  unfold bind at 1. unfold ret at 1. cbv beta iota.
  unfold bind at 1.
  destruct (add_noise K self dbg N C H W images w) as [[a w']|e];
    reflexivity.
Qed.

Lemma corruption_only_imgfilter (K : kernels) (self : AugmentPipe)
  (dbg : option R) (N C H W : nat) (images : tensor) (w : world) :
  0 < imgfilter (opt self) -> noise (opt self) <= 0 ->
  cutout (opt self) <= 0 ->
  corruption_stage K self dbg N C H W images w
  = image_filter K self dbg N C H W images w.
Proof.
  intros Hi Hn Hc. unfold corruption_stage. cbv zeta. use_signs.
  unfold bind at 1.
  destruct (image_filter K self dbg N C H W images w) as [[a w']|e];
    reflexivity.
Qed.

Lemma forward_only_geometric (K : kernels) (self : AugmentPipe)
  (images : tensor) (dbg : option R) (w : world) (N C H W : nat) :
  shape images = [N; C; H; W] ->
  none_positive (color_multipliers (opt self)
                 ++ [imgfilter (opt self); noise (opt self);
                     cutout (opt self)]) ->
  forward K self images dbg w
  = geometric_stage K self dbg N C H W images w.
Proof.
  intros Hs Hoff.
  unfold none_positive, color_multipliers in Hoff. simpl in Hoff.
  unfold forward. rewrite Hs.
  unfold color_stage, accumulate_C, apply_brightness, apply_contrast,
    apply_lumaflip, apply_hue, apply_saturation, corruption_stage.
  use_signs. unfold bind at 1.
  destruct (geometric_stage K self dbg N C H W images w) as [[a w']|e];
    reflexivity.
Qed.

End Reduce.

(* ------------------------------------------------------------------ *)
(** ** Concrete runs *)

Module Scenarios.

Import Scalar Mat Tensor Eff Kernels Builders Pipe Select Forward Config Run.
Import Outcome Identity Contract Examples Reduce Shapes Geometric ShapeOnly.
Import Selections Cutout Index.
Local Open Scope eff_scope.

Ltac signs :=
  unfold none_positive, all_zero, multipliers, geometric_multipliers,
    color_multipliers; simpl;
  repeat (apply Forall_cons; [first [reflexivity | lra]|]);
  apply Forall_nil.

(** C4, counterexample. A batch with two channels and the default
    configuration (every multiplier zero): [forward] raises nothing and
    returns the batch. *)
Lemma two_channels_pass_without_color :
  forward shape_only (pipe defaults) pixel2 None calm = Ok (pixel2, calm).
Proof.
  apply forward_idle; [reflexivity | signs].
Qed.

(** C6, counterexample. A valid batch of one image of one channel and one
    pixel, with the image filter enabled: the reflection padding by 21
    pixels is refused and [forward] returns no tensor. *)
Lemma image_filter_refuses_small_image :
  forward shape_only (pipe only_imgfilter) pixel None calm
  = Raise RuntimeError.
Proof.
  rewrite (forward_only_corruption _ _ _ _ _ 1 1 1 1)%nat;
    [|reflexivity|signs].
  rewrite corruption_only_imgfilter; try (simpl; lra).
  apply image_filter_small_image.
  - apply shape_only_lawful.
  - split; reflexivity.
  - reflexivity.
  - reflexivity.
  - left. lia.
Qed.

(** The additive noise on a batch of one pixel, under [debug_percentile],
    when every normal draw of the generator is [c]. *)
Lemma add_noise_pixel (K : kernels) (self : AugmentPipe) (d c : R)
  (w : world) :
  normal (gen w) = (fun _ => c) ->
  value (add_noise K self (Some d) 1 1 1 1 pixel w)
  = Ok (Tensor.mk [1; 1; 1; 1]%nat
          [0 + c * (erfinv K d * noise_std (opt self))]).
Proof.
  intro Hc. unfold add_noise. unfold bind at 1.
  destruct (select_noise_selected K self 1 (Some d) w)
    as (sigma & w1 & E & (_ & Hv) & _ & _ & Hn).
  rewrite E, (Hv d eq_refl). unfold bind, randn.
  rewrite pointwise_runs by reflexivity.
  unfold value, draws. rewrite Hn, Hc. reflexivity.
Qed.

(** With only the noise enabled, two generators that differ in their
    normal draws give two different outputs under the same
    [debug_percentile], whatever kernels honour the contracts. *)
Lemma noise_depends_on_generator (K : kernels) (wavelets : wavelet_table) :
  lawful K ->
  value (forward K (init K wavelets only_noise) pixel (Some (1 / 2)) calm)
  <> value (forward K (init K wavelets only_noise) pixel (Some (1 / 2))
              lively).
Proof.
  intro HK.
  rewrite !(forward_only_corruption _ _ _ _ _ 1 1 1 1)%nat;
    try reflexivity; try signs.
  rewrite !corruption_only_noise; try (simpl; lra).
  rewrite (add_noise_pixel _ _ _ 0 calm) by reflexivity.
  rewrite (add_noise_pixel _ _ _ 1 lively) by reflexivity.
  intro E. injection E as E.
  assert (H0 : erfinv K (1 / 2) = 0) by (simpl in E; lra).
  apply (erfinv_zero K HK) in H0. lra.
Qed.

(** C2, counterexample. The noise enabled, [debug_percentile] = 1/2, the
    same batch and the same configuration, and two states of the
    generator: the two outputs differ, because the noise field is drawn
    from the generator also when [debug_percentile] is given. *)
Lemma debug_noise_outputs_differ :
  value (forward shape_only (pipe only_noise) pixel (Some (1 / 2)) calm)
  <> value (forward shape_only (pipe only_noise) pixel (Some (1 / 2))
              lively).
Proof.
  apply (noise_depends_on_generator shape_only unit_table).
  apply shape_only_lawful.
Qed.

Lemma positive_one : positive 1 = true.
Proof. apply positive_pos. lra. Qed.

Lemma scale2d_inv_one : scale2d_inv (1 - 2 * 0) 1 = I_3.
Proof.
  unfold scale2d_inv, scale2d, I_3.
  replace (1 / (1 - 2 * 0)) with 1 by field.
  replace (1 / 1) with 1 by field. reflexivity.
Qed.

(** With the flip enabled and the strength zero, the switch of the flip
    fires for no uniform draw on [0, 1): the parameter is the identity
    value 0 and [G_inv] has the value of the identity matrix. *)
Lemma idle_flip_accumulates_identity :
  select_xflip idle_flip 1 None calm = Ok ([0], after 2 calm)
  /\ accumulate_G shape_only idle_flip None 1 1 1 calm
     = Ok (Fresh [I_3], after 2 calm).
Proof.
  assert (Hsel : select_xflip idle_flip 1 None calm
                 = Ok ([0], after 2 calm)).
  { unfold select_xflip, gated, bind, rand, ret, where_lt. simpl.
    rewrite ScalarFacts.ltb_false by lra. reflexivity. }
  split; [exact Hsel|].
  unfold accumulate_G, apply_xflip, apply_rotate90, apply_xint, apply_scale,
    apply_rotate_pre, apply_aniso, apply_rotate_post, apply_xfrac.
  simpl opt. unfold only_xflip, switches.
  cbn [xflip rotate90 xint scale rotate aniso xfrac].
  rewrite positive_one, positive_zero.
  cbv beta iota delta [bind ret]. rewrite Hsel. cbv beta iota.
  unfold matmul_r. cbn [map].
  rewrite scale2d_inv_one, MatFacts.mul_I_3_l; [reflexivity|].
  unfold is3x3, I_3. do 9 eexists. reflexivity.
Qed.

(** C3, counterexample. The flip is enabled, the strength is zero and
    [debug_percentile] is absent: no geometric augmentation fires, the
    accumulated [G_inv] has the value of the identity matrix, and yet the
    geometric execution runs its steps: the batch is padded, upsampled,
    resampled through the sampling grid and downsampled. *)
Lemma idle_flip_still_executes :
  select_xflip idle_flip 1 None calm = Ok ([0], after 2 calm)
  /\ accumulate_G shape_only idle_flip None 1 1 1 calm
     = Ok (Fresh [I_3], after 2 calm)
  /\ exists out w',
       forward shape_only idle_flip pixel None calm = Ok (out, w')
       /\ trace w' = [L_pad; L_upsample2d; L_affine_grid; L_grid_sample;
                      L_downsample2d].
Proof.
  split; [apply idle_flip_accumulates_identity|].
  split; [apply idle_flip_accumulates_identity|].
  rewrite (forward_only_geometric _ _ _ _ _ 1 1 1 1)%nat;
    [|reflexivity|signs].
  assert (L : launches
                (geometric_stage shape_only idle_flip None 1 1 1 1 pixel)
                (fun t => shape t = [1; 1; 1; 1]%nat /\ wf t)
                [L_pad; L_upsample2d; L_affine_grid; L_grid_sample;
                 L_downsample2d]).
  { pose proof (geometric_stage_shape shape_only idle_flip None 1 1 1 1
                  shape_only_lawful pixel) as G.
    simpl in G. rewrite positive_one in G. simpl in G.
    apply G; try lia; try discriminate. split; reflexivity. }
  destruct (L calm) as (out & w' & E & _ & T & _).
  exists out, w'. split; [exact E | exact T].
Qed.

End Scenarios.

(* ------------------------------------------------------------------ *)
(** ** The theorems at concrete inputs *)

Module Witnesses.

Import Scalar Mat Tensor Eff Kernels Builders Pipe Select Forward Config Run.
Import Outcome Identity Contract Examples Reduce Shapes Geometric ShapeOnly.
Import Selections Cutout Index Chance Scenarios.
Local Open Scope eff_scope.

(** The identity property on a batch of three channels, with the default
    configuration and a [debug_percentile]. *)
Lemma forward_all_zero_is_identity_witness :
  length (shape pixel3) = 4%nat
  /\ all_zero (multipliers (opt (pipe defaults)))
  /\ forward shape_only (pipe defaults) pixel3 (Some (1 / 2)) calm
     = Ok (pixel3, calm).
Proof.
  assert (H1 : length (shape pixel3) = 4%nat) by reflexivity.
  assert (H2 : all_zero (multipliers (opt (pipe defaults)))) by signs.
  exact (conj H1 (conj H2
    (forward_all_zero_is_identity shape_only (pipe defaults) pixel3
       (Some (1 / 2)) calm H1 H2))).
Defined.

(** The geometric stage with the cutout as the only enabled block, and
    with the flip enabled at the strength zero, on one image and on an
    empty batch. *)
Lemma geometric_stage_runs_exactly_when_entered_witness :
  (none_positive (geometric_multipliers (opt (pipe only_cutout)))
   /\ accumulate_G shape_only (pipe only_cutout) None 1 1 1 calm
      = Ok (Eye, calm)
   /\ geometric_stage shape_only (pipe only_cutout) None 1 1 1 1 pixel calm
      = Ok (pixel, calm))
  /\ (existsb positive (geometric_multipliers (opt idle_flip)) = true
      /\ exists out w',
           geometric_stage shape_only idle_flip None 1 1 1 1 pixel calm
           = Ok (out, w')
           /\ trace w'
              = trace calm ++ [L_pad; L_upsample2d; L_affine_grid;
                               L_grid_sample; L_downsample2d]
           /\ shape out = [1; 1; 1; 1]%nat)
  /\ (exists e,
        geometric_stage shape_only idle_flip None 0 1 1 1 no_image calm
        = Raise e).
Proof.
  assert (H : none_positive (geometric_multipliers (opt (pipe only_cutout))))
    by signs.
  assert (Hon : existsb positive (geometric_multipliers (opt idle_flip))
                = true).
  { unfold geometric_multipliers. simpl. rewrite positive_one. reflexivity. }
  split; [|split].
  - exact (conj H
      (proj1 (proj2 (Executor.geometric_stage_runs_exactly_when_entered
                       shape_only (pipe only_cutout) None 1 1 1 1 pixel
                       calm)) H)).
  - split; [exact Hon|].
    apply (proj1 (proj2 (proj2
             (Executor.geometric_stage_runs_exactly_when_entered
                shape_only idle_flip None 1 1 1 1 pixel calm)))).
    + exact Hon.
    + exact shape_only_lawful.
    + discriminate.
    + reflexivity.
    + reflexivity.
    + apply le_n.
    + apply le_n.
    + apply le_n.
    + apply le_n.
    + intros d Hd. discriminate Hd.
  - exact (proj2 (proj2 (proj2
             (Executor.geometric_stage_runs_exactly_when_entered
                shape_only idle_flip None 0 1 1 1 no_image calm)))
             Hon eq_refl).
Defined.



(** The cutout of half the image centred on the only pixel. *)
Lemma cutout_zeroes_the_rectangle_witness :
  select_cutout (pipe only_cutout) 1 (Some (1 / 2)) calm
  = Ok (([(0.5, 0.5)], [(1 / 2, 1 / 2)]), after 3 calm)
  /\ exists out,
       apply_cutout (pipe only_cutout) (Some (1 / 2)) 1 1 1 1 pixel calm
       = Ok (out, after 3 calm)
       /\ shape out = shape pixel.
Proof.
  assert (H : select_cutout (pipe only_cutout) 1 (Some (1 / 2)) calm
              = Ok (([(0.5, 0.5)], [(1 / 2, 1 / 2)]), after 3 calm))
    by reflexivity.
  split; [exact H|].
  destruct (cutout_zeroes_the_rectangle (pipe only_cutout) (Some (1 / 2))
              1 1 1 1 pixel calm (after 3 calm)
              [(0.5, 0.5)] [(1 / 2, 1 / 2)] 0 0 0 0 0.5 (1 / 2) (1 / 2)
              eq_refl H eq_refl eq_refl
              (le_n 1) (le_n 1) (le_n 1) (le_n 1))
    as (out & E & S & _).
  exists out. split; [exact E | exact S].
Defined.

(** The three blitting blocks enabled, the others not. *)
Lemma flip_rotate90_translate_in_order_witness :
  accumulate_G shape_only (pipe blitting) None 1 1 1 calm
  = (i <- select_xflip (pipe blitting) 1 None ;;
     j <- select_rotate90 (pipe blitting) 1 None ;;
     t <- select_xint (pipe blitting) 1 None ;;
     ret (Fresh
            (map2 mul
               (map2 mul
                  (map (fun i => scale2d_inv (1 - 2 * i) 1) i)
                  (map (fun j => rotate2d_inv (- PI / 2 * j)) j))
               (map (fun t => translate2d_inv (round (fst t * INR 1))
                                              (round (snd t * INR 1)))
                    t)))) calm.
Proof.
  apply (Blocks.flip_rotate90_translate_in_order shape_only (pipe blitting)
           None 1 1 1 calm); try (simpl; lra).
  signs.
Defined.

(** Two states of the generator, the cutout enabled, the noise not. *)
Lemma debug_output_ignores_generator_witness :
  noise (opt (pipe only_cutout)) <= 0
  /\ value (forward shape_only (pipe only_cutout) pixel (Some (1 / 2)) calm)
     = value (forward shape_only (pipe only_cutout) pixel (Some (1 / 2))
                lively).
Proof.
  assert (H : noise (opt (pipe only_cutout)) <= 0) by (simpl; lra).
  exact (conj H
    (Debug.debug_output_ignores_generator shape_only (pipe only_cutout)
       pixel (1 / 2) calm lively H)).
Defined.

Lemma brightness_pending :
  color_pending (opt (pipe only_brightness)) 2 = true.
Proof.
  unfold color_pending. simpl. rewrite positive_one. reflexivity.
Qed.

(** Two channels with the brightness enabled. *)
Lemma unsupported_channels_raise_when_color_pending_witness :
  color_pending (opt (pipe only_brightness)) 2 = true
  /\ forward shape_only (pipe only_brightness) pixel2 None calm
     = Raise ValueError.
Proof.
  split; [exact brightness_pending|].
  refine (proj2 (proj1
    (Channels.unsupported_channels_raise_when_color_pending shape_only
       (pipe only_brightness) pixel2 None calm 1 2 1 1 eq_refl _ _)
    brightness_pending) pixel2 calm _ eq_refl).
  - discriminate.
  - discriminate.
  - apply Blocks.geometric_stage_idle. signs.
Defined.

(** One image of three channels and one pixel, the flip enabled. *)
Lemma forward_preserves_shape_witness :
  exists out w',
    forward shape_only (set_p (init shape_only unit_table only_xflip) 1)
      pixel3 None calm = Ok (out, w')
    /\ shape out = shape pixel3 /\ wf out.
Proof.
  apply (ShapeInvariance.forward_preserves_shape shape_only unit_table
           only_xflip 1 pixel3 None calm 1 3 1 1).
  - exact shape_only_lawful.
  - exact unit_table_ok.
  - reflexivity.
  - reflexivity.
  - right. reflexivity.
  - apply le_n.
  - apply le_n.
  - intros d H. discriminate H.
  - intros _. apply le_n.
  - intro H. exfalso. simpl in H. lra.
Defined.

End Witnesses.

(* ------------------------------------------------------------------ *)
(** ** Switches that cannot fire, and the rotation threshold *)

Module Idle.

Import Scalar Mat Tensor Eff Kernels Builders Pipe Select Forward Config Run.
Import Outcome Chance Gates ScalarFacts Examples.

(** X1. The threshold of the two rotation stages is a probability, whatever
    the multiplier and the strength: the clamp keeps the argument of the
    square root between 0 and 1. *)
Theorem p_rot_is_probability (self : AugmentPipe) : 0 <= p_rot self <= 1.
Proof.
  unfold p_rot.
  set (x := clamp (1 - rotate (opt self) * p self) 0 1).
  assert (Hx : 0 <= x <= 1).
  { unfold x, clamp. split.
    - apply Rmin_glb; [apply Rmax_r | lra].
    - apply Rmin_r. }
  assert (H0 : 0 <= sqrt x) by apply sqrt_pos.
  assert (H1 : sqrt x <= 1).
  { pose proof (sqrt_le_1_alt x 1) as H. rewrite sqrt_1 in H.
    apply H. lra. }
  lra.
Qed.

Lemma threshold_disabled (self : AugmentPipe) (g : gate) :
  configured self g <= 0 -> threshold self g <= 0.
Proof.
  destruct g; simpl; intro H; try lra.
  - unfold p_rot. rewrite clamp_above by lra. rewrite sqrt_1. lra.
  - unfold p_rot. rewrite clamp_above by lra. rewrite sqrt_1. lra.
Qed.


End Idle.

(* ------------------------------------------------------------------ *)
(** ** Edge cases of the geometric execution and of the image filter *)

Module Edges.

Import Scalar Mat Tensor Eff Kernels Builders Pipe Select Forward Config Run.
Import Outcome Contract Accumulate Geometric Shapes Identity.
Local Open Scope eff_scope.

(** X3. For a batch of at least one matrix of three rows and an image of at
    least one pixel in each direction, the computation of the padding
    raises nothing, touches no state, and each of the four paddings lies
    between 0 and the image dimension minus one (the width for [mx0] and
    [mx1], the height for [my0] and [my1]), whatever the entries of the
    matrices and the length of the filter: the reflection padding that
    follows is never larger than what an image admits. *)
Theorem padding_within_image
  (self : AugmentPipe) (height width : nat) (G_inv : list mat) :
  G_inv <> [] -> Forall (fun m => length m = 3%nat) G_inv ->
  (1 <= height)%nat -> (1 <= width)%nat ->
  exists mx0 my0 mx1 my1,
    (forall w,
       calculate_padding self height width G_inv w
       = Ok ((mx0, my0, mx1, my1), w))
    /\ (0 <= mx0 <= Z.of_nat width - 1)%Z
    /\ (0 <= mx1 <= Z.of_nat width - 1)%Z
    /\ (0 <= my0 <= Z.of_nat height - 1)%Z
    /\ (0 <= my1 <= Z.of_nat height - 1)%Z.
Proof.
  intros HG Hrows Hh Hw. unfold calculate_padding. cbv zeta.
  match goal with
  | |- context [map (fun g => mul g ?T) G_inv] =>
      assert (HT : ncols T <> 0%nat) by (unfold ncols; simpl; discriminate);
      pose proof (first_rows_nonempty 0 G_inv T HG Hrows
                    ltac:(lia) HT) as Hx;
      pose proof (first_rows_nonempty 1 G_inv T HG Hrows
                    ltac:(lia) HT) as Hy
  end.
  destruct (max_values_some _ (map_nonempty Ropp _ Hx)) as (x0 & ->).
  destruct (max_values_some _ (map_nonempty Ropp _ Hy)) as (y0 & ->).
  destruct (max_values_some _ Hx) as (x1 & ->).
  destruct (max_values_some _ Hy) as (y1 & ->).
  simpl. do 4 eexists. split; [intro w; reflexivity|].
  pose proof (fun v => clamped_margin_range v width Hw) as Bw.
  pose proof (fun v => clamped_margin_range v height Hh) as Bh.
  repeat split;
    first [apply Bw | apply Bh
          | match goal with
            | |- (ceil_int (Rmin (Rmax ?v 0) (INR width - 1)) <= _)%Z =>
                specialize (Bw v); lia
            | |- (ceil_int (Rmin (Rmax ?v 0) (INR height - 1)) <= _)%Z =>
                specialize (Bh v); lia
            end].
Qed.

(** X4. With an empty batch, as soon as one geometric block is entered the
    geometric stage raises an exception: the maximum over the corners of
    no image does not exist.  No tensor is returned and no kernel is
    launched. *)
Theorem empty_batch_fails_in_geometric_stage
  (K : kernels) (self : AugmentPipe) (debug_percentile : option R)
  (num_channels height width : nat) (images : tensor) (w : world) :
  existsb positive (geometric_multipliers (opt self)) = true ->
  exists e,
    geometric_stage K self debug_percentile 0 num_channels height width
      images w
    = Raise e.
Proof.
  intro Hon. exists RuntimeError. unfold geometric_stage, bind.
  destruct (accumulate_G_yields K self debug_percentile 0 height width w)
    as (G & w1 & -> & (HB & HE) & _).
  rewrite Hon in HE. destruct G as [|ms]; [discriminate HE|].
  destruct HB as (Hlen & _). destruct ms; [|discriminate Hlen].
  reflexivity.
Qed.

Section Reach.

Variable K : kernels.
Variable wavelets : wavelet_table.
Variable o : options.
Variable strength : R.
Variable images : tensor.
Variable dbg : option R.
Variable w : world.
Variables N C H W : nat.

Let self := set_p (init K wavelets o) strength.

Hypothesis K_lawful : lawful K.
Hypothesis table : table_ok wavelets.
Hypothesis input_shape : shape images = [N; C; H; W].
Hypothesis input_wf : wf images.
Hypothesis channels : C = 1%nat \/ C = 3%nat.
Hypothesis height_pos : (1 <= H)%nat.
Hypothesis width_pos : (1 <= W)%nat.
Hypothesis batch_pos :
  existsb positive (geometric_multipliers o) = true -> (1 <= N)%nat.

(** On a valid input the geometric and the colour stages return a batch
    of the shape of the input, on which the filtering continues. *)
Lemma forward_reaches_corruption :
  exists t w1,
    (shape t = [N; C; H; W] /\ wf t)
    /\ forward K self images dbg w
       = corruption_stage K self dbg N C H W t w1.
Proof.
  unfold forward. rewrite input_shape.
  assert (channels_pos : (1 <= C)%nat) by (destruct channels; lia).
  destruct (ShapeInvariance.launches_returns _ _ _ w
              (geometric_stage_shape K self dbg N C H W K_lawful images
                 (init_geom_taps K wavelets o K_lawful table)
                 height_pos width_pos channels_pos batch_pos
                 (conj input_shape input_wf)))
    as (t1 & w1 & E1 & G1).
  destruct (color_stage_shape K self dbg N C H W t1 channels G1 w1)
    as (t2 & w2 & E2 & G2 & _).
  exists t2, w2. split; [exact G2|].
  unfold bind at 1. rewrite E1. unfold bind at 1. rewrite E2. reflexivity.
Qed.

End Reach.

(** X5. With the image filter enabled and a list of band strengths that has
    not four entries, [forward] raises the assertion error on every valid
    input, after the geometric and the colour stages. *)
Theorem wrong_number_of_bands_is_refused
  (K : kernels) (wavelets : wavelet_table) (o : options) (strength : R)
  (images : tensor) (debug_percentile : option R) (w : world)
  (N C H W : nat) :
  lawful K -> table_ok wavelets ->
  shape images = [N; C; H; W] -> wf images ->
  C = 1%nat \/ C = 3%nat -> (1 <= H)%nat -> (1 <= W)%nat ->
  (existsb positive (geometric_multipliers o) = true -> (1 <= N)%nat) ->
  0 < imgfilter o -> length (imgfilter_bands o) <> 4%nat ->
  forward K (set_p (init K wavelets o) strength) images debug_percentile w
  = Raise AssertionError.
Proof.
  intros HK Ht Hs Hwf HC HH HW HN Hf Hb.
  destruct (forward_reaches_corruption K wavelets o strength images
              debug_percentile w N C H W HK Ht Hs Hwf HC HH HW HN)
    as (t & w1 & _ & ->).
  unfold corruption_stage. cbv zeta.
  change (opt (set_p (init K wavelets o) strength)) with o.
  rewrite (positive_pos _ Hf). unfold bind at 1.
  unfold image_filter.
  change (opt (set_p (init K wavelets o) strength)) with o.
  destruct (init_fbank_shape K wavelets o Ht) as (Hrows & _).
  change (Hz_fbank (set_p (init K wavelets o) strength))
    with (Hz_fbank (init K wavelets o)).
  rewrite Hrows.
  rewrite (proj2 (Nat.eqb_neq _ _) Hb). reflexivity.
Qed.

(** X6. With the image filter enabled and four band strengths, [forward]
    fails on every valid input whose height or width is at most 21: the
    reflection padding by 21 pixels is refused by [pad]. *)
Theorem small_image_is_refused_by_image_filter
  (K : kernels) (wavelets : wavelet_table) (o : options) (strength : R)
  (images : tensor) (debug_percentile : option R) (w : world)
  (N C H W : nat) :
  lawful K -> table_ok wavelets ->
  shape images = [N; C; H; W] -> wf images ->
  C = 1%nat \/ C = 3%nat -> (1 <= H)%nat -> (1 <= W)%nat ->
  (existsb positive (geometric_multipliers o) = true -> (1 <= N)%nat) ->
  0 < imgfilter o -> length (imgfilter_bands o) = 4%nat ->
  (H <= 21)%nat \/ (W <= 21)%nat ->
  forward K (set_p (init K wavelets o) strength) images debug_percentile w
  = Raise RuntimeError.
Proof.
  intros HK Ht Hs Hwf HC HH HW HN Hf Hb Hsmall.
  destruct (forward_reaches_corruption K wavelets o strength images
              debug_percentile w N C H W HK Ht Hs Hwf HC HH HW HN)
    as (t & w1 & Hg & ->).
  unfold corruption_stage. cbv zeta.
  change (opt (set_p (init K wavelets o) strength)) with o.
  rewrite (positive_pos _ Hf). unfold bind at 1.
  destruct (init_fbank_shape K wavelets o Ht) as (Hrows & Htaps).
  rewrite (image_filter_small_image K (set_p (init K wavelets o) strength)
             debug_percentile N C H W HK t w1 Hg);
    try assumption; try reflexivity.
Qed.

(** X17. With the image filter enabled and four band strengths, [forward]
    raises the runtime error on every empty batch that reaches the
    filter (no geometric block is entered): the number of taps cannot be
    inferred in the reshaping of the filters of no group.  No kernel is
    launched. *)
Theorem empty_batch_is_refused_by_image_filter
  (K : kernels) (wavelets : wavelet_table) (o : options) (strength : R)
  (images : tensor) (debug_percentile : option R) (w : world)
  (C H W : nat) :
  lawful K -> table_ok wavelets ->
  shape images = [0%nat; C; H; W] -> wf images ->
  C = 1%nat \/ C = 3%nat -> (1 <= H)%nat -> (1 <= W)%nat ->
  existsb positive (geometric_multipliers o) = false ->
  0 < imgfilter o -> length (imgfilter_bands o) = 4%nat ->
  forward K (set_p (init K wavelets o) strength) images debug_percentile w
  = Raise RuntimeError.
Proof.
  intros HK Ht Hs Hwf HC HH HW Hoff Hf Hb.
  destruct (forward_reaches_corruption K wavelets o strength images
              debug_percentile w 0 C H W HK Ht Hs Hwf HC HH HW)
    as (t & w1 & Hg & ->).
  { intro Hon. rewrite Hoff in Hon. discriminate Hon. }
  unfold corruption_stage. cbv zeta.
  change (opt (set_p (init K wavelets o) strength)) with o.
  rewrite (positive_pos _ Hf). unfold bind at 1.
  unfold image_filter.
  change (opt (set_p (init K wavelets o) strength)) with o.
  destruct (init_fbank_shape K wavelets o Ht) as (Hrows & _).
  change (Hz_fbank (set_p (init K wavelets o) strength))
    with (Hz_fbank (init K wavelets o)).
  rewrite Hrows, (proj2 (Nat.eqb_eq _ _) Hb). cbv zeta. cbn [negb].
  unfold bind at 1.
  match goal with
  | |- context [band_gains ?K' ?s ?d ?n ?nb ?ep ?i ?bs ?g w1] =>
      destruct (band_gains_yields K' s d n nb ep bs i g w1)
        as (g' & w2 & -> & _)
  end.
  reflexivity.
Qed.

End Edges.

(* ------------------------------------------------------------------ *)
(** ** The wrapper without kornia *)

Module WrapperFacts.

Import Scalar Mat Tensor Eff Kernels Pipe Select Forward Config Identity.

Lemma defaults_all_off (K : kernels) (wavelets : wavelet_table) :
  none_positive (multipliers (opt (Pipe.init K wavelets defaults))).
Proof.
  unfold none_positive, multipliers, geometric_multipliers,
    color_multipliers. simpl.
  repeat (apply Forall_cons; [lra|]). apply Forall_nil.
Qed.

(** X7. When [opt.use_kornia_augm] is false the wrapper builds [AugmentPipe()]
    with its default arguments, in which every probability is zero: a
    call returns the batch it is given, unchanged, whatever the flag
    [real], draws no random number and launches no kernel; on a batch that
    has not four dimensions it raises the assertion error. *)
Theorem wrapper_without_kornia_is_identity
  (K : kernels) (wavelets : wavelet_table)
  (AugmentPipe_kornia : R -> bool -> tensor -> M tensor)
  (opt : Wrapper.options) (batch : tensor) (real : bool) (w : world) :
  Wrapper.use_kornia_augm opt = false ->
  (length (shape batch) = 4%nat ->
   Wrapper.call (Wrapper.init K wavelets AugmentPipe_kornia opt) batch real w
   = Ok (batch, w))
  /\ (length (shape batch) <> 4%nat ->
      Wrapper.call (Wrapper.init K wavelets AugmentPipe_kornia opt)
        batch real w
      = Raise AssertionError).
Proof.
  intro Hk. unfold Wrapper.call, Wrapper.init. simpl. rewrite Hk. split.
  - intro Hrank. apply forward_idle; [exact Hrank | apply defaults_all_off].
  - intro Hrank. unfold forward.
    destruct (shape batch) as [|n [|c [|h [|wd [|]]]]];
      try reflexivity.
    exfalso. apply Hrank. reflexivity.
Qed.

End WrapperFacts.

(* ------------------------------------------------------------------ *)
(** ** The filter bank of the constructor *)

Module Bank.

Import Mat Pipe Measures Forward.

Lemma padd_length (a b : list R) :
  length (padd a b) = Nat.max (length a) (length b).
Proof.
  revert b. induction a as [|x a IH]; intros [|y b]; simpl; try reflexivity.
  rewrite IH. reflexivity.
Qed.

Lemma convolve_length (a b : list R) :
  a <> [] -> b <> [] ->
  length (convolve a b) = (length a + length b - 1)%nat.
Proof.
  intros Ha Hb. induction a as [|x a IH]; [congruence|].
  simpl. rewrite padd_length, length_map. simpl.
  destruct a as [|y a].
  - simpl. destruct b; [congruence|]. simpl. lia.
  - rewrite IH by discriminate. simpl. lia.
Qed.

Lemma interleave0_length (a : list R) :
  a <> [] -> length (interleave0 a) = (2 * length a - 1)%nat.
Proof.
  intros Ha. induction a as [|x a IH]; [congruence|].
  destruct a as [|y a]; [reflexivity|].
  change (length (interleave0 (x :: y :: a)))
    with (S (S (length (interleave0 (y :: a))))).
  rewrite IH by discriminate. simpl length. lia.
Qed.

Lemma add_slice_length (row : list R) (lo hi : nat) (v : list R) :
  length (add_slice row lo hi v) = length row.
Proof. unfold add_slice. rewrite length_map, length_seq. reflexivity. Qed.

Lemma alternate_length (sgn : R) (a : list R) :
  length (alternate sgn a) = length a.
Proof.
  revert sgn. induction a as [|x a IH]; intro sgn; simpl; [reflexivity|].
  rewrite IH. reflexivity.
Qed.

Lemma total_app (a b : list R) : total (a ++ b) = total a + total b.
Proof.
  unfold total. induction a as [|x a IH]; simpl; [lra|]. rewrite IH. lra.
Qed.

Lemma total_scaled (x : R) (b : list R) :
  total (map (Rmult x) b) = x * total b.
Proof.
  unfold total. induction b as [|y b IH]; simpl; [lra|]. rewrite IH. lra.
Qed.

Lemma total_halved (b : list R) :
  total (map (fun x => x / 2) b) = total b / 2.
Proof.
  unfold total. induction b as [|y b IH]; simpl; [lra|]. rewrite IH. lra.
Qed.

Lemma total_padd (a b : list R) : total (padd a b) = total a + total b.
Proof.
  unfold total. revert b.
  induction a as [|x a IH]; intros [|y b]; simpl; try lra.
  rewrite IH. lra.
Qed.

(** The sum of the coefficients of a convolution is the product of the
    sums. *)
Lemma total_convolve (a b : list R) :
  total (convolve a b) = total a * total b.
Proof.
  induction a as [|x a IH]; simpl.
  - unfold total. simpl. lra.
  - rewrite total_padd, total_scaled.
    change (total (0 :: convolve a b)) with (0 + total (convolve a b)).
    rewrite IH. change (total (x :: a)) with (x + total a). lra.
Qed.

Lemma total_interleave0 (a : list R) : total (interleave0 a) = total a.
Proof.
  induction a as [|x a IH]; [reflexivity|].
  destruct a as [|y a]; [reflexivity|].
  change (interleave0 (x :: y :: a)) with (x :: 0 :: interleave0 (y :: a)).
  change (total (x :: 0 :: interleave0 (y :: a)))
    with (x + (0 + total (interleave0 (y :: a)))).
  rewrite IH. change (total (x :: y :: a)) with (x + total (y :: a)). lra.
Qed.

Lemma total_rev (a : list R) : total (rev a) = total a.
Proof.
  induction a as [|x a IH]; [reflexivity|].
  simpl rev. rewrite total_app, IH. unfold total. simpl. lra.
Qed.

Lemma total_sum_of_maps {A} (f g : A -> R) (l : list A) :
  total (map (fun k => f k + g k) l) = total (map f l) + total (map g l).
Proof.
  unfold total. induction l as [|x l IH]; simpl; [lra|]. rewrite IH. lra.
Qed.

Lemma total_zeros {A} (l : list A) : total (map (fun _ => 0) l) = 0.
Proof.
  unfold total. induction l as [|x l IH]; simpl; [lra|]. rewrite IH. lra.
Qed.

Lemma map_nth_shifted (v : list R) (lo : nat) :
  map (fun k => nth (k - lo) v 0) (seq lo (length v)) = v.
Proof.
  revert lo. induction v as [|x v IH]; intro lo; [reflexivity|].
  simpl. rewrite Nat.sub_diag. f_equal.
  rewrite <- (IH (S lo)) at 2.
  apply map_ext_in. intros k Hk. apply in_seq in Hk.
  replace (k - lo)%nat with (S (k - S lo)) by lia. reflexivity.
Qed.

Lemma add_slice_total (row : list R) (lo : nat) (v : list R) :
  (lo + length v <= length row)%nat ->
  total (add_slice row lo (lo + length v) v) = total row + total v.
Proof.
  intro Hfit. unfold add_slice.
  rewrite (map_ext _
             (fun k => nth k row 0
                       + (if ((lo <=? k) && (k <? lo + length v))%nat
                          then nth (k - lo) v 0 else 0))).
  2:{ intro k. destruct (_ && _); lra. }
  rewrite total_sum_of_maps. f_equal.
  - rewrite <- (map_nth_shifted row 0) at 2.
    f_equal. apply map_ext. intro k. rewrite Nat.sub_0_r. reflexivity.
  - replace (length row)
      with (lo + (length v + (length row - lo - length v)))%nat by lia.
    rewrite !seq_app, !map_app, !total_app.
    rewrite (map_ext_in _ (fun _ => 0)), total_zeros.
    2:{ intros k Hk. apply in_seq in Hk.
        rewrite (proj2 (Nat.leb_gt _ _)) by lia. reflexivity. }
    rewrite (map_ext_in _ (fun k => nth (k - lo) v 0)).
    2:{ intros k Hk. apply in_seq in Hk.
        rewrite (proj2 (Nat.leb_le _ _)) by lia.
        rewrite (proj2 (Nat.ltb_lt _ _)) by lia. reflexivity. }
    simpl Nat.add at 1. rewrite map_nth_shifted.
    rewrite (map_ext_in _ (fun _ => 0)), total_zeros.
    2:{ intros k Hk. apply in_seq in Hk.
        rewrite (proj2 (Nat.ltb_ge _ _)) by lia.
        rewrite andb_false_r. reflexivity. }
    lra.
Qed.

Lemma cascaded_row (r lo2 : list R) (n0 : nat) :
  length r = n0 -> (1 <= n0)%nat -> lo2 <> [] ->
  length (convolve (interleave0 r) lo2) = (2 * n0 + length lo2 - 2)%nat
  /\ total (convolve (interleave0 r) lo2) = total r * total lo2.
Proof.
  intros Hr Hn Hlo.
  assert (Hne : r <> []) by (destruct r; [simpl in Hr; lia | discriminate]).
  assert (Hi : interleave0 r <> []).
  { intro E. apply (f_equal (@length R)) in E.
    rewrite interleave0_length in E by exact Hne. simpl in E. lia. }
  split.
  - rewrite convolve_length, interleave0_length by assumption.
    destruct lo2; [congruence|]. simpl length. lia.
  - rewrite total_convolve, total_interleave0. reflexivity.
Qed.

Lemma band_row (r lo2 hi2 : list R) (n0 : nat) :
  length r = n0 -> (1 <= n0)%nat -> lo2 <> [] ->
  length hi2 = length lo2 ->
  length (add_slice (convolve (interleave0 r) lo2) (n0 - 1)
            (n0 - 1 + length hi2) hi2)
  = (2 * n0 + length lo2 - 2)%nat
  /\ total (add_slice (convolve (interleave0 r) lo2) (n0 - 1)
              (n0 - 1 + length hi2) hi2)
     = total r * total lo2 + total hi2.
Proof.
  intros Hr Hn Hlo Hhi.
  destruct (cascaded_row r lo2 n0 Hr Hn Hlo) as (L & T).
  split.
  - rewrite add_slice_length. exact L.
  - rewrite add_slice_total, T; [reflexivity|].
    rewrite L, Hhi. destruct lo2; [congruence|]. simpl length. lia.
Qed.

(** One turn of the loop on a bank of four rows of the same length. *)
Lemma fbank_step_rows (lo2 hi2 r0 r1 r2 r3 : list R) (n0 i : nat) :
  (1 <= n0)%nat -> lo2 <> [] -> length hi2 = length lo2 ->
  length r0 = n0 -> length r1 = n0 -> length r2 = n0 -> length r3 = n0 ->
  exists r0' r1' r2' r3',
    fbank_step lo2 hi2 [r0; r1; r2; r3] i = [r0'; r1'; r2'; r3']
    /\ Forall (fun r => length r = (2 * n0 + length lo2 - 2)%nat)
         [r0'; r1'; r2'; r3']
    /\ map total [r0'; r1'; r2'; r3']
       = map (fun ks => snd ks * total lo2
                        + (if (fst ks =? i)%nat then total hi2 else 0))
             (combine (seq 0 4) (map total [r0; r1; r2; r3])).
Proof.
  intros Hn Hlo Hhi H0 H1 H2 H3.
  unfold fbank_step. cbv zeta. cbn [map]. unfold ncols. cbn [hd].
  destruct (cascaded_row r0 lo2 n0 H0 Hn Hlo) as (L0 & T0).
  destruct (cascaded_row r1 lo2 n0 H1 Hn Hlo) as (L1 & T1).
  destruct (cascaded_row r2 lo2 n0 H2 Hn Hlo) as (L2 & T2).
  destruct (cascaded_row r3 lo2 n0 H3 Hn Hlo) as (L3 & T3).
  destruct (band_row r0 lo2 hi2 n0 H0 Hn Hlo Hhi) as (BL0 & BT0).
  destruct (band_row r1 lo2 hi2 n0 H1 Hn Hlo Hhi) as (BL1 & BT1).
  destruct (band_row r2 lo2 hi2 n0 H2 Hn Hlo Hhi) as (BL2 & BT2).
  destruct (band_row r3 lo2 hi2 n0 H3 Hn Hlo Hhi) as (BL3 & BT3).
  assert (Hm : (1 <= length lo2)%nat)
    by (destruct lo2; [congruence | simpl; lia]).
  rewrite L0.
  replace ((2 * n0 + length lo2 - 2 - length hi2) / 2)%nat
    with (n0 - 1)%nat
    by (rewrite Hhi; apply (Nat.div_unique _ 2 _ 0); lia).
  replace ((2 * n0 + length lo2 - 2 + length hi2) / 2)%nat
    with (n0 - 1 + length hi2)%nat
    by (rewrite Hhi; apply (Nat.div_unique _ 2 _ 0); lia).
  cbn [length seq combine map fst snd].
  do 4 eexists. split; [reflexivity|]. split.
  - repeat (apply Forall_cons;
            [destruct (_ =? i)%nat; assumption|]).
    apply Forall_nil.
  - cbn [map].
    rewrite <- T0, <- T1, <- T2, <- T3.
    replace (total (convolve (interleave0 r0) lo2)
             + (if (0 =? i)%nat then total hi2 else 0))
      with (total (if (0 =? i)%nat
                   then add_slice (convolve (interleave0 r0) lo2) (n0 - 1)
                          (n0 - 1 + length hi2) hi2
                   else convolve (interleave0 r0) lo2))
      by (destruct (0 =? i)%nat; [rewrite BT0, T0 | ]; lra).
    replace (total (convolve (interleave0 r1) lo2)
             + (if (1 =? i)%nat then total hi2 else 0))
      with (total (if (1 =? i)%nat
                   then add_slice (convolve (interleave0 r1) lo2) (n0 - 1)
                          (n0 - 1 + length hi2) hi2
                   else convolve (interleave0 r1) lo2))
      by (destruct (1 =? i)%nat; [rewrite BT1, T1 | ]; lra).
    replace (total (convolve (interleave0 r2) lo2)
             + (if (2 =? i)%nat then total hi2 else 0))
      with (total (if (2 =? i)%nat
                   then add_slice (convolve (interleave0 r2) lo2) (n0 - 1)
                          (n0 - 1 + length hi2) hi2
                   else convolve (interleave0 r2) lo2))
      by (destruct (2 =? i)%nat; [rewrite BT2, T2 | ]; lra).
    replace (total (convolve (interleave0 r3) lo2)
             + (if (3 =? i)%nat then total hi2 else 0))
      with (total (if (3 =? i)%nat
                   then add_slice (convolve (interleave0 r3) lo2) (n0 - 1)
                          (n0 - 1 + length hi2) hi2
                   else convolve (interleave0 r3) lo2))
      by (destruct (3 =? i)%nat; [rewrite BT3, T3 | ]; lra).
    reflexivity.
Qed.

(** X8. For a wavelet of [L] coefficients, [L] at least 1, the filter bank of
    the constructor has four rows of [14 * L - 13] taps each (43 taps for
    the four coefficients of [sym2]), an odd number. *)
Theorem filter_bank_has_four_rows_of_equal_length (Hz_lo : list R) :
  Hz_lo <> [] ->
  length (make_fbank Hz_lo) = 4%nat
  /\ Forall (fun r => length r = (14 * length Hz_lo - 13)%nat)
        (make_fbank Hz_lo)
  /\ Nat.Odd (14 * length Hz_lo - 13).
Proof.
  intro Hne.
  assert (HL : (1 <= length Hz_lo)%nat)
    by (destruct Hz_lo; [congruence | simpl; lia]).
  unfold make_fbank. cbv zeta. simpl seq. simpl fold_left.
  set (lo2 := map (fun x => x / 2) (convolve Hz_lo (rev Hz_lo))).
  set (hi2 := map (fun x => x / 2)
                  (convolve (alternate 1 Hz_lo) (rev (alternate 1 Hz_lo)))).
  assert (Llo : length lo2 = (2 * length Hz_lo - 1)%nat).
  { unfold lo2. rewrite length_map, convolve_length, length_rev; try lia.
    - exact Hne.
    - intro E. apply (f_equal (@length R)) in E.
      rewrite length_rev in E. simpl in E. lia. }
  assert (Lhi : length hi2 = length lo2).
  { rewrite Llo. unfold hi2.
    rewrite length_map, convolve_length, length_rev, alternate_length;
      try lia.
    - intro E. apply (f_equal (@length R)) in E.
      rewrite alternate_length in E. simpl in E. lia.
    - intro E. apply (f_equal (@length R)) in E.
      rewrite length_rev, alternate_length in E. simpl in E. lia. }
  assert (Hlo : lo2 <> []) by (intro E; rewrite E in Llo; simpl in Llo; lia).
  destruct (fbank_step_rows lo2 hi2 [1] [0] [0] [0] 1 1
              (le_n 1) Hlo Lhi eq_refl eq_refl eq_refl eq_refl)
    as (a0 & a1 & a2 & a3 & -> & Fa & _).
  inversion_clear Fa as [|? ? A0 Fa']. inversion_clear Fa' as [|? ? A1 Fa].
  inversion_clear Fa as [|? ? A2 Fa']. inversion_clear Fa' as [|? ? A3 _].
  assert (N1 : (1 <= 2 * 1 + length lo2 - 2)%nat) by lia.
  destruct (fbank_step_rows lo2 hi2 a0 a1 a2 a3 _ 2 N1 Hlo Lhi A0 A1 A2 A3)
    as (b0 & b1 & b2 & b3 & -> & Fb & _).
  inversion_clear Fb as [|? ? B0 Fb']. inversion_clear Fb' as [|? ? B1 Fb].
  inversion_clear Fb as [|? ? B2 Fb']. inversion_clear Fb' as [|? ? B3 _].
  assert (N2 : (1 <= 2 * (2 * 1 + length lo2 - 2) + length lo2 - 2)%nat)
    by lia.
  destruct (fbank_step_rows lo2 hi2 b0 b1 b2 b3 _ 3 N2 Hlo Lhi B0 B1 B2 B3)
    as (c0 & c1 & c2 & c3 & -> & Fc & _).
  split; [reflexivity|]. split.
  - eapply Forall_impl; [|exact Fc]. intros r Hr. simpl in Hr.
    rewrite Hr, Llo. lia.
  - exists (7 * length Hz_lo - 7)%nat. lia.
Qed.

(** X9. The sums of the coefficients of the four rows of the filter bank:
    with [lo] half the square of the sum of the wavelet coefficients and
    [hi] half the square of their alternating sum, the rows sum to
    [lo^3], [hi * lo^2], [hi * lo] and [hi].  (For an orthonormal wavelet,
    whose coefficients sum to the square root of 2 and whose alternating
    sum is 0, the lowest band has unit gain at frequency zero and the
    other bands have none.) *)
Theorem filter_bank_row_sums (Hz_lo : list R) :
  Hz_lo <> [] ->
  let lo := total Hz_lo * total Hz_lo / 2 in
  let hi := total (alternate 1 Hz_lo) * total (alternate 1 Hz_lo) / 2 in
  map total (make_fbank Hz_lo) = [lo * lo * lo; hi * lo * lo; hi * lo; hi].
Proof.
  intros Hne lo hi.
  assert (HL : (1 <= length Hz_lo)%nat)
    by (destruct Hz_lo; [congruence | simpl; lia]).
  unfold make_fbank. cbv zeta. simpl seq. simpl fold_left.
  set (lo2 := map (fun x => x / 2) (convolve Hz_lo (rev Hz_lo))).
  set (hi2 := map (fun x => x / 2)
                  (convolve (alternate 1 Hz_lo) (rev (alternate 1 Hz_lo)))).
  assert (Llo : length lo2 = (2 * length Hz_lo - 1)%nat).
  { unfold lo2. rewrite length_map, convolve_length, length_rev; try lia.
    - exact Hne.
    - intro E. apply (f_equal (@length R)) in E.
      rewrite length_rev in E. simpl in E. lia. }
  assert (Lhi : length hi2 = length lo2).
  { rewrite Llo. unfold hi2.
    rewrite length_map, convolve_length, length_rev, alternate_length;
      try lia.
    - intro E. apply (f_equal (@length R)) in E.
      rewrite alternate_length in E. simpl in E. lia.
    - intro E. apply (f_equal (@length R)) in E.
      rewrite length_rev, alternate_length in E. simpl in E. lia. }
  assert (Hlo : lo2 <> []) by (intro E; rewrite E in Llo; simpl in Llo; lia).
  assert (Tlo : total lo2 = lo).
  { unfold lo2, lo. rewrite total_halved, total_convolve, total_rev.
    reflexivity. }
  assert (Thi : total hi2 = hi).
  { unfold hi2, hi. rewrite total_halved, total_convolve, total_rev.
    reflexivity. }
  destruct (fbank_step_rows lo2 hi2 [1] [0] [0] [0] 1 1
              (le_n 1) Hlo Lhi eq_refl eq_refl eq_refl eq_refl)
    as (a0 & a1 & a2 & a3 & -> & Fa & Ta).
  inversion_clear Fa as [|? ? A0 Fa']. inversion_clear Fa' as [|? ? A1 Fa].
  inversion_clear Fa as [|? ? A2 Fa']. inversion_clear Fa' as [|? ? A3 _].
  assert (N1 : (1 <= 2 * 1 + length lo2 - 2)%nat) by lia.
  destruct (fbank_step_rows lo2 hi2 a0 a1 a2 a3 _ 2 N1 Hlo Lhi A0 A1 A2 A3)
    as (b0 & b1 & b2 & b3 & -> & Fb & Tb).
  inversion_clear Fb as [|? ? B0 Fb']. inversion_clear Fb' as [|? ? B1 Fb].
  inversion_clear Fb as [|? ? B2 Fb']. inversion_clear Fb' as [|? ? B3 _].
  assert (N2 : (1 <= 2 * (2 * 1 + length lo2 - 2) + length lo2 - 2)%nat)
    by lia.
  destruct (fbank_step_rows lo2 hi2 b0 b1 b2 b3 _ 3 N2 Hlo Lhi B0 B1 B2 B3)
    as (c0 & c1 & c2 & c3 & -> & Fc & Tc).
  rewrite Tc, Tb, Ta, Tlo, Thi. unfold total. simpl.
  f_equal; [lra | f_equal; [lra | f_equal; [lra | f_equal; lra]]].
Qed.

End Bank.

(* ------------------------------------------------------------------ *)
(** ** The strength under [debug_percentile] *)

Module Strength.

Import Scalar Mat Tensor Eff Kernels Builders Pipe Select Forward.
Local Open Scope eff_scope.

(** Two computations that agree in every state. *)
Lemma bind_agree {A B} (m1 m2 : M A) (k1 k2 : A -> M B) :
  (forall w, m1 w = m2 w) -> (forall a w, k1 a w = k2 a w) ->
  forall w, bind m1 k1 w = bind m2 k2 w.
Proof.
  intros Hm Hk w. unfold bind. rewrite Hm.
  destruct (m2 w) as [[a w']|e]; [apply Hk | reflexivity].
Qed.

(** A tensor filled with a constant after [torch.where] does not depend
    on the threshold of the comparison. *)
Lemma filled_after_where {A B} (u : list R) (t1 t2 : R) (a b : list A)
  (c : B) :
  map (fun _ => c) (where_lt u t1 a b) = map (fun _ => c) (where_lt u t2 a b).
Proof. unfold where_lt. rewrite !map_map. reflexivity. Qed.

Section Debugged.

Variable K : kernels.
Variable self : AugmentPipe.
Variables p1 p2 : R.
Variable d : R.
Variable n : nat.

Let s1 := set_p self p1.
Let s2 := set_p self p2.

Ltac overridden :=
  intro w;
  unfold select_xflip, select_rotate90, select_xint, select_scale,
    select_rotate_pre, select_aniso, select_rotate_post, select_xfrac,
    select_brightness, select_contrast, select_lumaflip, select_hue,
    select_saturation, select_band, select_noise, select_cutout,
    gated, bind, ret, rand2, randn2, bind, ret, rand, randn, debug_override,
    full_like, ones_like, zeros_like;
  cbv beta iota zeta;
  do 2 f_equal;
  try apply filled_after_where.

Lemma select_xflip_debugged :
  forall w, select_xflip s1 n (Some d) w = select_xflip s2 n (Some d) w.
Proof. overridden. Qed.

Lemma select_rotate90_debugged :
  forall w, select_rotate90 s1 n (Some d) w = select_rotate90 s2 n (Some d) w.
Proof. overridden. Qed.

Lemma select_xint_debugged :
  forall w, select_xint s1 n (Some d) w = select_xint s2 n (Some d) w.
Proof. overridden. Qed.

Lemma select_scale_debugged :
  forall w, select_scale K s1 n (Some d) w = select_scale K s2 n (Some d) w.
Proof. overridden. Qed.

Lemma select_rotate_pre_debugged :
  forall w,
    select_rotate_pre s1 n (Some d) w = select_rotate_pre s2 n (Some d) w.
Proof. overridden. Qed.

Lemma select_aniso_debugged :
  forall w, select_aniso K s1 n (Some d) w = select_aniso K s2 n (Some d) w.
Proof. overridden. Qed.

Lemma select_rotate_post_debugged :
  forall w,
    select_rotate_post s1 n (Some d) w = select_rotate_post s2 n (Some d) w.
Proof. overridden. Qed.

Lemma select_xfrac_debugged :
  forall w, select_xfrac K s1 n (Some d) w = select_xfrac K s2 n (Some d) w.
Proof. overridden. Qed.

Lemma select_brightness_debugged :
  forall w,
    select_brightness K s1 n (Some d) w = select_brightness K s2 n (Some d) w.
Proof. overridden. Qed.

Lemma select_contrast_debugged :
  forall w,
    select_contrast K s1 n (Some d) w = select_contrast K s2 n (Some d) w.
Proof. overridden. Qed.

Lemma select_lumaflip_debugged :
  forall w, select_lumaflip s1 n (Some d) w = select_lumaflip s2 n (Some d) w.
Proof. overridden. Qed.

Lemma select_hue_debugged :
  forall w, select_hue s1 n (Some d) w = select_hue s2 n (Some d) w.
Proof. overridden. Qed.

Lemma select_saturation_debugged :
  forall w,
    select_saturation K s1 n (Some d) w = select_saturation K s2 n (Some d) w.
Proof. overridden. Qed.

Lemma select_band_debugged (band_strength : R) :
  forall w,
    select_band K s1 n (Some d) band_strength w
    = select_band K s2 n (Some d) band_strength w.
Proof.
  overridden. destruct (positive band_strength); apply filled_after_where.
Qed.

Lemma select_noise_debugged :
  forall w, select_noise K s1 n (Some d) w = select_noise K s2 n (Some d) w.
Proof. overridden. Qed.

Lemma select_cutout_debugged :
  forall w, select_cutout s1 n (Some d) w = select_cutout s2 n (Some d) w.
Proof. overridden. f_equal. apply filled_after_where. Qed.

Lemma band_gains_debugged (num_bands : nat) (expected_power : list R)
  (bands : list R) :
  forall i g w,
    band_gains K s1 (Some d) n num_bands expected_power i bands g w
    = band_gains K s2 (Some d) n num_bands expected_power i bands g w.
Proof.
  induction bands as [|b rest IH]; intros i g w; [reflexivity|].
  cbn [band_gains]. apply bind_agree.
  - apply select_band_debugged.
  - intros t w'. apply IH.
Qed.

Variables num_channels height width : nat.

Ltac same_block sel :=
  intro; cbv delta [apply_xflip apply_rotate90 apply_xint apply_scale
    apply_rotate_pre apply_aniso apply_rotate_post apply_xfrac
    apply_brightness apply_contrast apply_lumaflip apply_hue
    apply_saturation] beta zeta;
  change (opt s2) with (opt s1);
  match goal with
  | |- (if ?b then _ else _) _ = _ =>
      destruct b; [apply bind_agree; [apply sel | reflexivity] | reflexivity]
  end.

Ltac same_next sel :=
  apply bind_agree; [same_block sel | intros ?].

Lemma accumulate_G_debugged :
  forall w,
    accumulate_G K s1 (Some d) n height width w
    = accumulate_G K s2 (Some d) n height width w.
Proof.
  unfold accumulate_G. cbv zeta.
  same_next select_xflip_debugged.
  same_next select_rotate90_debugged.
  same_next select_xint_debugged.
  same_next select_scale_debugged.
  same_next select_rotate_pre_debugged.
  same_next select_aniso_debugged.
  same_next select_rotate_post_debugged.
  same_next select_xfrac_debugged.
  reflexivity.
Qed.

Lemma accumulate_C_debugged :
  forall w,
    accumulate_C K s1 (Some d) n num_channels w
    = accumulate_C K s2 (Some d) n num_channels w.
Proof.
  unfold accumulate_C. cbv zeta.
  same_next select_brightness_debugged.
  same_next select_contrast_debugged.
  same_next select_lumaflip_debugged.
  same_next select_hue_debugged.
  same_next select_saturation_debugged.
  reflexivity.
Qed.

Lemma geometric_stage_debugged (images : tensor) :
  forall w,
    geometric_stage K s1 (Some d) n num_channels height width images w
    = geometric_stage K s2 (Some d) n num_channels height width images w.
Proof.
  unfold geometric_stage.
  apply bind_agree; [apply accumulate_G_debugged|].
  intros [|G] w; reflexivity.
Qed.

Lemma color_stage_debugged (images : tensor) :
  forall w,
    color_stage K s1 (Some d) n num_channels height width images w
    = color_stage K s2 (Some d) n num_channels height width images w.
Proof.
  unfold color_stage.
  apply bind_agree; [apply accumulate_C_debugged|].
  intros [|C] w; reflexivity.
Qed.

Lemma corruption_stage_debugged (images : tensor) :
  forall w,
    corruption_stage K s1 (Some d) n num_channels height width images w
    = corruption_stage K s2 (Some d) n num_channels height width images w.
Proof.
  unfold corruption_stage. cbv zeta. change (opt s2) with (opt s1).
  apply bind_agree.
  { destruct (positive (imgfilter (opt s1))); [|reflexivity].
    unfold image_filter. cbv zeta.
    change (opt s2) with (opt s1).
    change (Hz_fbank s2) with (Hz_fbank s1).
    destruct (negb _); [reflexivity|].
    apply bind_agree; [apply band_gains_debugged | reflexivity]. }
  intros t1 w1. revert w1. apply bind_agree.
  { destruct (positive (noise (opt s1))); [|reflexivity].
    unfold add_noise.
    apply bind_agree; [apply select_noise_debugged | reflexivity]. }
  intros t2 w2. revert w2. apply bind_agree.
  { destruct (positive (cutout (opt s1))); [|reflexivity].
    unfold apply_cutout.
    apply bind_agree; [apply select_cutout_debugged | reflexivity]. }
  reflexivity.
Qed.

End Debugged.

(** X10. Under [debug_percentile] the strength [p] has no influence: every
    random switch is overwritten by the debug value, so that two pipes
    that differ only in [p] return the same images (or raise the same
    exception), launch the same kernels and leave the generator in the
    same state. *)
Theorem strength_is_ignored_under_debug
  (K : kernels) (self : AugmentPipe) (p1 p2 d : R) (images : tensor)
  (w : world) :
  forward K (set_p self p1) images (Some d) w
  = forward K (set_p self p2) images (Some d) w.
Proof.
  unfold forward.
  destruct (shape images) as [|n [|c [|h [|wd [|]]]]]; try reflexivity.
  revert w. apply bind_agree; [apply geometric_stage_debugged|].
  intros t1 w1. revert w1.
  apply bind_agree; [apply color_stage_debugged|].
  intros t2 w2. apply corruption_stage_debugged.
Qed.

End Strength.


(* ------------------------------------------------------------------ *)
(** ** The order of the kernel launches *)

Module Order.

Import Scalar Mat Tensor Eff Kernels Builders Pipe Select Forward Config Run.
Import Outcome Contract Accumulate Geometric Shapes ShapeInvariance.
Local Open Scope eff_scope.

(** X11. The kernels that [forward] launches on a valid input, in their
    order: when a geometric block is entered, the reflection padding, the
    upsampling, the sampling grid, the resampling and the downsampling;
    then, when the image filter is enabled, its padding and its two
    convolutions.  The colour transformations, the noise and the cutout
    launch none, and nothing is launched in another order or twice.  A
    valid input has one or three channels, at least one pixel in each
    direction, at least one image when a geometric block is entered or
    the image filter is enabled and, for the image filter, four band
    strengths and at least 22 pixels in each direction;
    [debug_percentile], when given, lies strictly between 0 and 1. *)
Theorem forward_launch_order
  (K : kernels) (wavelets : wavelet_table) (o : options) (strength : R)
  (images : tensor) (debug_percentile : option R) (w : world)
  (N C H W : nat) :
  lawful K -> table_ok wavelets ->
  shape images = [N; C; H; W] -> wf images ->
  C = 1%nat \/ C = 3%nat -> (1 <= H)%nat -> (1 <= W)%nat ->
  (forall d, debug_percentile = Some d -> 0 < d < 1) ->
  (existsb positive (geometric_multipliers o) = true -> (1 <= N)%nat) ->
  (0 < imgfilter o ->
   length (imgfilter_bands o) = 4%nat /\ (22 <= H)%nat /\ (22 <= W)%nat
   /\ (1 <= N)%nat) ->
  exists out w',
    forward K (set_p (init K wavelets o) strength) images debug_percentile w
    = Ok (out, w')
    /\ trace w'
       = trace w
         ++ (if existsb positive (geometric_multipliers o)
             then [L_pad; L_upsample2d; L_affine_grid; L_grid_sample;
                   L_downsample2d]
             else [])
         ++ (if positive (imgfilter o) then [L_pad; L_conv2d; L_conv2d]
             else []).
Proof.
  intros HK Ht Hs Hwf HC HH HW _ HN Hf.
  assert (HC1 : (1 <= C)%nat) by lia.
  set (self := set_p (init K wavelets o) strength).
  destruct (init_fbank_shape K wavelets o Ht) as (Hrows & Htaps).
  unfold forward. rewrite Hs. unfold bind at 1.
  destruct (geometric_stage_shape K self debug_percentile N C H W HK images
              (init_geom_taps K wavelets o HK Ht) HH HW HC1 HN
              (conj Hs Hwf) w)
    as (t1 & w1 & -> & G1 & T1 & _).
  unfold bind at 1.
  destruct (color_stage_shape K self debug_percentile N C H W t1 HC G1 w1)
    as (t2 & w2 & -> & G2 & T2 & _).
  assert (Hf' : 0 < imgfilter (opt self) ->
                length (imgfilter_bands (opt self)) = length (Hz_fbank self)
                /\ ncols (Hz_fbank self) = 43%nat
                /\ (22 <= H)%nat /\ (22 <= W)%nat
                /\ (1 <= N)%nat /\ (1 <= C)%nat).
  { intro Hpos. destruct (Hf Hpos) as (H1 & H2 & H3 & H4).
    split; [simpl; congruence|]. split; [exact Htaps|].
    repeat split; assumption. }
  destruct (corruption_stage_shape K self debug_percentile N C H W t2 HK G2
              Hf' w2)
    as (t3 & w3 & -> & _ & T3 & _).
  exists t3, w3. split; [reflexivity|].
  rewrite T3, T2, T1. rewrite <- app_assoc. reflexivity.
Qed.

End Order.


(* ------------------------------------------------------------------ *)
(** ** The gains of the image filter *)

Module Gains.

Import Scalar Mat Tensor Eff Kernels Builders Pipe Select Forward Config Run.
Import Outcome Measures.
Local Open Scope eff_scope.

Lemma exp2_pos (x : R) : 0 < exp2 x.
Proof. unfold exp2, Rpower. apply exp_pos. Qed.

Lemma Forall_where {A} (P : A -> Prop) (u : list R) (thr : R)
  (a b : list A) :
  Forall P a -> Forall P b -> Forall P (where_lt u thr a b).
Proof.
  intros Ha Hb. unfold where_lt. apply Forall_forall. intros x Hx.
  apply in_map_iff in Hx. destruct Hx as ((r & y & z) & <- & Hin).
  apply in_combine_r in Hin.
  pose proof (in_combine_l _ _ _ _ Hin) as Hy.
  pose proof (in_combine_r _ _ _ _ Hin) as Hz.
  simpl. destruct (ltb r thr).
  - exact (proj1 (Forall_forall P a) Ha y Hy).
  - exact (proj1 (Forall_forall P b) Hb z Hz).
Qed.

Lemma Forall_filled {A B} (P : B -> Prop) (v : list A) (c : B) :
  P c -> Forall P (map (fun _ => c) v).
Proof.
  intro Hc. apply Forall_forall. intros x Hx.
  apply in_map_iff in Hx. destruct Hx as (? & <- & _). exact Hc.
Qed.

Lemma yields_gated_Forall {A} (P : A -> Prop) (self : AugmentPipe)
  (g : gate) (n : nat) (v ident : list A) :
  Forall P v -> Forall P ident ->
  yields (gated self g n v ident) (Forall P).
Proof.
  intros Hv Hi. unfold gated.
  eapply yields_bind; [apply yields_rand|].
  intros u _. apply yields_ret. apply Forall_where; assumption.
Qed.

(** Every gain that a band draws is positive, with or without
    [debug_percentile]. *)
Lemma select_band_positive (K : kernels) (self : AugmentPipe) (n : nat)
  (dbg : option R) (band_strength : R) :
  yields (select_band K self n dbg band_strength)
         (Forall (fun x => 0 < x)).
Proof.
  unfold select_band.
  eapply yields_bind; [apply yields_randn|]. intros r _. cbv zeta.
  eapply yields_bind.
  - apply yields_gated_Forall.
    + apply Forall_forall. intros x Hx. apply in_map_iff in Hx.
      destruct Hx as (? & <- & _). apply exp2_pos.
    + apply Forall_filled. lra.
  - intros v Hv. apply yields_ret. destruct dbg as [d|]; [|exact Hv].
    destruct (positive band_strength); apply Forall_filled;
      [apply exp2_pos | lra].
Qed.

Lemma total_positive (l : list R) :
  l <> [] -> Forall (fun x => 0 < x) l -> 0 < fold_right Rplus 0 l.
Proof.
  intros Hne H. induction H as [|x l Hx Hl IH]; [congruence|].
  simpl. destruct l as [|y l].
  - simpl. lra.
  - assert (0 < fold_right Rplus 0 (y :: l)) by (apply IH; discriminate).
    lra.
Qed.

Lemma Forall_map2_both {A B C} (P : A -> Prop) (Q : B -> Prop) (S : C -> Prop)
  (f : A -> B -> C) (a : list A) (b : list B) :
  (forall x y, P x -> Q y -> S (f x y)) ->
  Forall P a -> Forall Q b -> Forall S (map2 f a b).
Proof.
  intros Hf Ha Hb. unfold map2. apply Forall_forall. intros z Hz.
  apply in_map_iff in Hz. destruct Hz as ((x & y) & <- & Hin).
  simpl. apply Hf.
  - exact (proj1 (Forall_forall P a) Ha x (in_combine_l _ _ _ _ Hin)).
  - exact (proj1 (Forall_forall Q b) Hb y (in_combine_r _ _ _ _ Hin)).
Qed.

Lemma map2_nonempty {A B C} (f : A -> B -> C) (a : list A) (b : list B) :
  a <> [] -> b <> [] -> map2 f a b <> [].
Proof.
  destruct a, b; intros Ha Hb; try congruence. discriminate.
Qed.

(** The normalisation of a row of positive gains gives positive gains. *)
Lemma normalized_row_positive (expected_power row : list R) :
  expected_power <> [] -> Forall (fun e => 0 < e) expected_power ->
  row <> [] -> Forall (fun x => 0 < x) row ->
  Forall (fun x => 0 < x)
    (map (fun x => x / sqrt (fold_right Rplus 0
                               (map2 Rmult expected_power
                                  (map (fun x => x * x) row)))) row).
Proof.
  intros He Hp Hr Hx.
  assert (Hs : 0 < fold_right Rplus 0
                     (map2 Rmult expected_power (map (fun x => x * x) row))).
  { apply total_positive.
    - apply map2_nonempty; [exact He|]. destruct row; [congruence|discriminate].
    - apply (Forall_map2_both (fun e => 0 < e) (fun x => 0 < x)).
      + intros. apply Rmult_lt_0_compat; assumption.
      + exact Hp.
      + apply Forall_forall. intros y Hy. apply in_map_iff in Hy.
        destruct Hy as (x & <- & Hin).
        pose proof (proj1 (Forall_forall _ row) Hx x Hin).
        apply Rmult_lt_0_compat; assumption. }
  apply sqrt_lt_R0 in Hs.
  apply Forall_forall. intros y Hy. apply in_map_iff in Hy.
  destruct Hy as (x & <- & Hin).
  pose proof (proj1 (Forall_forall _ row) Hx x Hin).
  apply Rdiv_lt_0_compat; assumption.
Qed.

(** X12. The gains of the image filter are strictly positive: started
    from positive gains (the code starts from ones), the loop over the
    bands multiplies them by normalised factors that are positive, for
    every draw, every strength and every [debug_percentile] strictly
    between 0 and 1 (where [torch.erfinv] is finite; at 0 the gain of a
    band would be [exp2 (- inf)], which is 0), as soon as the expected
    powers are positive and there is at least one band.  No frequency
    band is removed or inverted. *)
Theorem band_gains_are_positive
  (K : kernels) (self : AugmentPipe) (debug_percentile : option R)
  (batch_size num_bands : nat) (expected_power bands : list R)
  (i : nat) (g : list (list R)) :
  (forall d, debug_percentile = Some d -> erfinv_finite (d * 2 - 1)) ->
  (1 <= num_bands)%nat ->
  expected_power <> [] -> Forall (fun e => 0 < e) expected_power ->
  Forall (Forall (fun x => 0 < x)) g ->
  yields (band_gains K self debug_percentile batch_size num_bands
            expected_power i bands g)
         (Forall (Forall (fun x => 0 < x))).
Proof.
  intros _ Hn He Hp. revert i g.
  induction bands as [|b rest IH]; intros i g Hg; cbn [band_gains].
  - apply yields_ret. exact Hg.
  - eapply yields_bind; [apply select_band_positive|].
    intros t_i Ht. cbv zeta. apply IH.
    apply (Forall_map2_both (Forall (fun x => 0 < x)) (Forall (fun x => 0 < x)));
      [|exact Hg|].
    + intros r1 r2 H1 H2.
      apply (Forall_map2_both (fun x => 0 < x) (fun x => 0 < x));
        [|exact H1|exact H2].
      intros. apply Rmult_lt_0_compat; assumption.
    + apply Forall_forall. intros row Hrow.
      apply in_map_iff in Hrow. destruct Hrow as (row0 & <- & Hin0).
      apply in_map_iff in Hin0. destruct Hin0 as (x & <- & Hin).
      pose proof (proj1 (Forall_forall _ t_i) Ht x Hin) as Hxpos.
      apply normalized_row_positive; try assumption.
      * destruct num_bands; [lia|]. discriminate.
      * apply Forall_forall. intros y Hy. apply in_map_iff in Hy.
        destruct Hy as (k & <- & _). destruct (k =? i)%nat; [exact Hxpos|lra].
Qed.

End Gains.


(* ------------------------------------------------------------------ *)
(** ** Corruptions that change nothing *)

Module Untouched.

Import Scalar Mat Tensor Eff Kernels Builders Pipe Select Forward Config Run.
Import Outcome Contract Index Cutout Gates Idle ScalarFacts Gains.
Local Open Scope eff_scope.

Lemma tabulate4_ext (n c h w : nat) (f g : nat -> nat -> nat -> nat -> R) :
  (forall i j y x, f i j y x = g i j y x) ->
  tabulate4 n c h w f = tabulate4 n c h w g.
Proof.
  intro H. unfold tabulate4.
  apply flat_map_ext. intro i. apply flat_map_ext. intro j.
  apply flat_map_ext. intro y. apply map_ext. intro x. apply H.
Qed.

(** Reading every element of row-major data and tabulating them again
    gives the data back. *)
Lemma tabulate4_at4 (n c h w : nat) (d : list R) :
  length d = (n * c * h * w)%nat ->
  tabulate4 n c h w (at4 c h w d) = d.
Proof.
  intro Hd. apply (nth_ext _ _ 0 0).
  - rewrite tabulate4_length. symmetry. exact Hd.
  - intros k Hk. rewrite tabulate4_length in Hk.
    assert (Hw : w <> 0%nat) by (intro; subst w; lia).
    assert (Hh : h <> 0%nat) by (intro; subst h; lia).
    assert (Hc : c <> 0%nat) by (intro; subst c; lia).
    pose proof (Nat.div_mod_eq k w) as E1.
    pose proof (Nat.div_mod_eq (k / w) h) as E2.
    pose proof (Nat.div_mod_eq (k / w / h) c) as E3.
    pose proof (Nat.mod_upper_bound k w Hw) as Bx.
    pose proof (Nat.mod_upper_bound (k / w) h Hh) as By.
    pose proof (Nat.mod_upper_bound (k / w / h) c Hc) as Bj.
    assert (Bi : (k / w / h / c < n)%nat).
    { apply Nat.Div0.div_lt_upper_bound.
      apply Nat.Div0.div_lt_upper_bound.
      apply Nat.Div0.div_lt_upper_bound. lia. }
    set (x := (k mod w)%nat) in *. set (q1 := (k / w)%nat) in *.
    set (y := (q1 mod h)%nat) in *. set (q2 := (q1 / h)%nat) in *.
    set (j := (q2 mod c)%nat) in *. set (i := (q2 / c)%nat) in *.
    clearbody i j. subst q2. clearbody y. subst q1. clearbody x.
    assert (E : k = (((i * c + j) * h + y) * w + x)%nat).
    { rewrite E1 at 1. rewrite E2 at 1. rewrite E3 at 1. ring. }
    clear E1 E2 E3. subst k.
    change (nth ((((i * c + j) * h + y) * w + x)) d 0)
      with (at4 c h w d i j y x).
    apply (at4_tabulate4 n c h w (at4 c h w d)); assumption.
Qed.


Lemma pointwise_unchanged (N C H W : nat) (images : tensor)
  (f : R -> nat -> nat -> nat -> nat -> R) (w : world) :
  shape images = [N; C; H; W] -> wf images ->
  (forall v n c y x, f v n c y x = v) ->
  pointwise N C H W images f w = Ok (images, w).
Proof.
  intros Hs Hwf Hf. rewrite pointwise_runs by exact Hs.
  destruct images as [s d]. unfold wf in Hwf. simpl in *. subst s.
  do 3 f_equal.
  rewrite (tabulate4_ext _ _ _ _ _ (at4 C H W d)) by (intros; apply Hf).
  apply tabulate4_at4. rewrite Hwf. simpl. lia.
Qed.

Lemma nth_Forall {A} (P : A -> Prop) (l : list A) (d : A) (n : nat) :
  Forall P l -> P d -> P (nth n l d).
Proof.
  intros Hl Hd. destruct (nth_in_or_default n l d) as [Hin | ->];
    [exact (proj1 (Forall_forall P l) Hl _ Hin) | exact Hd].
Qed.

(** A rectangle without extent masks no pixel. *)
Lemma mask_open (H W : nat) (size center : list (R * R)) (n y x : nat) :
  Forall (fun s => fst s <= 0) size ->
  cutout_mask H W size center n y x = 1.
Proof.
  intro Hs. unfold cutout_mask.
  assert (Hn : fst (nth n size (0, 0)) <= 0)
    by (apply (nth_Forall (fun s => fst s <= 0)); [exact Hs | simpl; lra]).
  match goal with
  | |- (if geb ?a ?b || _ then _ else _) = _ =>
      assert (E : geb a b = true)
        by (apply geb_spec; pose proof (Rabs_pos ((INR x + 0.5) / INR W
                                        - fst (nth n center (0, 0)))); lra);
      rewrite E
  end.
  reflexivity.
Qed.

Section Corruptions.

Variable K : kernels.
Variable self : AugmentPipe.
Variables N C H W : nat.
Variable images : tensor.

Hypothesis input_shape : shape images = [N; C; H; W].
Hypothesis input_wf : wf images.

(** X13. With a standard deviation of zero the noise block returns its
    input, element for element, without [debug_percentile] and with a
    [debug_percentile] strictly between -1 and 1 (where [torch.erfinv] is
    finite; at 1 the deviation would be [inf * 0], which is NaN),
    whatever the switch decides; it launches no kernel. *)
Theorem noise_without_deviation_changes_nothing (dbg : option R) :
  noise_std (opt self) = 0 ->
  (forall d, dbg = Some d -> erfinv_finite d) ->
  yields (add_noise K self dbg N C H W images) (fun t => t = images).
Proof.
  intros Hz _. unfold add_noise.
  eapply (yields_bind _ _ (Forall (fun s => s = 0))).
  { unfold select_noise.
    eapply yields_bind; [apply yields_randn|]. intros r _. cbv zeta.
    eapply yields_bind.
    - apply (yields_gated_Forall (fun s => s = 0)).
      + apply Forall_forall. intros s Hin. apply in_map_iff in Hin.
        destruct Hin as (? & <- & _). cbv beta. rewrite Hz. ring.
      + apply Forall_filled. reflexivity.
    - intros v Hv. apply yields_ret. destruct dbg as [d|]; [|exact Hv].
      apply Forall_filled. cbv beta; rewrite Hz. ring. }
  intros sigma Hsigma.
  eapply yields_bind; [apply yields_randn|]. intros r _.
  intro w. exists images, w. split; [|repeat split].
  apply pointwise_unchanged; try assumption.
  intros v n c y x.
  rewrite (nth_Forall (fun s => s = 0) sigma 0 n Hsigma eq_refl). ring.
Qed.

(** X14. With a cutout size that is not positive the cutout block returns its
    input, element for element: the mask is one everywhere. *)
Theorem cutout_without_size_changes_nothing (dbg : option R) :
  cutout_size (opt self) <= 0 ->
  yields (apply_cutout self dbg N C H W images) (fun t => t = images).
Proof.
  intro Hz. unfold apply_cutout.
  eapply (yields_bind _ _ (fun sc => Forall (fun s => fst s <= 0) (fst sc))).
  { unfold select_cutout. cbv zeta.
    eapply yields_bind.
    - apply (yields_gated_Forall (fun s : R * R => fst s <= 0)).
      + apply Forall_forall. intros s Hin. apply repeat_spec in Hin.
        subst s. exact Hz.
      + apply Forall_filled. simpl. lra.
    - intros size Hsize.
      eapply yields_bind; [apply yields_rand2|]. intros center _.
      apply yields_ret. destruct dbg as [d|]; [|exact Hsize].
      simpl. apply Forall_filled. exact Hz. }
  intros (size & center) Hsize. simpl in Hsize.
  intro w. exists images, w. split; [|repeat split].
  apply pointwise_unchanged; try assumption.
  intros v n c y x. rewrite mask_open by exact Hsize. ring.
Qed.


Lemma nth_zeros (v : list R) (n : nat) : nth n (zeros_like v) 0 = 0.
Proof.
  apply (nth_Forall (fun s => s = 0)); [|reflexivity].
  unfold zeros_like. apply Forall_filled. reflexivity.
Qed.

Lemma idle_draws (w : world) (thr : R) (n : nat) :
  unit_draws w -> thr <= 0 ->
  Forall (fun u => thr <= u) (draws (uniform (gen w)) (cursor (gen w)) n).
Proof.
  intros Hu Ht. apply draws_Forall. intro i. specialize (Hu i). lra.
Qed.

(** Without [debug_percentile], a noise block whose switch cannot fire
    returns its input. *)
Lemma add_noise_idle (w : world) :
  unit_draws w -> noise (opt self) * p self <= 0 ->
  exists w',
    add_noise K self None N C H W images w = Ok (images, w')
    /\ trace w' = trace w /\ uniform (gen w') = uniform (gen w).
Proof.
  intros Hu Hq.
  unfold add_noise, select_noise, gated, debug_override.
  unfold bind, randn, rand, ret. cbv beta iota zeta.
  rewrite where_lt_idle.
  - rewrite pointwise_unchanged; try assumption.
    + eexists. split; [reflexivity|]. split; reflexivity.
    + intros v n c y x. rewrite nth_zeros. ring.
  - apply idle_draws; [|exact Hq]. exact Hu.
  - rewrite length_map, !draws_length. reflexivity.
  - rewrite zeros_like_length, length_map, !draws_length. reflexivity.
Qed.

(** Without [debug_percentile], a cutout block whose switch cannot fire
    returns its input. *)
Lemma apply_cutout_idle (w : world) :
  unit_draws w -> cutout (opt self) * p self <= 0 ->
  exists w',
    apply_cutout self None N C H W images w = Ok (images, w')
    /\ trace w' = trace w /\ uniform (gen w') = uniform (gen w).
Proof.
  intros Hu Hq.
  unfold apply_cutout, select_cutout, gated.
  unfold bind, rand2, bind, rand, ret. cbv beta iota zeta.
  rewrite where_lt_idle.
  - rewrite pointwise_unchanged; try assumption.
    + eexists. split; [reflexivity|]. split; reflexivity.
    + intros v n c y x. rewrite mask_open; [ring|].
      apply Forall_filled. simpl. lra.
  - apply idle_draws; [|exact Hq]. exact Hu.
  - rewrite repeat_length, draws_length. reflexivity.
  - rewrite full_like_length, repeat_length, draws_length. reflexivity.
Qed.

End Corruptions.

(** X15. At the strength zero (or below), without [debug_percentile] and with
    the image filter disabled, the corruption stage returns the batch it
    is given, element for element, for every generator that draws its
    uniform numbers from the interval from 0 to 1: the noise and the
    cutout, even when they are enabled, change no pixel.  They still
    consume random numbers, and they launch no kernel. *)
Theorem corruptions_change_nothing_at_zero_strength
  (K : kernels) (self : AugmentPipe) (N C H W : nat) (images : tensor)
  (w : world) :
  unit_draws w ->
  shape images = [N; C; H; W] -> wf images ->
  p self <= 0 -> imgfilter (opt self) <= 0 ->
  exists w',
    corruption_stage K self None N C H W images w = Ok (images, w')
    /\ trace w' = trace w.
Proof.
  intros Hu Hs Hwf Hp Hf.
  unfold corruption_stage. cbv zeta.
  rewrite (Identity.positive_nonpos _ Hf).
  unfold bind at 1. unfold ret at 1.
  assert (Hnoise :
    exists w1,
      (if positive (noise (opt self))
       then add_noise K self None N C H W images
       else ret images) w = Ok (images, w1)
      /\ trace w1 = trace w /\ uniform (gen w1) = uniform (gen w)).
  { destruct (positive (noise (opt self))) eqn:E.
    - apply ltb_spec in E.
      apply add_noise_idle; try assumption. nra.
    - exists w. repeat split. }
  destruct Hnoise as (w1 & E1 & T1 & U1).
  unfold bind at 1. rewrite E1.
  assert (Hu1 : unit_draws w1) by (intro i; rewrite U1; apply Hu).
  assert (Hcut :
    exists w2,
      (if positive (cutout (opt self))
       then apply_cutout self None N C H W images
       else ret images) w1 = Ok (images, w2)
      /\ trace w2 = trace w1 /\ uniform (gen w2) = uniform (gen w1)).
  { destruct (positive (cutout (opt self))) eqn:E.
    - apply ltb_spec in E.
      apply apply_cutout_idle; try assumption. nra.
    - exists w1. repeat split. }
  destruct Hcut as (w2 & E2 & T2 & _).
  unfold bind. rewrite E2. exists w2. split; [reflexivity|]. congruence.
Qed.

End Untouched.

(* ------------------------------------------------------------------ *)
(** ** The colour executor on identity transforms *)

Module Colour.

Import Scalar Mat Tensor Eff Kernels Builders Pipe Select Forward Config Run.
Import Outcome Contract Index.
Local Open Scope eff_scope.

(** A rank-3 tabulation that reads, within the shape, the elements of
    row-major data gives the data back. *)
Lemma tabulate3_reads (n c m : nat) (f : nat -> nat -> nat -> R)
  (d : list R) :
  length d = (n * c * m)%nat ->
  (forall i j k, (i < n)%nat -> (j < c)%nat -> (k < m)%nat ->
                 f i j k = at3 c m d i j k) ->
  tabulate3 n c m f = d.
Proof.
  intros Hd Hf. apply (nth_ext _ _ 0 0).
  - rewrite tabulate3_length. symmetry. exact Hd.
  - intros x Hx. rewrite tabulate3_length in Hx.
    assert (Hm : m <> 0%nat) by (intro; subst m; lia).
    assert (Hc : c <> 0%nat) by (intro; subst c; lia).
    pose proof (Nat.div_mod_eq x m) as E1.
    pose proof (Nat.div_mod_eq (x / m) c) as E2.
    pose proof (Nat.mod_upper_bound x m Hm) as Bk.
    pose proof (Nat.mod_upper_bound (x / m) c Hc) as Bj.
    assert (Bi : (x / m / c < n)%nat).
    { apply Nat.Div0.div_lt_upper_bound.
      apply Nat.Div0.div_lt_upper_bound. lia. }
    set (k := (x mod m)%nat) in *. set (q := (x / m)%nat) in *.
    set (j := (q mod c)%nat) in *. set (i := (q / c)%nat) in *.
    clearbody i j. subst q. clearbody k.
    assert (E : x = ((i * c + j) * m + k)%nat).
    { rewrite E1 at 1. rewrite E2 at 1. ring. }
    clear E1 E2. subst x.
    change (nth ((i * c + j) * m + k) d 0) with (at3 c m d i j k).
    rewrite <- (Hf i j k Bi Bj Bk). unfold tabulate3.
    replace ((i * c + j) * m + k)%nat with (i * (c * m) + (j * m + k))%nat
      by lia.
    assert (Hjk : (j * m + k < c * m)%nat) by nia.
    rewrite (nth_flat_map_blocks _ 0 (c * m)%nat); try assumption.
    2:{ intro a. rewrite (flat_map_blocks_length _ m); [lia|].
        intro b. rewrite length_map, length_seq. reflexivity. }
    rewrite (nth_flat_map_blocks _ 0 m); try assumption.
    2:{ intro b. rewrite length_map, length_seq. reflexivity. }
    simpl. apply nth_map_seq. exact Bk.
Qed.

Lemma nth_repeat_in {A} (a d : A) (n i : nat) :
  (i < n)%nat -> nth i (repeat a n) d = a.
Proof.
  revert i. induction n as [|n IH]; intros i Hi; [lia|].
  destruct i; simpl; [reflexivity | apply IH; lia].
Qed.

(** X16. With the identity as the colour transform of every image, the colour
    executor returns its input, element for element, for one channel and
    for three, and touches no state. *)
Theorem color_executor_with_identity_changes_nothing
  (N C H W : nat) (images : tensor) (w : world) :
  shape images = [N; C; H; W] -> wf images ->
  C = 1%nat \/ C = 3%nat ->
  execute_color N C H W images (repeat I_4 N) w = Ok (images, w).
Proof.
  intros Hs Hwf HC. destruct images as [s d].
  unfold wf in Hwf. simpl in Hs, Hwf. subst s.
  assert (Hd : length d = (N * C * (H * W))%nat)
    by (rewrite Hwf; simpl; lia).
  unfold execute_color. cbv zeta. unfold reshape at 1. cbn [shape data].
  replace (numel [N; C; H; W] =? numel [N; C; (H * W)%nat])%nat with true
    by (symmetry; apply Nat.eqb_eq; simpl; lia).
  unfold bind at 1. unfold ret at 1. cbn [shape data].
  destruct HC as [-> | ->]; cbn [Nat.eqb]; unfold bind at 1, ret at 1;
    unfold reshape; cbn [shape data];
    (replace (numel [N; _; (H * W)%nat] =? numel [N; _; H; W])%nat with true
      by (symmetry; apply Nat.eqb_eq; simpl; lia));
    unfold ret; do 3 f_equal; apply tabulate3_reads; try exact Hd;
    intros i j k Hi Hj Hk.
  - rewrite map_repeat, !nth_repeat_in by exact Hi.
    unfold I_4. simpl. assert (j = 0%nat) as -> by lia. lra.
  - rewrite !nth_repeat_in by exact Hi.
    destruct j as [|[|[|j]]]; [| | |lia]; unfold I_4, dot; simpl; lra.
Qed.

End Colour.

(* ------------------------------------------------------------------ *)
(** ** Further concrete instances *)

Module Instances.

Import Scalar Mat Tensor Eff Kernels Builders Pipe Select Forward Config Run.
Import Outcome Identity Contract Examples Shapes Geometric ShapeOnly.
Import Chance Scenarios Measures.
Local Open Scope eff_scope.


(** One identity matrix and an image of one pixel. *)
Lemma padding_within_image_witness :
  exists mx0 my0 mx1 my1,
    (forall w,
       calculate_padding (pipe only_xflip) 1 1 [I_3] w
       = Ok ((mx0, my0, mx1, my1), w))
    /\ (0 <= mx0 <= Z.of_nat 1 - 1)%Z
    /\ (0 <= mx1 <= Z.of_nat 1 - 1)%Z
    /\ (0 <= my0 <= Z.of_nat 1 - 1)%Z
    /\ (0 <= my1 <= Z.of_nat 1 - 1)%Z.
Proof.
  apply (Edges.padding_within_image (pipe only_xflip) 1 1 [I_3]).
  - discriminate.
  - apply Forall_cons; [reflexivity | apply Forall_nil].
  - apply le_n.
  - apply le_n.
Defined.

Lemma flip_is_geometric :
  existsb positive (geometric_multipliers (opt (pipe only_xflip))) = true.
Proof.
  unfold geometric_multipliers. simpl. rewrite positive_one. reflexivity.
Qed.

(** The flip on an empty batch. *)
Lemma empty_batch_fails_in_geometric_stage_witness :
  existsb positive (geometric_multipliers (opt (pipe only_xflip))) = true
  /\ exists e,
       geometric_stage shape_only (pipe only_xflip) None 0 1 1 1
         no_image calm
       = Raise e.
Proof.
  exact (conj flip_is_geometric
    (Edges.empty_batch_fails_in_geometric_stage shape_only
       (pipe only_xflip) None 1 1 1 no_image calm flip_is_geometric)).
Defined.

(** The image filter with one band strength instead of four. *)
Lemma wrong_number_of_bands_is_refused_witness :
  forward shape_only (set_p (init shape_only unit_table one_band) 1)
    pixel3 None calm
  = Raise AssertionError.
Proof.
  apply (Edges.wrong_number_of_bands_is_refused shape_only unit_table
           one_band 1 pixel3 None calm 1 3 1 1).
  - exact shape_only_lawful.
  - exact unit_table_ok.
  - reflexivity.
  - reflexivity.
  - right. reflexivity.
  - apply le_n.
  - apply le_n.
  - intros _. apply le_n.
  - simpl. lra.
  - simpl. discriminate.
Defined.

(** The image filter on an image of one pixel. *)
Lemma small_image_is_refused_by_image_filter_witness :
  forward shape_only (set_p (init shape_only unit_table only_imgfilter) 1)
    pixel3 None calm
  = Raise RuntimeError.
Proof.
  apply (Edges.small_image_is_refused_by_image_filter shape_only unit_table
           only_imgfilter 1 pixel3 None calm 1 3 1 1).
  - exact shape_only_lawful.
  - exact unit_table_ok.
  - reflexivity.
  - reflexivity.
  - right. reflexivity.
  - apply le_n.
  - apply le_n.
  - intros _. apply le_n.
  - simpl. lra.
  - reflexivity.
  - left. lia.
Defined.

(** The wrapper without kornia on a batch of rank 4 and on one of rank 1. *)
Lemma wrapper_without_kornia_is_identity_witness :
  Wrapper.call
    (Wrapper.init shape_only unit_table (fun _ _ t => ret t)
       {| Wrapper.use_kornia_augm := false; Wrapper.prob_augm := 1;
          Wrapper.no_masks := false |})
    pixel3 true calm
  = Ok (pixel3, calm)
  /\ Wrapper.call
       (Wrapper.init shape_only unit_table (fun _ _ t => ret t)
          {| Wrapper.use_kornia_augm := false; Wrapper.prob_augm := 1;
             Wrapper.no_masks := false |})
       (Tensor.mk [1%nat] [0]) true calm
     = Raise AssertionError.
Proof.
  split.
  - apply (proj1 (WrapperFacts.wrapper_without_kornia_is_identity shape_only
             unit_table (fun _ _ t => ret t)
             {| Wrapper.use_kornia_augm := false; Wrapper.prob_augm := 1;
                Wrapper.no_masks := false |}
             pixel3 true calm eq_refl)).
    reflexivity.
  - apply (proj2 (WrapperFacts.wrapper_without_kornia_is_identity shape_only
             unit_table (fun _ _ t => ret t)
             {| Wrapper.use_kornia_augm := false; Wrapper.prob_augm := 1;
                Wrapper.no_masks := false |}
             (Tensor.mk [1%nat] [0]) true calm eq_refl)).
    simpl. discriminate.
Defined.

(** The wavelet of the two coefficients 1 and 1. *)
Lemma filter_bank_has_four_rows_of_equal_length_witness :
  length (make_fbank [1; 1]) = 4%nat
  /\ Forall (fun r => length r = (14 * length [1; 1] - 13)%nat)
        (make_fbank [1; 1])
  /\ Nat.Odd (14 * length [1; 1] - 13).
Proof.
  apply (Bank.filter_bank_has_four_rows_of_equal_length [1; 1]).
  discriminate.
Defined.

(** The wavelet of the two coefficients 1 and 0. *)
Lemma filter_bank_row_sums_witness :
  map total (make_fbank [1; 0])
  = [total [1; 0] * total [1; 0] / 2 * (total [1; 0] * total [1; 0] / 2)
     * (total [1; 0] * total [1; 0] / 2);
     total (alternate 1 [1; 0]) * total (alternate 1 [1; 0]) / 2
     * (total [1; 0] * total [1; 0] / 2)
     * (total [1; 0] * total [1; 0] / 2);
     total (alternate 1 [1; 0]) * total (alternate 1 [1; 0]) / 2
     * (total [1; 0] * total [1; 0] / 2);
     total (alternate 1 [1; 0]) * total (alternate 1 [1; 0]) / 2].
Proof.
  apply (Bank.filter_bank_row_sums [1; 0]). discriminate.
Defined.

(** One image of three channels and one pixel, the flip enabled. *)
Lemma forward_launch_order_witness :
  exists out w',
    forward shape_only (set_p (init shape_only unit_table only_xflip) 1)
      pixel3 None calm = Ok (out, w')
    /\ trace w'
       = trace calm
         ++ (if existsb positive (geometric_multipliers only_xflip)
             then [L_pad; L_upsample2d; L_affine_grid; L_grid_sample;
                   L_downsample2d]
             else [])
         ++ (if positive (imgfilter only_xflip)
             then [L_pad; L_conv2d; L_conv2d]
             else []).
Proof.
  apply (Order.forward_launch_order shape_only unit_table only_xflip 1
           pixel3 None calm 1 3 1 1).
  - exact shape_only_lawful.
  - exact unit_table_ok.
  - reflexivity.
  - reflexivity.
  - right. reflexivity.
  - apply le_n.
  - apply le_n.
  - intros d H. discriminate H.
  - intros _. apply le_n.
  - intro H. exfalso. simpl in H. lra.
Defined.

(** The four bands of the default configuration on one image, under the
    [debug_percentile] 1/2. *)
Lemma band_gains_are_positive_witness :
  yields
    (band_gains shape_only (pipe only_imgfilter) (Some (1 / 2)) 1 4 pink 0
       [1; 1; 1; 1] [[1; 1; 1; 1]])
    (Forall (Forall (fun x => 0 < x))).
Proof.
  apply (Gains.band_gains_are_positive shape_only (pipe only_imgfilter)
           (Some (1 / 2)) 1 4 pink [1; 1; 1; 1] 0 [[1; 1; 1; 1]]).
  - intros d [= <-]. unfold erfinv_finite. lra.
  - lia.
  - discriminate.
  - unfold pink. simpl. repeat (apply Forall_cons; [lra|]). apply Forall_nil.
  - apply Forall_cons; [|apply Forall_nil].
    repeat (apply Forall_cons; [lra|]). apply Forall_nil.
Defined.

(** The noise with a standard deviation of zero, under
    [debug_percentile]. *)
Lemma noise_without_deviation_changes_nothing_witness :
  yields (add_noise shape_only (pipe flat_noise) (Some (1 / 2)) 1 1 1 1 pixel)
         (fun t => t = pixel).
Proof.
  apply (Untouched.noise_without_deviation_changes_nothing shape_only
           (pipe flat_noise) 1 1 1 1 pixel eq_refl eq_refl (Some (1 / 2))).
  - reflexivity.
  - intros d [= <-]. unfold erfinv_finite. lra.
Defined.

(** The cutout with a size of zero. *)
Lemma cutout_without_size_changes_nothing_witness :
  yields (apply_cutout (pipe empty_cutout) None 1 1 1 1 pixel)
         (fun t => t = pixel).
Proof.
  apply (Untouched.cutout_without_size_changes_nothing (pipe empty_cutout)
           1 1 1 1 pixel eq_refl eq_refl None).
  simpl. lra.
Defined.

(** The noise and the cutout enabled at the strength zero. *)
Lemma corruptions_change_nothing_at_zero_strength_witness :
  exists w',
    corruption_stage shape_only (set_p (pipe noise_and_cutout) 0) None
      1 1 1 1 pixel calm
    = Ok (pixel, w')
    /\ trace w' = trace calm.
Proof.
  apply (Untouched.corruptions_change_nothing_at_zero_strength shape_only
           (set_p (pipe noise_and_cutout) 0) 1 1 1 1 pixel calm).
  - intro i. simpl. lra.
  - reflexivity.
  - reflexivity.
  - simpl. lra.
  - simpl. lra.
Defined.

(** Three channels with the identity transform. *)
Lemma color_executor_with_identity_changes_nothing_witness :
  execute_color 1 3 1 1 pixel3 (repeat I_4 1) calm = Ok (pixel3, calm).
Proof.
  apply (Colour.color_executor_with_identity_changes_nothing 1 3 1 1 pixel3
           calm).
  - reflexivity.
  - reflexivity.
  - right. reflexivity.
Defined.

(** The image filter on an empty batch. *)
Lemma empty_batch_is_refused_by_image_filter_witness :
  forward shape_only (set_p (init shape_only unit_table only_imgfilter) 1)
    no_image None calm
  = Raise RuntimeError.
Proof.
  apply (Edges.empty_batch_is_refused_by_image_filter shape_only unit_table
           only_imgfilter 1 no_image None calm 1 1 1).
  - exact shape_only_lawful.
  - exact unit_table_ok.
  - reflexivity.
  - reflexivity.
  - left. reflexivity.
  - apply le_n.
  - apply le_n.
  - unfold geometric_multipliers. simpl. rewrite positive_zero. reflexivity.
  - simpl. lra.
  - reflexivity.
Defined.

End Instances.
